(** * Soulvan AI: threat scoring and motif selection; the wallet subsystem

    A shallow embedding of [SoulvanThreatService.cpp],
    [SoulvanMotifComponent.cpp] and [SoulvanWalletSubsystem.cpp].  The C++
    type [float] is IEEE-754 binary32
    and Unreal Engine 5's [FVector] holds binary64 components; both are
    modelled with the Standard Library's executable specification of
    floating-point arithmetic ([SpecFloat]): round to nearest, ties to even,
    every operation rounded once, evaluated in source order. *)

From Stdlib Require Import ZArith NArith Lia Bool List String Ascii.
From Stdlib Require Import DecimalString.
From Stdlib Require Import Floats.SpecFloat.
Import ListNotations.
Local Open Scope Z_scope.

(** ** binary32, the C++ [float] *)

Module F32.
Definition prec : Z := 24.
Definition emax : Z := 128.

Definition float := spec_float.

(** A [spec_float] is a binary32 number when its mantissa and exponent
    are the canonical ones of the format. *)
Definition valid (x : float) : bool := valid_binary prec emax x.

Definition add : float -> float -> float := SFadd prec emax.
Definition sub : float -> float -> float := SFsub prec emax.
Definition mul : float -> float -> float := SFmul prec emax.
Definition div : float -> float -> float := SFdiv prec emax.
Definition opp : float -> float := SFopp.

(** The C++ comparisons [<], [<=] and [==]; all false on NaN. *)
Definition ltb : float -> float -> bool := SFltb.
Definition leb : float -> float -> bool := SFleb.
Definition eqb : float -> float -> bool := SFeqb.

Definition of_Z (z : Z) : float := binary_normalize prec emax z 0 false.

(** The literal written as the decimal [num/den] in the source: the
    binary32 number nearest to it ([num] and [den] are small integers,
    hence exact, and the division rounds once). *)
Definition lit (num den : Z) : float := div (of_Z num) (of_Z den).

Definition zero : float := S754_zero false.
Definition one : float := Eval vm_compute in of_Z 1.
End F32.

(** ** binary64, the component type of UE5's [FVector] *)

Module F64.
Definition prec : Z := 53.
Definition emax : Z := 1024.

Definition float := spec_float.

Definition add : float -> float -> float := SFadd prec emax.
Definition sub : float -> float -> float := SFsub prec emax.
Definition mul : float -> float -> float := SFmul prec emax.
Definition div : float -> float -> float := SFdiv prec emax.
Definition sqrt : float -> float := SFsqrt prec emax.
Definition eqb : float -> float -> bool := SFeqb.

Definition of_Z (z : Z) : float := binary_normalize prec emax z 0 false.
Definition lit (num den : Z) : float := div (of_Z num) (of_Z den).
Definition zero : float := S754_zero false.

(** The implicit promotion of a [float] operand to double; exact. *)
Definition of_f32 (x : F32.float) : float :=
  match x with
  | S754_finite s m e => binary_round prec emax s m e
  | _ => x
  end.

(** The implicit conversion of [float Dist = FVector::Distance(...)]:
    a double narrowed to float, rounded to nearest. *)
Definition to_f32 (x : float) : F32.float :=
  match x with
  | S754_finite s m e => binary_round F32.prec F32.emax s m e
  | _ => x
  end.
End F64.

Declare Scope f32_scope.
Delimit Scope f32_scope with f32.
Infix "+" := F32.add : f32_scope.
Infix "-" := F32.sub : f32_scope.
Infix "*" := F32.mul : f32_scope.
Infix "/" := F32.div : f32_scope.
Infix "<?" := F32.ltb : f32_scope.
Infix "<=?" := F32.leb : f32_scope.
Infix "==?" := F32.eqb (at level 70) : f32_scope.

(** ** The engine's math helpers used by the two files *)

Module FMath.
Import F32.
Local Open Scope f32_scope.

(** Modelled from the spec: [FMath::Max] is engine code, absent from
    src/; the spec's [max(1, d)], with the engine's comparison
    [(B < A) ? A : B]. *)
Definition Max (A B : float) : float := if B <? A then A else B.

(** Modelled from the spec: [FMath::Min] is engine code, absent from
    src/; the engine's [(A < B) ? A : B]. *)
Definition Min (A B : float) : float := if A <? B then A else B.

(** Modelled from the spec: [FMath::Clamp] is engine code, absent from
    src/; the spec's [clamp(x, lo, hi)], which the engine computes as
    [Max(Min(X, MaxValue), MinValue)]. *)
Definition Clamp (X MinValue MaxValue : float) : float :=
  Max (Min X MaxValue) MinValue.

(** Modelled from the spec: [FMath::Lerp] is engine code, absent from
    src/; the spec's linear interpolation, [A + Alpha * (B - A)]. *)
Definition Lerp (A B Alpha : float) : float := A + Alpha * (B - A).
End FMath.

(** ** [FVector] *)

Record FVector := MkVector { VX : F64.float; VY : F64.float; VZ : F64.float }.

Module Vector.
Definition Square (a : F64.float) : F64.float := F64.mul a a.

(** Modelled from the spec: [FVector::DistSquared] and
    [FVector::Distance] are engine code, absent from src/; the spec's
    [distance(self, other)], the Euclidean distance computed in double
    precision. *)
Definition DistSquared (V1 V2 : FVector) : F64.float :=
  F64.add
    (F64.add (Square (F64.sub (VX V2) (VX V1)))
             (Square (F64.sub (VY V2) (VY V1))))
    (Square (F64.sub (VZ V2) (VZ V1))).

Definition Distance (V1 V2 : FVector) : F64.float :=
  F64.sqrt (DistSquared V1 V2).

(** Modelled from the spec: [FVector::Size] is engine code, absent
    from src/; the magnitude of the vector, in double precision. *)
Definition Size (V : FVector) : F64.float :=
  F64.sqrt (F64.add (F64.add (F64.mul (VX V) (VX V))
                             (F64.mul (VY V) (VY V)))
                    (F64.mul (VZ V) (VZ V))).

(** Modelled from the spec: [FVector::IsZero] is engine code, absent
    from src/; a position is "zero/unset" when all three components
    compare equal to 0. *)
Definition IsZero (V : FVector) : bool :=
  F64.eqb (VX V) F64.zero && F64.eqb (VY V) F64.zero
  && F64.eqb (VZ V) F64.zero.

Definition of_Z3 (x y z : Z) : FVector :=
  MkVector (F64.of_Z x) (F64.of_Z y) (F64.of_Z z).

Definition ZeroVector : FVector := of_Z3 0 0 0.
End Vector.

(** ** SoulvanThreatService *)

Module ThreatService.
Import F32 FMath.
Local Open Scope f32_scope.

(** The [UPROPERTY] weights of [UBTService_ThreatUpdate]. *)
Record UBTService_ThreatUpdate := MkService {
  RivalWeight : float;
  PoliceWeight : float;
  SpeedWeight : float;
  DamageWeight : float;
  MaxSpeedKmh : float
}.

(** The in-class initialisers of SoulvanThreatService.h. *)
Definition DefaultService : UBTService_ThreatUpdate :=
  {| RivalWeight := lit 45 100;
     PoliceWeight := lit 35 100;
     SpeedWeight := lit 15 100;
     DamageWeight := lit 5 100;
     MaxSpeedKmh := of_Z 220 |}.

Record AActor := MkActor { ActorLocation : FVector }.

(** [float Dist = FVector::Distance(SelfPos, OtherPos)]. *)
Definition Dist (SelfPos OtherPos : FVector) : float :=
  F64.to_f32 (Vector.Distance SelfPos OtherPos).

(** The four local variables of [CalculateThreat]. *)
Definition RivalProx (Rival : option AActor) (SelfPos : FVector) : float :=
  match Rival with
  | Some R => one / Max one (Dist SelfPos (ActorLocation R))
  | None => zero
  end.

Definition PoliceProx (PolicePos SelfPos : FVector) : float :=
  if negb (Vector.IsZero PolicePos)
  then one / Max one (Dist SelfPos PolicePos)
  else zero.

Definition SpeedRisk (S : UBTService_ThreatUpdate) (Speed : float) : float :=
  Clamp (Speed / MaxSpeedKmh S) zero one.

Definition DamageRisk (Damage : float) : float := Clamp Damage zero one.

(** The weighted sum before the final clamp. *)
Definition WeightedSum (S : UBTService_ThreatUpdate)
    (rivalProx policeProx speedRisk damageRisk : float) : float :=
  RivalWeight S * rivalProx + PoliceWeight S * policeProx
  + SpeedWeight S * speedRisk + DamageWeight S * damageRisk.

Definition CalculateThreat (S : UBTService_ThreatUpdate)
    (Rival : option AActor) (PolicePos : FVector) (Speed Damage : float)
    (SelfPos : FVector) : float :=
  let RivalProx := RivalProx Rival SelfPos in
  let PoliceProx := PoliceProx PolicePos SelfPos in
  let SpeedRisk := SpeedRisk S Speed in
  let DamageRisk := DamageRisk Damage in
  let Threat := WeightedSum S RivalProx PoliceProx SpeedRisk DamageRisk in
  Clamp Threat zero one.

(** [FMath::Clamp(0.4f + Threat * 0.6f, 0.f, 1.f)] of [TickNode]. *)
Definition MotifIntensityOf (Threat : float) : float :=
  Clamp (lit 4 10 + Threat * lit 6 10) zero one.

(** The blackboard slots the service reads and writes. *)
Record UBlackboardComponent := MkBlackboard {
  bbRival : option AActor;
  bbLastThreatPos : FVector;
  bbDamagePct : float;
  bbThreatLevel : float;
  bbSpeedKmh : float;
  bbMotifIntensity : float
}.

(** The pawn: its location and velocity, and, when it is an
    [AWheeledVehiclePawn], the forward speed (cm/s) of its movement
    component. *)
Record APawn := MkPawn {
  PawnLocation : FVector;
  GetVelocity : FVector;
  GetForwardSpeed : option float
}.

(** The speed sampling of [TickNode]; in the second branch the double
    [Size()] is multiplied by the promoted literal and the product is
    narrowed to [float]. *)
Definition SampleSpeedKmh (SelfPawn : APawn) : float :=
  match GetForwardSpeed SelfPawn with
  | Some ForwardSpeed => ForwardSpeed * lit 36 1000
  | None =>
    F64.to_f32
      (F64.mul (Vector.Size (GetVelocity SelfPawn))
               (F64.of_f32 (lit 36 1000)))
  end.

Record AAIController := MkController { GetPawn : option APawn }.

Record UBehaviorTreeComponent := MkTree {
  GetBlackboardComponent : option UBlackboardComponent;
  GetAIOwner : option AAIController
}.

Definition TickNode (S : UBTService_ThreatUpdate)
    (OwnerComp : UBehaviorTreeComponent) : UBehaviorTreeComponent :=
  match GetBlackboardComponent OwnerComp with
  | None => OwnerComp
  | Some Blackboard =>
    match GetAIOwner OwnerComp with
    | None => OwnerComp
    | Some AIController =>
      match GetPawn AIController with
      | None => OwnerComp
      | Some SelfPawn =>
        let Rival := bbRival Blackboard in
        let LastThreatPos := bbLastThreatPos Blackboard in
        let DamagePct := bbDamagePct Blackboard in
        let SpeedKmh := SampleSpeedKmh SelfPawn in
        let Threat :=
          CalculateThreat S Rival LastThreatPos SpeedKmh DamagePct
                          (PawnLocation SelfPawn) in
        let MotifIntensity := MotifIntensityOf Threat in
        {| GetBlackboardComponent :=
             Some {| bbRival := Rival;
                     bbLastThreatPos := LastThreatPos;
                     bbDamagePct := DamagePct;
                     bbThreatLevel := Threat;
                     bbSpeedKmh := SpeedKmh;
                     bbMotifIntensity := MotifIntensity |};
           GetAIOwner := GetAIOwner OwnerComp |}
      end
    end
  end.
End ThreatService.

(** ** SoulvanMotifComponent *)

Module MotifComponent.
Import F32 FMath.
Local Open Scope f32_scope.

Inductive EMotif := Storm | Calm | Cosmic | Oracle.

(** [Motif == EMotif::K]. *)
Definition EMotif_eqb (a b : EMotif) : bool :=
  match a, b with
  | Storm, Storm | Calm, Calm | Cosmic, Cosmic | Oracle, Oracle => true
  | _, _ => false
  end.

(** A Niagara system as the component drives it: its activity flag and
    its named float parameters. *)
Record UNiagaraComponent := MkNiagara {
  IsActive : bool;
  FloatParameter : string -> option float
}.

(** Modelled from the spec: [UNiagaraComponent::SetActive] and
    [SetFloatParameter] are engine code, absent from src/; the
    presentation collaborator keeps the flag and the parameter it was
    last given. *)
Definition SetActive (b : bool) (C : UNiagaraComponent) : UNiagaraComponent :=
  {| IsActive := b; FloatParameter := FloatParameter C |}.

Definition SetFloatParameter (ParamName : string) (Value : float)
    (C : UNiagaraComponent) : UNiagaraComponent :=
  {| IsActive := IsActive C;
     FloatParameter := fun n =>
       if String.eqb n ParamName then Some Value else FloatParameter C n |}.

(** A sound asset, known by the identity of the object. *)
Definition USoundBase := nat.

(** The calls the audio component receives, as a call-recording stub
    would see them (most recent first). *)
Inductive AudioCall :=
| CallSetSound (NewSound : USoundBase)
| CallPlay
| CallSetPitchMultiplier (v : float)
| CallSetVolumeMultiplier (v : float).

Record UAudioComponent := MkAudio {
  Sound : option USoundBase;
  PitchMultiplier : float;
  VolumeMultiplier : float;
  Calls : list AudioCall
}.

(** Modelled from the spec: the methods of [UAudioComponent] are engine
    code, absent from src/; each one records its call and keeps what it
    was given, [SetSound] in the [Sound] member the component compares
    with. *)
Definition SetSound (NewSound : USoundBase) (A : UAudioComponent) :=
  {| Sound := Some NewSound;
     PitchMultiplier := PitchMultiplier A;
     VolumeMultiplier := VolumeMultiplier A;
     Calls := CallSetSound NewSound :: Calls A |}.

Definition Play (A : UAudioComponent) :=
  {| Sound := Sound A;
     PitchMultiplier := PitchMultiplier A;
     VolumeMultiplier := VolumeMultiplier A;
     Calls := CallPlay :: Calls A |}.

Definition SetPitchMultiplier (v : float) (A : UAudioComponent) :=
  {| Sound := Sound A;
     PitchMultiplier := v;
     VolumeMultiplier := VolumeMultiplier A;
     Calls := CallSetPitchMultiplier v :: Calls A |}.

Definition SetVolumeMultiplier (v : float) (A : UAudioComponent) :=
  {| Sound := Sound A;
     PitchMultiplier := PitchMultiplier A;
     VolumeMultiplier := v;
     Calls := CallSetVolumeMultiplier v :: Calls A |}.

(** How many times [Play] was issued. *)
Fixpoint PlayCount (l : list AudioCall) : nat :=
  match l with
  | [] => 0%nat
  | CallPlay :: l' => S (PlayCount l')
  | _ :: l' => PlayCount l'
  end.

(** The component: every pointer member is nullable. *)
Record USoulvanMotifComponent := MkMotifComponent {
  CurrentMotif : EMotif;
  CurrentIntensity : float;
  StormRain : option UNiagaraComponent;
  CalmFog : option UNiagaraComponent;
  CosmicAurora : option UNiagaraComponent;
  OracleRunes : option UNiagaraComponent;
  MusicBus : option UAudioComponent;
  StormMusic : option USoundBase;
  CalmMusic : option USoundBase;
  CosmicMusic : option USoundBase;
  OracleMusic : option USoundBase
}.

(** The constructor's state, for the assets the editor has assigned. *)
Definition Construct (rain fog aurora runes : option UNiagaraComponent)
    (bus : option UAudioComponent)
    (storm calm cosmic oracle : option USoundBase) :=
  MkMotifComponent Storm (lit 5 10) rain fog aurora runes bus
                   storm calm cosmic oracle.

Definition SetNiagaraFloatParameter (Comp : option UNiagaraComponent)
    (ParamName : string) (Value : float) : option UNiagaraComponent :=
  match Comp with
  | None => None
  | Some C => Some (SetFloatParameter ParamName Value C)
  end.

(** [if (Comp) Comp->SetActive(b)]. *)
Definition SetActiveIfPresent (Comp : option UNiagaraComponent) (b : bool) :=
  match Comp with
  | None => None
  | Some C => Some (SetActive b C)
  end.

Definition BaseRate (Intensity : float) : float :=
  Lerp (of_Z 10) (of_Z 200) Intensity.

Definition UpdateVisualFX (Motif : EMotif) (Intensity : float)
    (C : USoulvanMotifComponent) : USoulvanMotifComponent :=
  let rain := SetActiveIfPresent (StormRain C) (EMotif_eqb Motif Storm) in
  let fog := SetActiveIfPresent (CalmFog C) (EMotif_eqb Motif Calm) in
  let aurora := SetActiveIfPresent (CosmicAurora C) (EMotif_eqb Motif Cosmic) in
  let runes := SetActiveIfPresent (OracleRunes C) (EMotif_eqb Motif Oracle) in
  let BaseRate := BaseRate Intensity in
  {| CurrentMotif := CurrentMotif C;
     CurrentIntensity := CurrentIntensity C;
     StormRain := SetNiagaraFloatParameter rain "EmissionRate" BaseRate;
     CalmFog :=
       SetNiagaraFloatParameter fog "EmissionRate" (BaseRate * lit 5 10);
     CosmicAurora :=
       SetNiagaraFloatParameter aurora "EmissionRate" (BaseRate * lit 8 10);
     OracleRunes :=
       SetNiagaraFloatParameter runes "EmissionRate" (BaseRate * lit 6 10);
     MusicBus := MusicBus C;
     StormMusic := StormMusic C;
     CalmMusic := CalmMusic C;
     CosmicMusic := CosmicMusic C;
     OracleMusic := OracleMusic C |}.

(** The [switch] of [UpdateAudio]. *)
Definition TargetMusic (C : USoulvanMotifComponent) (Motif : EMotif)
    : option USoundBase :=
  match Motif with
  | Storm => StormMusic C
  | Calm => CalmMusic C
  | Cosmic => CosmicMusic C
  | Oracle => OracleMusic C
  end.

(** [TargetMusic && MusicBus->Sound != TargetMusic]: pointer identity. *)
Definition NeedsSwap (Bus : UAudioComponent) (Target : option USoundBase)
    : bool :=
  match Target with
  | None => false
  | Some T =>
    match Sound Bus with
    | Some Cur => negb (Nat.eqb Cur T)
    | None => true
    end
  end.

Definition UpdateAudioBus (Target : option USoundBase) (Intensity : float)
    (Bus : UAudioComponent) : UAudioComponent :=
  let Bus1 :=
    match Target with
    | Some T => if NeedsSwap Bus Target then Play (SetSound T Bus) else Bus
    | None => Bus
    end in
  let Bus2 :=
    SetPitchMultiplier (Lerp (lit 95 100) (lit 108 100) Intensity) Bus1 in
  SetVolumeMultiplier (Lerp (lit 6 10) one Intensity) Bus2.

Definition UpdateAudio (Motif : EMotif) (Intensity : float)
    (C : USoulvanMotifComponent) : USoulvanMotifComponent :=
  match MusicBus C with
  | None => C
  | Some Bus =>
    {| CurrentMotif := CurrentMotif C;
       CurrentIntensity := CurrentIntensity C;
       StormRain := StormRain C;
       CalmFog := CalmFog C;
       CosmicAurora := CosmicAurora C;
       OracleRunes := OracleRunes C;
       MusicBus := Some (UpdateAudioBus (TargetMusic C Motif) Intensity Bus);
       StormMusic := StormMusic C;
       CalmMusic := CalmMusic C;
       CosmicMusic := CosmicMusic C;
       OracleMusic := OracleMusic C |}
  end.

Definition SetMotif (Motif : EMotif) (Intensity01 : float)
    (C : USoulvanMotifComponent) : USoulvanMotifComponent :=
  let C1 :=
    {| CurrentMotif := Motif;
       CurrentIntensity := Clamp Intensity01 zero one;
       StormRain := StormRain C;
       CalmFog := CalmFog C;
       CosmicAurora := CosmicAurora C;
       OracleRunes := OracleRunes C;
       MusicBus := MusicBus C;
       StormMusic := StormMusic C;
       CalmMusic := CalmMusic C;
       CosmicMusic := CosmicMusic C;
       OracleMusic := OracleMusic C |} in
  let C2 := UpdateVisualFX Motif (CurrentIntensity C1) C1 in
  UpdateAudio Motif (CurrentIntensity C1) C2.

(** [BeginPlay] applies the constructor's motif and intensity. *)
Definition BeginPlay (C : USoulvanMotifComponent) :=
  SetMotif (CurrentMotif C) (CurrentIntensity C) C.
End MotifComponent.

(** The inline getters of SoulvanMotifComponent.h, and the tick, which
    only calls the parent's. *)
Module MotifAccess.
Import F32 MotifComponent.

Definition GetCurrentMotif (C : USoulvanMotifComponent) : EMotif :=
  CurrentMotif C.

Definition GetCurrentIntensity (C : USoulvanMotifComponent) : float :=
  CurrentIntensity C.

Definition TickComponent (DeltaTime : float) (C : USoulvanMotifComponent)
    : USoulvanMotifComponent := C.
End MotifAccess.

(** ** SoulvanWalletSubsystem

    The subsystem with the two engine services it uses: the timer
    manager of the world, which runs the lambdas of the simulated
    requests, and the multicast delegates.  The [UE_LOG] lines only
    write to the log and are left out. *)

Module Wallet.
Import F32.

(** An [FString] is a sequence of [TCHAR] code units. *)
Definition TCHAR := N.
Definition FString := list TCHAR.

(** [TEXT("...")]. *)
Definition TEXT (s : string) : FString :=
  map N_of_ascii (list_ascii_of_string s).

(** Modelled from the spec: [FString::ToUpper], [Left] and [Right] are
    engine code, absent from src/.  [ToUpper] maps each of the letters
    'a'..'z' to its capital and leaves every other code unit alone;
    [Left(Count)] and [Right(Count)] are the first and the last [Count]
    code units, the whole string when it is shorter. *)
Definition ToUpperChar (c : TCHAR) : TCHAR :=
  if (N.leb 97 c && N.ltb c 123)%bool then (c - 32)%N else c.

Definition ToUpper (s : FString) : FString := map ToUpperChar s.

Definition Left (Count : nat) (s : FString) : FString := firstn Count s.

Definition Right (Count : nat) (s : FString) : FString :=
  skipn (List.length s - Count) s.

(** Modelled from the spec: [FString::operator==] is engine code,
    absent from src/; it compares ignoring the case of the letters
    'A'..'Z' ([Stricmp]).  [TArray::Remove] uses it. *)
Definition ToLowerChar (c : TCHAR) : TCHAR :=
  if (N.leb 65 c && N.ltb c 91)%bool then (c + 32)%N else c.

Fixpoint Equals (a b : FString) : bool :=
  match a, b with
  | [], [] => true
  | x :: a', y :: b' =>
    N.eqb (ToLowerChar x) (ToLowerChar y) && Equals a' b'
  | _, _ => false
  end.

(** Modelled from the spec: [FString::Printf] is engine code, absent
    from src/; [%d] prints an [int32] in decimal, [%s] splices a
    string. *)
Definition Printf_d (n : Z) : FString :=
  TEXT (NilZero.string_of_int (Z.to_int n)).

(** [FString::Printf(TEXT("0x%s...%s"), A, B)]. *)
Definition Printf_address (A B : FString) : FString :=
  TEXT "0x" ++ A ++ TEXT "..." ++ B.

(** [FString::Printf(TEXT("0x%d"), N)]. *)
Definition Printf_hash (n : Z) : FString := TEXT "0x" ++ Printf_d n.

(** Modelled from the spec: [TArray] is engine code, absent from src/;
    [Add] appends, [Remove] takes out every element equal to the item,
    [Num] is the length. *)
Definition Add {A : Type} (Item : A) (Array : list A) : list A :=
  Array ++ [Item].

Definition Remove (Item : FString) (Array : list FString) : list FString :=
  filter (fun x => negb (Equals x Item)) Array.

Definition Num {A : Type} (Array : list A) : Z := Z.of_nat (List.length Array).

(** [int32] arithmetic, with the wrap-around of two's complement. *)
Definition wrap32 (z : Z) : Z := (z + 2 ^ 31) mod 2 ^ 32 - 2 ^ 31.

Inductive ENftType := CarSkin | Relic | ReplayToken | SeasonalBadge | BossTrophy.

Inductive EProposalState :=
| Pending | Active | Canceled | Defeated | Succeeded | Queued | Expired
| Executed.

Record FBalanceState := MkBalances {
  SoulvanCoin : float;
  Eth : float;
  NftCount : Z;
  BadgeCount : Z;
  VotingPower : Z
}.

(** [FBalanceState()]: the in-class initialisers. *)
Definition DefaultBalances : FBalanceState := MkBalances zero zero 0 0 0.

Record FNftData := MkNft {
  TokenId : FString;
  Name : FString;
  Description : FString;
  ImageUri : FString;
  Rarity : FString;
  SeasonChapter : Z;
  NftType : ENftType
}.

Record FProposalData := MkProposal {
  Id : FString;
  ProposalDescription : FString;
  ForVotes : Z;
  AgainstVotes : Z;
  AbstainVotes : Z;
  State : EProposalState;
  Deadline : Z
}.

(** The members of [USoulvanWalletSubsystem]. *)
Record USoulvanWalletSubsystem := MkWallet {
  RpcUrl : FString;
  ChainId : Z;
  WalletAddress : FString;
  bIsUnlocked : bool;
  CachedBalances : FBalanceState;
  CachedNfts : list FNftData;
  CachedProposals : list FProposalData;
  SoulvanCoinAddress : FString;
  CarSkinAddress : FString;
  ChronicleAddress : FString;
  GovernanceAddress : FString;
  PendingRewards : list FString
}.

(** The subsystem as the in-class initialisers leave it. *)
Definition NewWallet : USoulvanWalletSubsystem :=
  {| RpcUrl := TEXT "http://localhost:8545";
     ChainId := 31337;
     WalletAddress := [];
     bIsUnlocked := false;
     CachedBalances := DefaultBalances;
     CachedNfts := [];
     CachedProposals := [];
     SoulvanCoinAddress := [];
     CarSkinAddress := [];
     ChronicleAddress := [];
     GovernanceAddress := [];
     PendingRewards := [] |}.

(** The five multicast delegates, as a listener hears them. *)
Inductive Delegate :=
| OnWalletUnlocked (Address : FString)
| OnWalletLocked
| OnTransactionComplete (TxHash : FString) (Success : bool)
| OnNftMinted (TokenId MetadataUri : FString)
| OnVoteCast (ProposalId : FString) (Choice : Z).

(** The lambdas handed to [SetTimer], with what they capture. *)
Inductive Lambda :=
| UnlockLambda (Passphrase : FString)
| SendLambda (ToAddress : FString) (Amount : float)
| BalancesLambda
| MintLambda (MetadataUri : FString)
| NftsLambda
| VoteLambda (ProposalId : FString) (Choice : Z)
| ProposalsLambda.

Record FTimerData := MkTimer { Callback : Lambda; InRate : float }.

(** The subsystem in its game: the subsystem's members, the timers
    pending in the world's timer manager (in the order they were set),
    and what the delegates have broadcast (most recent first). *)
Record Game := MkGame {
  Subsystem : USoulvanWalletSubsystem;
  Timers : list FTimerData;
  Heard : list Delegate
}.

Definition NewGame : Game := MkGame NewWallet [] [].

(** Modelled from the spec: [FTimerManager::SetTimer] is engine code,
    absent from src/; called with a fresh handle and [InbLoop = false]
    it adds a timer that fires once. *)
Definition SetTimer (L : Lambda) (InRate : float) (G : Game) : Game :=
  {| Subsystem := Subsystem G;
     Timers := Timers G ++ [MkTimer L InRate];
     Heard := Heard G |}.

(** Modelled from the spec: the [Broadcast] of a multicast delegate is
    engine code, absent from src/; the listeners hear the event with
    its arguments. *)
Definition Broadcast (D : Delegate) (G : Game) : Game :=
  {| Subsystem := Subsystem G; Timers := Timers G; Heard := D :: Heard G |}.

Definition Update (f : USoulvanWalletSubsystem -> USoulvanWalletSubsystem)
    (G : Game) : Game :=
  {| Subsystem := f (Subsystem G); Timers := Timers G; Heard := Heard G |}.

(** Assignments to the members the code writes. *)
Definition SetUnlocked (Address : FString) (b : bool)
    (W : USoulvanWalletSubsystem) : USoulvanWalletSubsystem :=
  {| RpcUrl := RpcUrl W; ChainId := ChainId W;
     WalletAddress := Address; bIsUnlocked := b;
     CachedBalances := CachedBalances W; CachedNfts := CachedNfts W;
     CachedProposals := CachedProposals W;
     SoulvanCoinAddress := SoulvanCoinAddress W;
     CarSkinAddress := CarSkinAddress W;
     ChronicleAddress := ChronicleAddress W;
     GovernanceAddress := GovernanceAddress W;
     PendingRewards := PendingRewards W |}.

Definition SetCachedBalances (B : FBalanceState)
    (W : USoulvanWalletSubsystem) : USoulvanWalletSubsystem :=
  {| RpcUrl := RpcUrl W; ChainId := ChainId W;
     WalletAddress := WalletAddress W; bIsUnlocked := bIsUnlocked W;
     CachedBalances := B; CachedNfts := CachedNfts W;
     CachedProposals := CachedProposals W;
     SoulvanCoinAddress := SoulvanCoinAddress W;
     CarSkinAddress := CarSkinAddress W;
     ChronicleAddress := ChronicleAddress W;
     GovernanceAddress := GovernanceAddress W;
     PendingRewards := PendingRewards W |}.

Definition SetCachedNfts (Nfts : list FNftData)
    (W : USoulvanWalletSubsystem) : USoulvanWalletSubsystem :=
  {| RpcUrl := RpcUrl W; ChainId := ChainId W;
     WalletAddress := WalletAddress W; bIsUnlocked := bIsUnlocked W;
     CachedBalances := CachedBalances W; CachedNfts := Nfts;
     CachedProposals := CachedProposals W;
     SoulvanCoinAddress := SoulvanCoinAddress W;
     CarSkinAddress := CarSkinAddress W;
     ChronicleAddress := ChronicleAddress W;
     GovernanceAddress := GovernanceAddress W;
     PendingRewards := PendingRewards W |}.

Definition SetCachedProposals (Proposals : list FProposalData)
    (W : USoulvanWalletSubsystem) : USoulvanWalletSubsystem :=
  {| RpcUrl := RpcUrl W; ChainId := ChainId W;
     WalletAddress := WalletAddress W; bIsUnlocked := bIsUnlocked W;
     CachedBalances := CachedBalances W; CachedNfts := CachedNfts W;
     CachedProposals := Proposals;
     SoulvanCoinAddress := SoulvanCoinAddress W;
     CarSkinAddress := CarSkinAddress W;
     ChronicleAddress := ChronicleAddress W;
     GovernanceAddress := GovernanceAddress W;
     PendingRewards := PendingRewards W |}.

Definition SetPendingRewards (Rewards : list FString)
    (W : USoulvanWalletSubsystem) : USoulvanWalletSubsystem :=
  {| RpcUrl := RpcUrl W; ChainId := ChainId W;
     WalletAddress := WalletAddress W; bIsUnlocked := bIsUnlocked W;
     CachedBalances := CachedBalances W; CachedNfts := CachedNfts W;
     CachedProposals := CachedProposals W;
     SoulvanCoinAddress := SoulvanCoinAddress W;
     CarSkinAddress := CarSkinAddress W;
     ChronicleAddress := ChronicleAddress W;
     GovernanceAddress := GovernanceAddress W;
     PendingRewards := Rewards |}.

(** The inline getters of the header. *)
Definition GetWalletAddress (G : Game) : FString :=
  WalletAddress (Subsystem G).
Definition IsWalletUnlocked (G : Game) : bool := bIsUnlocked (Subsystem G).
Definition GetCachedBalances (G : Game) : FBalanceState :=
  CachedBalances (Subsystem G).
Definition GetCachedNfts (G : Game) : list FNftData :=
  CachedNfts (Subsystem G).
Definition GetCachedProposals (G : Game) : list FProposalData :=
  CachedProposals (Subsystem G).

(** *** The operations *)

Definition UnlockWallet (Passphrase : FString) (G : Game) : Game :=
  SetTimer (UnlockLambda Passphrase) (lit 5 10) G.

Definition LockWallet (G : Game) : Game :=
  let G1 := Update (SetUnlocked [] false) G in
  let G2 := Update (SetCachedBalances DefaultBalances) G1 in
  let G3 := Update (SetCachedNfts []) G2 in
  let G4 := Update (SetCachedProposals []) G3 in
  Broadcast OnWalletLocked G4.

Definition SendTokens (ToAddress : FString) (Amount MaxFee : float)
    (G : Game) : Game :=
  if negb (IsWalletUnlocked G) then G
  else SetTimer (SendLambda ToAddress Amount) (of_Z 1) G.

Definition GetBalances (G : Game) : Game :=
  if negb (IsWalletUnlocked G) then G
  else SetTimer BalancesLambda (lit 5 10) G.

Definition MintNft (MetadataUri : FString) (G : Game) : Game :=
  if negb (IsWalletUnlocked G) then G
  else
    let G1 :=
      Update (fun W => SetPendingRewards (Add MetadataUri (PendingRewards W)) W)
             G in
    SetTimer (MintLambda MetadataUri) (of_Z 2) G1.

Definition TransferNft (TokenId ToAddress : FString) (G : Game) : Game :=
  if negb (IsWalletUnlocked G) then G else G.

Definition GetNfts (G : Game) : Game :=
  if negb (IsWalletUnlocked G) then G
  else SetTimer NftsLambda (lit 5 10) G.

Definition VoteOnProposal (ProposalId : FString) (Choice : Z) (G : Game)
    : Game :=
  if negb (IsWalletUnlocked G) then G
  else SetTimer (VoteLambda ProposalId Choice) (lit 15 10) G.

Definition SubmitProposal (Description : FString) (Calldata : list N)
    (G : Game) : Game :=
  if negb (IsWalletUnlocked G) then G else G.

Definition GetProposals (G : Game) : Game :=
  if negb (IsWalletUnlocked G) then G
  else SetTimer ProposalsLambda (lit 5 10) G.

Definition GetChronicleEntries (G : Game) : Game :=
  if negb (IsWalletUnlocked G) then G else G.

Definition ExportSeed (OutputPath : FString) (G : Game) : bool :=
  if negb (IsWalletUnlocked G) then false else true.

Definition ChangePassphrase (OldPassphrase NewPassphrase : FString)
    (G : Game) : bool :=
  if negb (IsWalletUnlocked G) then false else true.

Definition Initialize (G : Game) : Game := G.

Definition Deinitialize (G : Game) : Game :=
  if IsWalletUnlocked G then LockWallet G else G.

(** *** The response handlers *)

Definition ProcessUnlockResponse (bSuccess : bool) (Address : FString)
    (G : Game) : Game :=
  if bSuccess
  then GetProposals (GetNfts (GetBalances
                                (Broadcast (OnWalletUnlocked Address) G)))
  else G.

Definition ProcessBalancesResponse (Balances : FBalanceState) (G : Game)
    : Game :=
  Update (SetCachedBalances Balances) G.

Definition ProcessNftsResponse (Nfts : list FNftData) (G : Game) : Game :=
  Update (SetCachedNfts Nfts) G.

Definition ProcessProposalsResponse (Proposals : list FProposalData)
    (G : Game) : Game :=
  Update (SetCachedProposals Proposals) G.

Definition ProcessMintResponse (bSuccess : bool) (TokenId TxHash : FString)
    (G : Game) : Game :=
  if bSuccess then GetNfts (Broadcast (OnNftMinted TokenId TxHash) G) else G.

Definition ProcessVoteResponse (bSuccess : bool)
    (ProposalId TxHash : FString) (G : Game) : Game :=
  if bSuccess then GetProposals (Broadcast (OnVoteCast ProposalId 0) G)
  else G.

(** *** The timer lambdas *)

(** The balances, the NFT and the proposal of the stubbed queries. *)
Definition StubBalances : FBalanceState :=
  MkBalances (of_Z 1000) (lit 5 10) 5 2 100.

Definition ExampleNft : FNftData :=
  {| TokenId := TEXT "1";
     Name := TEXT "Bugatti Bolide Skin";
     Description := TEXT "Storm Surge hypercar skin";
     ImageUri := TEXT "https://soulvan.io/nft/cars/bugatti-bolide.png";
     Rarity := TEXT "Legendary";
     SeasonChapter := 1;
     NftType := CarSkin |}.

Definition ExampleProposal : FProposalData :=
  {| Id := TEXT "1";
     ProposalDescription := TEXT "Transition to Cosmic Season";
     ForVotes := 150;
     AgainstVotes := 30;
     AbstainVotes := 20;
     State := Active;
     Deadline := 1700000000 |}.

(** [CachedBalances.SoulvanCoin -= Amount]. *)
Definition Debit (Amount : float) (W : USoulvanWalletSubsystem)
    : USoulvanWalletSubsystem :=
  let B := CachedBalances W in
  SetCachedBalances
    (MkBalances (sub (SoulvanCoin B) Amount) (Eth B) (NftCount B)
                (BadgeCount B) (VotingPower B)) W.

(** [CachedBalances.NftCount++]. *)
Definition CountNft (W : USoulvanWalletSubsystem) : USoulvanWalletSubsystem :=
  let B := CachedBalances W in
  SetCachedBalances
    (MkBalances (SoulvanCoin B) (Eth B) (wrap32 (NftCount B + 1))
                (BadgeCount B) (VotingPower B)) W.

(** The body of each lambda.  Modelled from the spec: [FMath::Rand] is
    engine code, absent from src/; [Rand] is the number it returns to
    the bodies that call it. *)
Definition Invoke (L : Lambda) (Rand : Z) (G : Game) : Game :=
  match L with
  | UnlockLambda Passphrase =>
    let Address :=
      Printf_address (ToUpper (Left 4 Passphrase))
                     (ToUpper (Right 4 Passphrase)) in
    let G1 := Update (SetUnlocked Address true) G in
    ProcessUnlockResponse true (GetWalletAddress G1) G1
  | SendLambda ToAddress Amount =>
    let TxHash := Printf_hash Rand in
    let G1 := Broadcast (OnTransactionComplete TxHash true) G in
    Update (Debit Amount) G1
  | BalancesLambda => ProcessBalancesResponse StubBalances G
  | MintLambda MetadataUri =>
    let TokenId := Printf_d (Num (GetCachedNfts G) + 1) in
    let TxHash := Printf_hash Rand in
    let G1 := ProcessMintResponse true TokenId TxHash G in
    let G2 :=
      Update (fun W =>
                SetPendingRewards (Remove MetadataUri (PendingRewards W)) W)
             G1 in
    Update CountNft G2
  | NftsLambda => ProcessNftsResponse (Add ExampleNft []) G
  | VoteLambda ProposalId Choice =>
    let TxHash := Printf_hash Rand in
    ProcessVoteResponse true ProposalId TxHash G
  | ProposalsLambda => ProcessProposalsResponse (Add ExampleProposal []) G
  end.

(** The [i]-th pending timer fires: it leaves the timer manager and its
    lambda runs.  Which of the pending timers fires next is the timer
    manager's choice. *)
Definition Fire (i : nat) (Rand : Z) (G : Game) : Game :=
  match nth_error (Timers G) i with
  | None => G
  | Some T =>
    Invoke (Callback T) Rand
      {| Subsystem := Subsystem G;
         Timers := firstn i (Timers G) ++ skipn (S i) (Timers G);
         Heard := Heard G |}
  end.

(** What can happen to the subsystem: a call of one of its public
    operations, or a pending timer firing. *)
Inductive Event :=
| CallUnlockWallet (Passphrase : FString)
| CallLockWallet
| CallSendTokens (ToAddress : FString) (Amount MaxFee : float)
| CallGetBalances
| CallMintNft (MetadataUri : FString)
| CallTransferNft (TokenId ToAddress : FString)
| CallGetNfts
| CallVoteOnProposal (ProposalId : FString) (Choice : Z)
| CallSubmitProposal (Description : FString) (Calldata : list N)
| CallGetProposals
| CallGetChronicleEntries
| CallDeinitialize
| TimerFires (i : nat) (Rand : Z).

Definition Perform (E : Event) (G : Game) : Game :=
  match E with
  | CallUnlockWallet Passphrase => UnlockWallet Passphrase G
  | CallLockWallet => LockWallet G
  | CallSendTokens ToAddress Amount MaxFee =>
    SendTokens ToAddress Amount MaxFee G
  | CallGetBalances => GetBalances G
  | CallMintNft MetadataUri => MintNft MetadataUri G
  | CallTransferNft TokenId ToAddress => TransferNft TokenId ToAddress G
  | CallGetNfts => GetNfts G
  | CallVoteOnProposal ProposalId Choice => VoteOnProposal ProposalId Choice G
  | CallSubmitProposal Description Calldata =>
    SubmitProposal Description Calldata G
  | CallGetProposals => GetProposals G
  | CallGetChronicleEntries => GetChronicleEntries G
  | CallDeinitialize => Deinitialize G
  | TimerFires i Rand => Fire i Rand G
  end.

(** A history, oldest event first. *)
Definition Run (l : list Event) (G : Game) : Game :=
  fold_left (fun G E => Perform E G) l G.

End Wallet.

(** * Vocabulary of the statements *)

Module Spec.
Import F32 FMath.
Local Open Scope f32_scope.

(** A number: a zero or a finite value (no infinity, no NaN). *)
Definition is_finite (x : float) : bool :=
  match x with
  | S754_zero _ | S754_finite _ _ _ => true
  | _ => false
  end.

(** [x] is exactly the rational [num/den] ([den > 0]). *)
Definition is_ratio (x : float) (num den : Z) : bool :=
  match x with
  | S754_zero _ => Z.eqb num 0
  | S754_finite s m e =>
    let sm := if s then Z.neg m else Z.pos m in
    if Z.leb 0 e then Z.eqb (sm * 2 ^ e * den)%Z num
    else Z.eqb (sm * den)%Z (num * 2 ^ (- e))%Z
  | _ => false
  end.

(** [x] lies in the closed interval [[lo, hi]]. *)
Definition between (lo hi x : float) : Prop :=
  (lo <=? x) = true /\ (x <=? hi) = true.
End Spec.

Module MotifSpec.
Import F32 FMath MotifComponent.
Local Open Scope f32_scope.

(** The states the component can be in: the constructor's, and those
    [SetMotif] leads to. *)
Inductive Reachable : USoulvanMotifComponent -> Prop :=
| Reachable_Construct rain fog aurora runes bus storm calm cosmic oracle :
    Reachable (Construct rain fog aurora runes bus storm calm cosmic oracle)
| Reachable_SetMotif C Motif Intensity01 :
    Reachable C -> Reachable (SetMotif Motif Intensity01 C).

(** What a call does to one overlay system: a missing system stays
    missing, a present one gets the flag and the emission rate. *)
Definition Drives (before after : option UNiagaraComponent)
    (active : bool) (rate : float) : Prop :=
  match before, after with
  | Some _, Some N =>
    IsActive N = active /\ FloatParameter N "EmissionRate" = Some rate
  | None, None => True
  | _, _ => False
  end.

Definition AllKinds : list EMotif := [Storm; Calm; Cosmic; Oracle].

Definition Overlay (K : EMotif) (C : USoulvanMotifComponent) :=
  match K with
  | Storm => StormRain C
  | Calm => CalmFog C
  | Cosmic => CosmicAurora C
  | Oracle => OracleRunes C
  end.

(** The kinds whose overlay system is present and active. *)
Definition ActiveKinds (C : USoulvanMotifComponent) : list EMotif :=
  filter (fun K => match Overlay K C with
                   | Some N => IsActive N
                   | None => false
                   end) AllKinds.

(** The calls one [UpdateAudio] adds in front of the bus's record. *)
Definition AudioCallsOf (Bus : UAudioComponent)
    (Target : option USoundBase) (Intensity : float) : list AudioCall :=
  [CallSetVolumeMultiplier (Lerp (lit 6 10) one Intensity);
   CallSetPitchMultiplier (Lerp (lit 95 100) (lit 108 100) Intensity)]
  ++ match Target with
     | Some T => if NeedsSwap Bus Target then [CallPlay; CallSetSound T]
                 else []
     | None => []
     end.
End MotifSpec.

(** The levels the component sets, and runs of calls. *)
Module PresentationSpec.
Import F32 FMath MotifComponent.
Local Open Scope f32_scope.

(** A run of [SetMotif] calls with the same motif, one per intensity. *)
Fixpoint SetMotifAll (Motif : EMotif) (l : list float)
    (C : USoulvanMotifComponent) : USoulvanMotifComponent :=
  match l with
  | [] => C
  | Intensity01 :: l' => SetMotifAll Motif l' (SetMotif Motif Intensity01 C)
  end.

(** The emission rate [UpdateVisualFX] gives each overlay. *)
Definition EmissionRate (K : EMotif) (Intensity : float) : float :=
  match K with
  | Storm => BaseRate Intensity
  | Calm => BaseRate Intensity * lit 5 10
  | Cosmic => BaseRate Intensity * lit 8 10
  | Oracle => BaseRate Intensity * lit 6 10
  end.

Definition Pitch (Intensity : float) : float :=
  Lerp (lit 95 100) (lit 108 100) Intensity.

Definition Volume (Intensity : float) : float :=
  Lerp (lit 6 10) one Intensity.

(** Two states of an overlay system, or of the music bus, that look
    and sound the same. *)
Definition SameOverlay (A B : option UNiagaraComponent) : Prop :=
  match A, B with
  | Some N1, Some N2 =>
    IsActive N2 = IsActive N1
    /\ forall n, FloatParameter N2 n = FloatParameter N1 n
  | None, None => True
  | _, _ => False
  end.

Definition SameBus (A B : option UAudioComponent) : Prop :=
  match A, B with
  | Some B1, Some B2 =>
    Sound B2 = Sound B1
    /\ PitchMultiplier B2 = PitchMultiplier B1
    /\ VolumeMultiplier B2 = VolumeMultiplier B1
    /\ PlayCount (Calls B2) = PlayCount (Calls B1)
  | None, None => True
  | _, _ => False
  end.
End PresentationSpec.

(** ** Rounding to binary32

    The vocabulary in which the rounding of [SpecFloat] is specified:
    integer fractions, values in units of the smallest binary32
    number. *)

Module RoundingDefs.

(** [r] is what is left of the fraction [N / D] after the bits below
    the unit were shifted out: the integer part, the round bit (the
    fraction is at least a half) and the sticky bit (something remains
    beyond what the round bit says). *)
Definition Repr (N D : Z) (r : shr_record) : Prop :=
  0 <= N /\ 0 < D
  /\ shr_m r = N / D
  /\ shr_r r = (D <=? 2 * (N mod D))
  /\ shr_s r = negb (2 * (N mod D) =? (if shr_r r then D else 0)).

(** The integer nearest to [N / D], ties to even. *)
Definition rne_frac (N D : Z) : Z :=
  let q := N / D in
  let r := N mod D in
  if 2 * r <? D then q
  else if D <? 2 * r then q + 1
  else if Z.even q then q else q + 1.

(** The second half of [binary_round_aux]: the rounded mantissa [M] at
    exponent [E] is renormalised (one more shift when the rounding
    carried into a new digit) and checked for overflow. *)
Definition finish (prec emax : Z) (sx : bool) (M E : Z) : spec_float :=
  let '(mrs, e) := shr_fexp prec emax M E loc_Exact in
  match shr_m mrs with
  | Z0 => S754_zero sx
  | Zpos m => if e <=? emax - prec then S754_finite sx m e
              else S754_infinity sx
  | Zneg _ => S754_nan
  end.

(** The non-negative binary32 numbers: the zeros, [+oo], and the
    positive finite floats with canonical mantissa and exponent. *)
Definition nonneg_valid (x : spec_float) : bool :=
  match x with
  | S754_zero _ => true
  | S754_infinity s => negb s
  | S754_nan => false
  | S754_finite s m e => negb s && bounded 24 128 m e
  end.

(** The value of a non-negative float in units of [2^-149], the
    smallest positive binary32 number; [+oo] counts as [2^277], above
    every finite float. *)
Definition ordv (x : spec_float) : Z :=
  match x with
  | S754_zero _ => 0
  | S754_infinity _ => 2 ^ 277
  | S754_nan => 0
  | S754_finite _ m e => Z.pos m * 2 ^ (e + 149)
  end.

(** The binary32 rounding of the fraction [A / B] (in units of
    [2^-149]): the exponent [E] of the last place is read off the
    integer part, the mantissa is the integer nearest to
    [A / (B * 2^E)], and values from [2^277] on overflow. *)
Definition round_val (A B : Z) : Z :=
  let E := Z.max 0 (Zdigits2 (A / B) - 24) in
  Z.min (rne_frac A (B * 2 ^ E) * 2 ^ E) (2 ^ 277).

(** The exponent of the last place, in units of [2^-149]. *)
Definition ulp_exp (A B : Z) : Z := Z.max 0 (Zdigits2 (A / B) - 24).

(** The fraction an integer mantissa at an exponent stands for. *)
Definition frac_num (m e : Z) : Z := m * 2 ^ Z.max 0 (e + 149).
Definition frac_den (e : Z) : Z := 2 ^ Z.max 0 (- (e + 149)).

End RoundingDefs.

(** ** Signs and order of the terms of the weighted sum *)

Module OrderDefs.
Import F32.

(** A strictly negative float. *)
Definition negative (x : float) : bool :=
  match x with
  | S754_infinity s | S754_finite s _ _ => s
  | _ => false
  end.

(** A finite, strictly positive binary32 number. *)
Definition positive_finite (x : float) : bool :=
  match x with
  | S754_finite s m e => negb s && bounded 24 128 m e
  | _ => false
  end.

(** [x] with the sign bit [s]. *)
Definition with_sign (s : bool) (x : float) : float :=
  match x with
  | S754_zero _ => S754_zero s
  | S754_infinity _ => S754_infinity s
  | S754_nan => S754_nan
  | S754_finite _ m e => S754_finite s m e
  end.

(** The order in which the terms of the weighted sum are compared: two
    equal floats, or two non-negative binary32 numbers in the order of
    their values. *)
Definition Le (x y : float) : Prop :=
  x = y
  \/ (RoundingDefs.nonneg_valid x = true
      /\ RoundingDefs.nonneg_valid y = true
      /\ RoundingDefs.ordv x <= RoundingDefs.ordv y).

(** A term of the weighted sum: NaN or a non-negative binary32 number. *)
Definition nn_or_nan (x : float) : Prop :=
  x = S754_nan \/ RoundingDefs.nonneg_valid x = true.

(** A weight or a risk: a finite non-negative binary32 number. *)
Definition nonneg_finite (x : float) : bool :=
  RoundingDefs.nonneg_valid x && Spec.is_finite x.

(** The weight configurations for which the threat level is monotone:
    four finite non-negative weights and a finite positive
    [MaxSpeedKmh]. *)
Definition well_configured (S : ThreatService.UBTService_ThreatUpdate)
    : bool :=
  nonneg_finite (ThreatService.RivalWeight S)
  && nonneg_finite (ThreatService.PoliceWeight S)
  && nonneg_finite (ThreatService.SpeedWeight S)
  && nonneg_finite (ThreatService.DamageWeight S)
  && positive_finite (ThreatService.MaxSpeedKmh S).
End OrderDefs.

(** ** The terms of the weighted sum, and signs *)

Module RiskDefs.
Import F32.

(** A risk term: a finite non-negative binary32 number, at most 1. *)
Definition unit_risk (r : float) : Prop :=
  OrderDefs.nonneg_finite r = true /\ RoundingDefs.ordv r <= 2 ^ 149.

(** The float just below 1. *)
Definition BelowOne : float := S754_finite false 16777215 (-24).
End RiskDefs.

Module SignDefs.
(** A float whose sign bit is clear, or NaN. *)
Definition unsigned (x : spec_float) : bool :=
  match x with
  | S754_nan => true
  | S754_zero s | S754_infinity s | S754_finite s _ _ => negb s
  end.
End SignDefs.

(** ** The wallet: guarded operations, addresses, reachable states *)

Module WalletSpec.
Import F32 Wallet.

(** The operations that begin with the [bIsUnlocked] guard. *)
Definition NeedsUnlock (E : Event) : bool :=
  match E with
  | CallSendTokens _ _ _ | CallGetBalances | CallMintNft _
  | CallTransferNft _ _ | CallGetNfts | CallVoteOnProposal _ _
  | CallSubmitProposal _ _ | CallGetProposals | CallGetChronicleEntries =>
    true
  | _ => false
  end.

Definition IsUnlockCall (E : Event) : bool :=
  match E with
  | CallUnlockWallet _ => true
  | _ => false
  end.

(** The address the unlock lambda derives from a passphrase. *)
Definition AddressOf (Passphrase : FString) : FString :=
  Printf_address (ToUpper (Left 4 Passphrase))
                 (ToUpper (Right 4 Passphrase)).

(** The lambdas of the pending timers. *)
Definition PendingLambdas (G : Game) : list Lambda := map Callback (Timers G).

(** The states the game can be in. *)
Inductive ReachableGame : Game -> Prop :=
| ReachableGame_New : ReachableGame NewGame
| ReachableGame_Perform (E : Event) (G : Game) :
    ReachableGame G -> ReachableGame (Perform E G).

End WalletSpec.

(** ** The wallet: what the listeners hear *)

Module ListenerSpec.
Import F32 Wallet WalletSpec.

(** What the code can make a listener hear. *)
Definition Expected (D : Delegate) : Prop :=
  match D with
  | OnWalletUnlocked Address => exists P, Address = AddressOf P
  | OnWalletLocked => True
  | OnTransactionComplete TxHash Success =>
    Success = true /\ exists Rand, TxHash = Printf_hash Rand
  | OnNftMinted TokenId Hash =>
    (TokenId = TEXT "1" \/ TokenId = TEXT "2")
    /\ exists Rand, Hash = Printf_hash Rand
  | OnVoteCast _ Choice => Choice = 0
  end.

(** The caches hold nothing or the answer of the stubbed query. *)
Definition StubCaches (G : Game) : Prop :=
  (GetCachedNfts G = [] \/ GetCachedNfts G = [ExampleNft])
  /\ (GetCachedProposals G = [] \/ GetCachedProposals G = [ExampleProposal]).
End ListenerSpec.

(** The scenario of the worked example. *)
Module Example.
Import F32 ThreatService.

Definition SelfPos : FVector := Vector.of_Z3 0 0 0.
Definition Rival : AActor := MkActor (Vector.of_Z3 10 0 0).
Definition NoPursuer : FVector := Vector.ZeroVector.
Definition SpeedKmh : float := of_Z 110.
Definition Damage : float := lit 2 10.

Definition Threat : float :=
  CalculateThreat DefaultService (Some Rival) NoPursuer SpeedKmh Damage
                  SelfPos.

(** A pursuer last seen half a unit from the pawn. *)
Definition NearPursuer : FVector :=
  MkVector (F64.lit 1 2) F64.zero F64.zero.

(** A tick of a pawn that is not a wheeled vehicle, moving at 30 m/s. *)
Definition TickPawn : APawn :=
  MkPawn SelfPos (Vector.of_Z3 3000 0 0) None.

Definition TickBlackboard : UBlackboardComponent :=
  MkBlackboard (Some Rival) NoPursuer Damage zero zero (lit 9 10).

Definition TickTree : UBehaviorTreeComponent :=
  MkTree (Some TickBlackboard) (Some (MkController (Some TickPawn))).

(** A rival one unit from the pawn. *)
Definition NearRival : AActor := MkActor (Vector.of_Z3 1 0 0).

(** A configuration whose rival weight is negative: -0.5, 0, 1, 0, and
    220 km/h. *)
Definition NegativeRivalService : UBTService_ThreatUpdate :=
  MkService (opp (lit 5 10)) zero one zero (of_Z 220).

(** The default configuration with the rival weight set to +infinity,
    a value the editor accepts for the float property. *)
Definition InfiniteRivalService : UBTService_ThreatUpdate :=
  MkService (S754_infinity false) (lit 35 100) (lit 15 100) (lit 5 100)
    (of_Z 220).

(** A pawn a quarter of a unit from the world origin, and a pursuer
    position one unit from the origin. *)
Definition SelfNearOrigin : FVector :=
  MkVector (F64.lit 1 4) F64.zero F64.zero.

Definition FarPursuer : FVector := Vector.of_Z3 1 0 0.

(** A freshly constructed motif component with every asset assigned:
    four idle overlay systems, a silent music bus, four tracks. *)
Definition IdleNiagara : MotifComponent.UNiagaraComponent :=
  MotifComponent.MkNiagara false (fun _ => None).

Definition SilentBus : MotifComponent.UAudioComponent :=
  MotifComponent.MkAudio None one one [].

Definition Component : MotifComponent.USoulvanMotifComponent :=
  MotifComponent.Construct
    (Some IdleNiagara) (Some IdleNiagara) (Some IdleNiagara)
    (Some IdleNiagara) (Some SilentBus)
    (Some 1%nat) (Some 2%nat) (Some 3%nat) (Some 4%nat).
End Example.

(** * Properties *)

(** ** Comparisons and clamping *)

Section Comparisons.
Import F32 FMath.
Local Open Scope f32_scope.

Lemma ltb_leb (x y : float) : (x <? y) = true -> (x <=? y) = true.
Proof.
  unfold ltb, leb, SFltb, SFleb.
  destruct (SFcompare x y) as [[ | | ]|]; congruence.
Qed.

Lemma compare_Eq_finite (d : float) (m2 : positive) (e2 : Z) :
  SFcompare d (S754_finite false m2 e2) = Some Eq ->
  d = S754_finite false m2 e2.
Proof.
  destruct d as [s | s | | s m e]; simpl; try discriminate.
  - destruct s; discriminate.
  - destruct s; try discriminate.
    destruct (Z.compare_spec e e2) as [He | He | He]; try discriminate.
    intros H. injection H as H. apply Pos.compare_eq in H.
    subst. reflexivity.
Qed.

(** The result of a clamp to [0,1] is 0, 1, or the argument itself when
    it lies strictly between them; NaN goes to 1. *)
Lemma Clamp01_cases (x : float) :
  Clamp x zero one = zero
  \/ Clamp x zero one = one
  \/ (Clamp x zero one = x /\ (zero <? x) = true /\ (x <? one) = true).
Proof.
  unfold Clamp, Max, Min.
  destruct (x <? one) eqn:Hx1.
  - destruct (zero <? x) eqn:H0x; auto.
  - right; left. reflexivity.
Qed.

Lemma Clamp01_range (x : float) :
  (zero <=? Clamp x zero one) = true /\ (Clamp x zero one <=? one) = true.
Proof.
  destruct (Clamp01_cases x) as [-> | [-> | (-> & H0 & H1)]].
  - split; reflexivity.
  - split; reflexivity.
  - split; apply ltb_leb; assumption.
Qed.
End Comparisons.

(** ** The threat service *)

Module ThreatFacts.
Import F32 FMath ThreatService.
Local Open Scope f32_scope.

Lemma CalculateThreat_range S Rival PolicePos Speed Damage SelfPos :
  (zero <=? CalculateThreat S Rival PolicePos Speed Damage SelfPos) = true
  /\ (CalculateThreat S Rival PolicePos Speed Damage SelfPos <=? one) = true.
Proof. unfold CalculateThreat. apply Clamp01_range. Qed.

(** What a tick that passes the three null checks writes. *)
Lemma TickNode_writes S Comp BB Ctl Pawn :
  GetBlackboardComponent Comp = Some BB ->
  GetAIOwner Comp = Some Ctl ->
  GetPawn Ctl = Some Pawn ->
  let Threat :=
    CalculateThreat S (bbRival BB) (bbLastThreatPos BB)
                    (SampleSpeedKmh Pawn) (bbDamagePct BB)
                    (PawnLocation Pawn) in
  GetBlackboardComponent (TickNode S Comp)
  = Some {| bbRival := bbRival BB;
            bbLastThreatPos := bbLastThreatPos BB;
            bbDamagePct := bbDamagePct BB;
            bbThreatLevel := Threat;
            bbSpeedKmh := SampleSpeedKmh Pawn;
            bbMotifIntensity := MotifIntensityOf Threat |}.
Proof.
  intros HB HC HP. unfold TickNode. rewrite HB, HC, HP. reflexivity.
Qed.
End ThreatFacts.

(** ** The binary32 arithmetic

    What [SFadd], [SFmul], [SFdiv] and [binary_round] compute on
    non-negative binary32 numbers: the correctly rounded result, a
    monotone function of the exact one. *)

Module Rounding.
Import Spec RoundingDefs.

(** Case analysis on every integer test of the goal. *)
Ltac bool_cases :=
  repeat match goal with
         | |- context [Z.eqb ?a ?b] => destruct (Z.eqb_spec a b)
         | |- context [Z.leb ?a ?b] => destruct (Z.leb_spec a b)
         | |- context [Z.ltb ?a ?b] => destruct (Z.ltb_spec a b)
         end;
  cbn [orb andb negb]; try reflexivity; try lia.

Lemma digits2_pos_bounds (m : positive) :
  2 ^ (Z.pos (digits2_pos m) - 1) <= Z.pos m < 2 ^ Z.pos (digits2_pos m).
Proof.
  induction m as [p IH | p IH | ]; cbn [digits2_pos].
  - rewrite Pos2Z.inj_succ.
    replace (Z.succ (Z.pos (digits2_pos p)) - 1) with (Z.pos (digits2_pos p)) by lia.
    rewrite Z.pow_succ_r by lia.
    assert (E : 2 ^ Z.pos (digits2_pos p) = 2 * 2 ^ (Z.pos (digits2_pos p) - 1)).
    { rewrite <- Z.pow_succ_r by lia. f_equal. lia. }
    lia.
  - rewrite Pos2Z.inj_succ.
    replace (Z.succ (Z.pos (digits2_pos p)) - 1) with (Z.pos (digits2_pos p)) by lia.
    rewrite Z.pow_succ_r by lia.
    assert (E : 2 ^ Z.pos (digits2_pos p) = 2 * 2 ^ (Z.pos (digits2_pos p) - 1)).
    { rewrite <- Z.pow_succ_r by lia. f_equal. lia. }
    lia.
  - change (2 ^ (1 - 1) <= 1 < 2 ^ 1). rewrite Z.pow_1_r. simpl. lia.
Qed.

Lemma Zdigits2_bounds (m : Z) :
  0 < m -> 2 ^ (Zdigits2 m - 1) <= m < 2 ^ Zdigits2 m.
Proof.
  destruct m as [ | p | p]; try lia. intros _. apply digits2_pos_bounds.
Qed.

Lemma Zdigits2_pos (m : Z) : 0 < m -> 0 < Zdigits2 m.
Proof. destruct m; simpl; lia. Qed.

Lemma Zdigits2_nonneg (m : Z) : 0 <= Zdigits2 m.
Proof. destruct m; simpl; lia. Qed.

Lemma pow2_lt_mono (a b : Z) : 0 <= a -> a < b -> 2 ^ a < 2 ^ b.
Proof. intros. apply Z.pow_lt_mono_r; lia. Qed.

Lemma pow2_le_mono (a b : Z) : 0 <= a -> a <= b -> 2 ^ a <= 2 ^ b.
Proof. intros. apply Z.pow_le_mono_r; lia. Qed.

Lemma pow2_pos (a : Z) : 0 <= a -> 0 < 2 ^ a.
Proof. intros. apply Z.pow_pos_nonneg; lia. Qed.

(** The number of digits is the only [d] with [2^(d-1) <= m < 2^d]. *)
Lemma Zdigits2_unique (m d : Z) :
  0 < d -> 2 ^ (d - 1) <= m < 2 ^ d -> Zdigits2 m = d.
Proof.
  intros Hd [Hlo Hhi].
  assert (Hm : 0 < m) by (pose proof (pow2_pos (d - 1)); lia).
  pose proof (Zdigits2_bounds m Hm) as [Blo Bhi].
  pose proof (Zdigits2_pos m Hm) as Hp.
  destruct (Z.lt_trichotomy (Zdigits2 m) d) as [Hlt | [Heq | Hgt]]; [ | exact Heq | ].
  - pose proof (pow2_le_mono (Zdigits2 m) (d - 1)). lia.
  - pose proof (pow2_le_mono d (Zdigits2 m - 1)). lia.
Qed.

Lemma Zdigits2_le (a b : Z) : 0 <= a -> a <= b -> Zdigits2 a <= Zdigits2 b.
Proof.
  intros Ha Hab.
  destruct (Z.eq_dec a 0) as [-> | Hne].
  - apply Zdigits2_nonneg.
  - pose proof (Zdigits2_bounds a ltac:(lia)) as [Alo Ahi].
    pose proof (Zdigits2_bounds b ltac:(lia)) as [Blo Bhi].
    pose proof (Zdigits2_pos a ltac:(lia)).
    destruct (Z.le_gt_cases (Zdigits2 a) (Zdigits2 b)) as [H1 | H1]; [exact H1 | ].
    pose proof (pow2_le_mono (Zdigits2 b) (Zdigits2 a - 1) (Zdigits2_nonneg b)). lia.
Qed.

(** An invariant that one step preserves is preserved by [iter_pos]. *)
Lemma iter_pos_invariant {A : Type} (f : A -> A) (P : Z -> A -> Prop) :
  (forall k x, 0 <= k -> P k x -> P (k + 1) (f x)) ->
  forall (n : positive) (k : Z) (x : A),
    0 <= k -> P k x -> P (k + Z.pos n) (iter_pos f n x).
Proof.
  intros Hstep. induction n as [p IH | p IH | ]; intros k x Hk HP; cbn [iter_pos].
  - replace (k + Z.pos p~1) with ((k + 1 + Z.pos p) + Z.pos p) by lia.
    apply IH; [lia | ]. apply IH; [lia | ]. apply Hstep; assumption.
  - replace (k + Z.pos p~0) with ((k + Z.pos p) + Z.pos p) by lia.
    apply IH; [lia | ]. apply IH; assumption.
  - apply Hstep; assumption.
Qed.

Lemma shr_1_spec (r : shr_record) :
  0 <= shr_m r ->
  shr_m (shr_1 r) = shr_m r / 2
  /\ shr_r (shr_1 r) = Z.odd (shr_m r)
  /\ shr_s (shr_1 r) = shr_r r || shr_s r.
Proof.
  destruct r as [m rb sb]. cbn [shr_m shr_r shr_s]. intros Hm.
  destruct m as [ | [p | p | ] | p]; cbn [shr_1 shr_m shr_r shr_s];
    try lia; repeat split; try reflexivity.
  - rewrite Pos2Z.inj_xI. apply (Z.div_unique _ 2 _ 1); lia.
  - rewrite Pos2Z.inj_xO. apply (Z.div_unique _ 2 _ 0); lia.
Qed.

(** How quotient and remainder change when the divisor doubles. *)
Lemma div_mod_double (N D : Z) :
  0 <= N -> 0 < D ->
  N / (2 * D) = N / D / 2
  /\ N mod (2 * D) = D * (N / D mod 2) + N mod D.
Proof.
  intros HN HD.
  pose proof (Z.div_mod N D ltac:(lia)) as E.
  pose proof (Z.mod_pos_bound N D HD) as B.
  pose proof (Z.div_mod (N / D) 2 ltac:(lia)) as E2.
  pose proof (Z.mod_pos_bound (N / D) 2 ltac:(lia)) as B2.
  set (q := N / D) in *. set (R := N mod D) in *.
  set (h := q / 2) in *. set (b := q mod 2) in *.
  assert (Hb : b = 0 \/ b = 1) by lia.
  assert (EN : N = 2 * D * h + (D * b + R)) by (destruct Hb as [-> | ->]; nia).
  assert (BR : 0 <= D * b + R < 2 * D) by (destruct Hb as [-> | ->]; nia).
  split.
  - symmetry. apply (Z.div_unique N (2 * D) h (D * b + R)); [lia | exact EN].
  - symmetry. apply (Z.mod_unique N (2 * D) h (D * b + R)); [lia | exact EN].
Qed.

Lemma Repr_nonneg (N D : Z) (r : shr_record) : Repr N D r -> 0 <= shr_m r.
Proof.
  intros (HN & HD & Hm & _). rewrite Hm. apply Z.div_pos; lia.
Qed.

Lemma Repr_shr_1 (N D : Z) (r : shr_record) :
  Repr N D r -> Repr N (2 * D) (shr_1 r).
Proof.
  intros HR. pose proof (Repr_nonneg N D r HR) as Hm0.
  destruct HR as (HN & HD & Hm & Hr & Hs).
  destruct (shr_1_spec r Hm0) as (Sm & Sr & Ss).
  destruct (div_mod_double N D HN HD) as (Ed & Em).
  pose proof (Z.mod_pos_bound N D HD) as B.
  pose proof (Z.mod_pos_bound (N / D) 2 ltac:(lia)) as B2.
  assert (Hodd : Z.odd (N / D) = (N / D mod 2 =? 1)).
  { rewrite Zmod_odd. destruct (Z.odd (N / D)); reflexivity. }
  unfold Repr. rewrite Sm, Sr, Ss, Hm, Ed, Em, Hodd.
  split; [exact HN | split; [lia | split; [reflexivity | ]]].
  rewrite Hs, Hr.
  assert (Hb : N / D mod 2 = 0 \/ N / D mod 2 = 1) by lia.
  set (R := N mod D) in *. set (b := N / D mod 2) in *.
  clearbody R b. clear Hodd Em Ed Sm Sr Ss Hm Hr Hs.
  destruct Hb as [-> | ->];
    [change (0 =? 1) with false | change (1 =? 1) with true];
    cbv iota; split; bool_cases.
Qed.

Lemma Repr_iter (N D : Z) (r : shr_record) (n : positive) :
  Repr N D r -> Repr N (D * 2 ^ Z.pos n) (iter_pos shr_1 n r).
Proof.
  intros HR.
  assert (Hstep : forall k x, 0 <= k ->
            Repr N (D * 2 ^ k) x -> Repr N (D * 2 ^ (k + 1)) (shr_1 x)).
  { intros k x Hk Hx. rewrite Z.pow_add_r, Z.pow_1_r by lia.
    replace (D * (2 ^ k * 2)) with (2 * (D * 2 ^ k)) by ring.
    apply Repr_shr_1. exact Hx. }
  pose proof (iter_pos_invariant shr_1 (fun k x => Repr N (D * 2 ^ k) x)
                Hstep n 0 r ltac:(lia)) as H.
  cbv beta in H. rewrite Z.pow_0_r, Z.mul_1_r, Z.add_0_l in H.
  apply H. exact HR.
Qed.

Lemma Repr_exact (m D : Z) :
  0 <= m -> 0 < D -> Repr (m * D) D (shr_record_of_loc m loc_Exact).
Proof.
  intros Hm HD. unfold Repr. cbn [shr_record_of_loc shr_m shr_r shr_s].
  rewrite Z.div_mul, Z.mod_mul by lia.
  repeat split; try nia; bool_cases.
Qed.

Lemma Repr_shr (N D : Z) (r : shr_record) (e n : Z) :
  Repr N D r ->
  Repr N (D * 2 ^ Z.max 0 n) (fst (shr r e n))
  /\ snd (shr r e n) = e + Z.max 0 n.
Proof.
  intros HR. destruct n as [ | p | p]; cbn [shr fst snd].
  - change (Z.max 0 0) with 0. rewrite Z.pow_0_r, Z.mul_1_r, Z.add_0_r.
    split; [exact HR | reflexivity].
  - replace (Z.max 0 (Z.pos p)) with (Z.pos p) by lia.
    split; [apply Repr_iter; exact HR | reflexivity].
  - replace (Z.max 0 (Z.neg p)) with 0 by lia.
    rewrite Z.pow_0_r, Z.mul_1_r, Z.add_0_r.
    split; [exact HR | reflexivity].
Qed.

Lemma loc_record_inverse (r : shr_record) :
  shr_record_of_loc (shr_m r) (loc_of_shr_record r) = r.
Proof. destruct r as [m [ | ] [ | ]]; reflexivity. Qed.

Lemma Repr_rne (N D : Z) (r : shr_record) :
  Repr N D r ->
  round_nearest_even (shr_m r) (loc_of_shr_record r) = rne_frac N D.
Proof.
  intros (HN & HD & Hm & Hr & Hs).
  pose proof (Z.mod_pos_bound N D HD) as B.
  destruct r as [m rb sb]. cbn [shr_m shr_r shr_s] in *.
  unfold rne_frac. rewrite <- Hm.
  set (R := N mod D) in *. clearbody R.
  subst rb sb.
  destruct (Z.leb_spec D (2 * R)) as [H1 | H1];
    [destruct (Z.eqb_spec (2 * R) D) as [H2 | H2]
    | destruct (Z.eqb_spec (2 * R) 0) as [H2 | H2]];
    cbn [negb loc_of_shr_record round_nearest_even];
    destruct (Z.ltb_spec (2 * R) D); try lia;
    destruct (Z.ltb_spec D (2 * R)); try lia; reflexivity.
Qed.

(** [binary_round_aux], read off the fraction its input stands for. *)
Lemma binary_round_aux_Repr (prec emax : Z) (sx : bool) (mx ex : Z)
    (lx : location) (N D : Z) :
  Repr N D (shr_record_of_loc mx lx) ->
  let n := Z.max 0 (fexp prec emax (Zdigits2 mx + ex) - ex) in
  binary_round_aux prec emax sx mx ex lx
  = finish prec emax sx (rne_frac N (D * 2 ^ n)) (ex + n).
Proof.
  intros HR n. unfold binary_round_aux, finish.
  unfold shr_fexp at 1.
  pose proof (Repr_shr N D _ ex (fexp prec emax (Zdigits2 mx + ex) - ex) HR)
    as [H1 H2].
  fold n in H1, H2.
  destruct (shr (shr_record_of_loc mx lx) ex
              (fexp prec emax (Zdigits2 mx + ex) - ex)) as [mrs' e'].
  cbn [fst snd] in H1, H2. subst e'.
  rewrite (Repr_rne _ _ _ H1). reflexivity.
Qed.

Lemma fexp32 (e : Z) : fexp 24 128 e = Z.max (e - 24) (-149).
Proof. reflexivity. Qed.

Lemma pow2_add (a b : Z) : 0 <= a -> 0 <= b -> 2 ^ (a + b) = 2 ^ a * 2 ^ b.
Proof. intros. apply Z.pow_add_r; assumption. Qed.

(** The digits of a mantissa that the first half of the rounding can
    produce: below [2^24], with all 24 digits above the smallest
    exponent. *)
Lemma digits_of_mantissa (M E : Z) :
  0 < M < 2 ^ 24 -> (-149 < E -> 2 ^ 23 <= M) ->
  Zdigits2 M <= 24 /\ (-149 < E -> Zdigits2 M = 24).
Proof.
  intros HM HE.
  pose proof (Zdigits2_bounds M ltac:(lia)) as [Blo Bhi].
  pose proof (Zdigits2_pos M ltac:(lia)) as Hp.
  assert (H24 : Zdigits2 M <= 24).
  { destruct (Z.le_gt_cases (Zdigits2 M) 24) as [H | H]; [exact H | ].
    pose proof (pow2_le_mono 24 (Zdigits2 M - 1)). lia. }
  split; [exact H24 | ].
  intros HEl. specialize (HE HEl).
  destruct (Z.eq_dec (Zdigits2 M) 24) as [H | H]; [exact H | ].
  pose proof (pow2_le_mono (Zdigits2 M) 23). lia.
Qed.

Lemma finish_spec (sx : bool) (M E : Z) :
  -149 <= E -> 0 <= M <= 2 ^ 24 -> (-149 < E -> 2 ^ 23 <= M) ->
  finish 24 128 sx M E
  = if M =? 0 then S754_zero sx
    else if M <? 2 ^ 24
         then if E <=? 104 then S754_finite sx (Z.to_pos M) E
              else S754_infinity sx
         else if E + 1 <=? 104 then S754_finite sx (Z.to_pos (2 ^ 23)) (E + 1)
              else S754_infinity sx.
Proof.
  intros HE HM HN. unfold finish, shr_fexp. rewrite fexp32.
  destruct (Z.eqb_spec M 0) as [-> | H0].
  - change (Zdigits2 0) with 0.
    replace (Z.max (0 + E - 24) (-149) - E) with (-149 - E) by lia.
    destruct (-149 - E) eqn:Hd; try lia; reflexivity.
  - destruct (Z.ltb_spec M (2 ^ 24)) as [Hlt | Hge].
    + destruct (digits_of_mantissa M E ltac:(lia) HN) as [D1 D2].
      assert (Hn : Z.max (Zdigits2 M + E - 24) (-149) - E = 0) by lia.
      rewrite Hn. cbn [shr shr_record_of_loc shr_m].
      destruct M as [ | p | p]; try lia. reflexivity.
    + assert (HM' : M = 2 ^ 24) by lia. subst M.
      change (Zdigits2 (2 ^ 24)) with 25.
      replace (Z.max (25 + E - 24) (-149) - E) with 1 by lia.
      reflexivity.
Qed.

Lemma mul_pow2_lt (a k n n' : Z) :
  0 <= a < 2 ^ k -> 0 <= k -> 0 <= n <= n' -> a * 2 ^ n < 2 ^ (k + n').
Proof.
  intros Ha Hk Hn. rewrite pow2_add by lia.
  pose proof (pow2_pos n ltac:(lia)). pose proof (pow2_le_mono n n'). nia.
Qed.

Lemma mul_pow2_ge (a k n : Z) :
  2 ^ k <= a -> 0 <= k -> 0 <= n -> 2 ^ (k + n) <= a * 2 ^ n.
Proof.
  intros Ha Hk Hn. rewrite pow2_add by lia.
  pose proof (pow2_pos n ltac:(lia)). nia.
Qed.

Lemma finish_valid (M E : Z) :
  -149 <= E -> 0 <= M <= 2 ^ 24 -> (-149 < E -> 2 ^ 23 <= M) ->
  nonneg_valid (finish 24 128 false M E) = true
  /\ ordv (finish 24 128 false M E) = Z.min (M * 2 ^ (E + 149)) (2 ^ 277).
Proof.
  intros HE HM HN. rewrite (finish_spec false M E HE HM HN).
  destruct (Z.eqb_spec M 0) as [-> | H0].
  - split; [reflexivity | ]. cbn [ordv]. rewrite Z.mul_0_l.
    pose proof (pow2_pos 277). lia.
  - destruct (Z.ltb_spec M (2 ^ 24)) as [Hlt | Hge].
    + destruct (digits_of_mantissa M E ltac:(lia) HN) as [D1 D2].
      destruct (Z.leb_spec E 104) as [H104 | H104].
      * destruct M as [ | p | p]; try lia.
        cbn [Z.to_pos nonneg_valid ordv negb andb].
        unfold bounded, canonical_mantissa. rewrite fexp32.
        change (Z.pos (digits2_pos p)) with (Zdigits2 (Z.pos p)).
        split.
        -- apply andb_true_intro. split.
           ++ apply Z.eqb_eq. lia.
           ++ apply Z.leb_le. lia.
        -- pose proof (mul_pow2_lt (Z.pos p) 24 (E + 149) 253
                         ltac:(lia) ltac:(lia) ltac:(lia)) as Hb.
           change (24 + 253) with 277 in Hb. lia.
      * split; [reflexivity | ]. cbn [ordv].
        pose proof (mul_pow2_ge M 23 (E + 149) (HN ltac:(lia))
                      ltac:(lia) ltac:(lia)) as Hb.
        pose proof (pow2_le_mono 277 (23 + (E + 149)) ltac:(lia) ltac:(lia)).
        lia.
    + assert (HM' : M = 2 ^ 24) by lia. subst M.
      destruct (Z.leb_spec (E + 1) 104) as [H104 | H104].
      * change (Z.to_pos (2 ^ 23)) with 8388608%positive.
        split.
        { cbn [nonneg_valid negb andb].
          unfold bounded, canonical_mantissa. rewrite fexp32.
          change (Z.pos (digits2_pos 8388608)) with 24.
          apply andb_true_intro. split.
          - apply Z.eqb_eq. lia.
          - apply Z.leb_le. lia. }
        cbn [ordv]. change (Z.pos 8388608) with (2 ^ 23).
        replace (E + 1 + 149) with (1 + (E + 149)) by lia.
        rewrite (pow2_add 1 (E + 149)) by lia.
        change (2 ^ 1) with 2.
        replace (2 ^ 23 * (2 * 2 ^ (E + 149))) with (2 ^ 24 * 2 ^ (E + 149))
          by (change (2 ^ 24) with (2 * 2 ^ 23); ring).
        pose proof (mul_pow2_lt (2 ^ 24) 25 (E + 149) 252
                      ltac:(split; [apply Z.pow_nonneg; lia
                                   | apply pow2_lt_mono; lia])
                      ltac:(lia) ltac:(lia)) as Hb.
        change (25 + 252) with 277 in Hb. lia.
      * split; [reflexivity | ]. cbn [ordv].
        pose proof (mul_pow2_ge (2 ^ 24) 24 (E + 149) ltac:(lia)
                      ltac:(lia) ltac:(lia)) as Hb.
        pose proof (pow2_le_mono 277 (24 + (E + 149)) ltac:(lia) ltac:(lia)).
        lia.
Qed.

(** *** The nearest integer, as a function of the fraction *)

Lemma rne_frac_bounds (N D : Z) :
  0 < D -> N / D <= rne_frac N D <= N / D + 1.
Proof.
  intros HD. unfold rne_frac.
  destruct (2 * (N mod D) <? D); [lia | ].
  destruct (D <? 2 * (N mod D)); [lia | ].
  destruct (Z.even (N / D)); lia.
Qed.

Lemma frac_floor_mono (N1 D1 N2 D2 : Z) :
  0 < D1 -> 0 < D2 -> N1 * D2 <= N2 * D1 -> N1 / D1 <= N2 / D2.
Proof.
  intros H1 H2 Hle.
  pose proof (Z.div_mod N1 D1 ltac:(lia)) as E1.
  pose proof (Z.mod_pos_bound N1 D1 H1) as B1.
  pose proof (Z.div_mod N2 D2 ltac:(lia)) as E2.
  pose proof (Z.mod_pos_bound N2 D2 H2) as B2.
  set (q1 := N1 / D1) in *. set (q2 := N2 / D2) in *.
  set (R1 := N1 mod D1) in *. set (R2 := N2 mod D2) in *.
  clearbody q1 q2 R1 R2.
  destruct (Z.le_gt_cases q1 q2) as [H | H]; [exact H | exfalso].
  assert (Hq : q2 + 1 <= q1) by lia.
  assert (P1 : D1 * D2 * (q2 + 1) <= D1 * D2 * q1) by nia.
  assert (P2 : N2 * D1 < D1 * D2 * (q2 + 1)) by nia.
  assert (P3 : D1 * D2 * q1 <= N1 * D2) by nia.
  lia.
Qed.

Lemma rne_frac_mono (N1 D1 N2 D2 : Z) :
  0 < D1 -> 0 < D2 -> N1 * D2 <= N2 * D1 ->
  rne_frac N1 D1 <= rne_frac N2 D2.
Proof.
  intros H1 H2 Hle.
  pose proof (frac_floor_mono N1 D1 N2 D2 H1 H2 Hle) as Hq.
  pose proof (rne_frac_bounds N1 D1 H1) as Bn1.
  pose proof (rne_frac_bounds N2 D2 H2) as Bn2.
  destruct (Z.eq_dec (N1 / D1) (N2 / D2)) as [Heq | Hne]; [ | lia].
  clear Bn1 Bn2 Hq. unfold rne_frac. rewrite <- Heq.
  pose proof (Z.div_mod N1 D1 ltac:(lia)) as E1.
  pose proof (Z.mod_pos_bound N1 D1 H1) as B1.
  pose proof (Z.div_mod N2 D2 ltac:(lia)) as E2.
  pose proof (Z.mod_pos_bound N2 D2 H2) as B2.
  rewrite <- Heq in E2.
  set (q := N1 / D1) in *.
  set (R1 := N1 mod D1) in *. set (R2 := N2 mod D2) in *.
  clearbody q R1 R2. clear Heq.
  assert (HR : R1 * D2 <= R2 * D1) by nia.
  destruct (Z.ltb_spec (2 * R1) D1) as [A1 | A1];
    destruct (Z.ltb_spec (2 * R2) D2) as [A2 | A2];
    try destruct (Z.ltb_spec D1 (2 * R1)) as [C1 | C1];
    try destruct (Z.ltb_spec D2 (2 * R2)) as [C2 | C2];
    try destruct (Z.even q); try lia; exfalso; nia.
Qed.

Lemma rne_frac_ext (N1 D1 N2 D2 : Z) :
  0 < D1 -> 0 < D2 -> N1 * D2 = N2 * D1 ->
  rne_frac N1 D1 = rne_frac N2 D2.
Proof.
  intros H1 H2 Heq.
  pose proof (rne_frac_mono N1 D1 N2 D2 H1 H2 ltac:(lia)).
  pose proof (rne_frac_mono N2 D2 N1 D1 H2 H1 ltac:(lia)).
  lia.
Qed.

Lemma frac_floor_ext (N1 D1 N2 D2 : Z) :
  0 < D1 -> 0 < D2 -> N1 * D2 = N2 * D1 -> N1 / D1 = N2 / D2.
Proof.
  intros H1 H2 Heq.
  pose proof (frac_floor_mono N1 D1 N2 D2 H1 H2 ltac:(lia)).
  pose proof (frac_floor_mono N2 D2 N1 D1 H2 H1 ltac:(lia)).
  lia.
Qed.

(** *** The rounding of a fraction *)

Lemma round_val_eq (A B : Z) :
  round_val A B
  = Z.min (rne_frac A (B * 2 ^ ulp_exp A B) * 2 ^ ulp_exp A B) (2 ^ 277).
Proof. reflexivity. Qed.

Lemma mantissa_range (A B : Z) :
  0 <= A -> 0 < B ->
  0 <= rne_frac A (B * 2 ^ ulp_exp A B) <= 2 ^ 24
  /\ (0 < ulp_exp A B -> 2 ^ 23 <= rne_frac A (B * 2 ^ ulp_exp A B)).
Proof.
  intros HA HB.
  assert (HEdef : ulp_exp A B = Z.max 0 (Zdigits2 (A / B) - 24))
    by reflexivity.
  assert (Hq0 : 0 <= A / B) by (apply Z.div_pos; lia).
  set (E := ulp_exp A B) in *. set (q := A / B) in *.
  assert (Hq : A / (B * 2 ^ E) = q / 2 ^ E).
  { unfold q. symmetry. apply Z.div_div; [lia | ].
    apply pow2_pos. lia. }
  clearbody E q.
  assert (HE : 0 <= E) by lia.
  pose proof (pow2_pos E HE) as HP.
  assert (HD : 0 < B * 2 ^ E) by nia.
  pose proof (rne_frac_bounds A (B * 2 ^ E) HD) as [Blo Bhi].
  rewrite Hq in Blo, Bhi.
  assert (Hup : q / 2 ^ E < 2 ^ 24).
  { apply Z.div_lt_upper_bound; [exact HP | ].
    destruct (Z.eq_dec q 0) as [-> | Hne].
    - pose proof (pow2_pos 24). nia.
    - pose proof (Zdigits2_bounds q ltac:(lia)) as [_ Bq].
      pose proof (Zdigits2_pos q ltac:(lia)).
      rewrite <- pow2_add by lia.
      pose proof (pow2_le_mono (Zdigits2 q) (E + 24) ltac:(lia) ltac:(lia)).
      lia. }
  assert (Hlo0 : 0 <= q / 2 ^ E) by (apply Z.div_pos; lia).
  split; [lia | ].
  intros HEpos.
  assert (Hdq : Zdigits2 q = E + 24) by lia.
  assert (Hqpos : 0 < q).
  { destruct (Z.eq_dec q 0) as [Hz | Hz]; [ | lia].
    rewrite Hz in Hdq. change (Zdigits2 0) with 0 in Hdq. lia. }
  pose proof (Zdigits2_bounds q Hqpos) as [Bq _].
  rewrite Hdq in Bq.
  replace (E + 24 - 1) with (E + 23) in Bq by lia.
  rewrite pow2_add in Bq by lia.
  assert (2 ^ 23 <= q / 2 ^ E) by (apply Z.div_le_lower_bound; lia).
  lia.
Qed.

Lemma ulp_exp_mono (A1 B1 A2 B2 : Z) :
  0 <= A1 -> 0 < B1 -> 0 < B2 -> A1 * B2 <= A2 * B1 ->
  ulp_exp A1 B1 <= ulp_exp A2 B2.
Proof.
  intros HA H1 H2 Hle. unfold ulp_exp.
  pose proof (frac_floor_mono A1 B1 A2 B2 H1 H2 Hle) as Hq.
  pose proof (Zdigits2_le (A1 / B1) (A2 / B2)
                ltac:(apply Z.div_pos; lia) Hq).
  lia.
Qed.

(** Rounding is monotone. *)
Lemma round_val_mono (A1 B1 A2 B2 : Z) :
  0 <= A1 -> 0 < B1 -> 0 < B2 -> A1 * B2 <= A2 * B1 ->
  round_val A1 B1 <= round_val A2 B2.
Proof.
  intros HA H1 H2 Hle. rewrite !round_val_eq.
  assert (HA2 : 0 <= A2) by nia.
  pose proof (ulp_exp_mono A1 B1 A2 B2 HA H1 H2 Hle) as HE.
  destruct (mantissa_range A1 B1 HA H1) as [R1 _].
  destruct (mantissa_range A2 B2 HA2 H2) as [R2 R2'].
  set (E1 := ulp_exp A1 B1) in *. set (E2 := ulp_exp A2 B2) in *.
  assert (HE1 : 0 <= E1) by (unfold E1, ulp_exp; lia).
  pose proof (pow2_pos E1 HE1) as P1.
  pose proof (pow2_pos E2 ltac:(lia)) as P2.
  apply Z.min_le_compat_r.
  destruct (Z.eq_dec E1 E2) as [Heq | Hne].
  - rewrite <- Heq in *.
    assert (rne_frac A1 (B1 * 2 ^ E1) <= rne_frac A2 (B2 * 2 ^ E1))
      by (apply rne_frac_mono; nia).
    nia.
  - specialize (R2' ltac:(lia)).
    assert (U1 : rne_frac A1 (B1 * 2 ^ E1) * 2 ^ E1 <= 2 ^ (24 + E1))
      by (rewrite pow2_add by lia; nia).
    assert (L2 : 2 ^ (23 + E2) <= rne_frac A2 (B2 * 2 ^ E2) * 2 ^ E2)
      by (apply mul_pow2_ge; lia).
    pose proof (pow2_le_mono (24 + E1) (23 + E2) ltac:(lia) ltac:(lia)).
    lia.
Qed.

(** *** From the rounding of the code to the rounding of a fraction *)

(** The digits of the integer part of [A / B = (N / D) * 2^(a - b)]. *)
Lemma digits_scaled (N D A B a b : Z) :
  0 <= N -> 0 < D -> 0 <= A -> 0 < B -> 0 <= a -> 0 <= b ->
  A * D * 2 ^ b = N * B * 2 ^ a ->
  let dm := Zdigits2 (N / D) in
  (dm + (a - b) <= 0 -> A / B = 0)
  /\ (0 < N / D -> 1 <= dm + (a - b) -> Zdigits2 (A / B) = dm + (a - b)).
Proof.
  intros HN HD HA HB Ha Hb Heq dm.
  pose proof (Z.div_mod N D ltac:(lia)) as EN.
  pose proof (Z.mod_pos_bound N D HD) as BN.
  assert (Hm0 : 0 <= N / D) by (apply Z.div_pos; lia).
  pose proof (Zdigits2_nonneg (N / D)) as Hdm0. fold dm in Hdm0.
  pose proof (pow2_pos a Ha) as Pa. pose proof (pow2_pos b Hb) as Pb.
  assert (Hup : N < 2 ^ dm * D).
  { destruct (Z.eq_dec (N / D) 0) as [Hz | Hz].
    - unfold dm. rewrite Hz. change (Zdigits2 0) with 0.
      rewrite Z.pow_0_r. rewrite Hz in EN. lia.
    - pose proof (Zdigits2_bounds (N / D) ltac:(lia)) as [_ Bhi].
      fold dm in Bhi. nia. }
  split.
  - intros Hk. apply Z.div_small. split; [exact HA | ].
    assert (P : 2 ^ (dm + a) <= 2 ^ b) by (apply pow2_le_mono; lia).
    rewrite pow2_add in P by lia.
    set (pd := 2 ^ dm) in *. set (pa := 2 ^ a) in *. set (pb := 2 ^ b) in *.
    assert (Ppd : 0 < pd) by (apply pow2_pos; lia).
    clearbody pd pa pb.
    assert (A * D * pb < pd * D * B * pa) by nia.
    assert (A * D * pb < pb * D * B) by nia.
    nia.
  - intros Hmpos Hk.
    pose proof (Zdigits2_bounds (N / D) Hmpos) as [Blo _]. fold dm in Blo.
    assert (Hdm1 : 1 <= dm) by (pose proof (Zdigits2_pos (N / D) Hmpos); lia).
    apply Zdigits2_unique; [lia | ].
    assert (P1 : 2 ^ (dm - 1) * 2 ^ a = 2 ^ (dm + (a - b) - 1) * 2 ^ b).
    { rewrite <- !pow2_add by lia. f_equal. lia. }
    assert (P2 : 2 ^ dm * 2 ^ a = 2 ^ (dm + (a - b)) * 2 ^ b).
    { rewrite <- !pow2_add by lia. f_equal. lia. }
    pose proof (pow2_pos (dm + (a - b) - 1) ltac:(lia)) as Q1.
    pose proof (pow2_pos (dm + (a - b)) ltac:(lia)) as Q2.
    set (pl := 2 ^ (dm - 1)) in *. set (pd := 2 ^ dm) in *.
    set (ql := 2 ^ (dm + (a - b) - 1)) in *.
    set (qd := 2 ^ (dm + (a - b))) in *.
    set (pa := 2 ^ a) in *. set (pb := 2 ^ b) in *.
    clearbody pl pd ql qd pa pb.
    assert (L0 : pl * D <= N) by nia.
    split.
    + apply Z.div_le_lower_bound; [lia | ].
      assert (ql * pb * (D * B) <= A * D * pb).
      { rewrite Heq. rewrite <- P1.
        assert (HBa : 0 <= B * pa) by nia.
        pose proof (Z.mul_le_mono_nonneg_r (pl * D) N (B * pa) HBa L0).
        nia. }
      assert (HDb : 0 < D * pb) by nia.
      apply (Z.mul_le_mono_pos_r _ _ (D * pb)); [exact HDb | ]. nia.
    + apply Z.div_lt_upper_bound; [lia | ].
      assert (A * D * pb < qd * pb * (D * B)).
      { rewrite Heq. rewrite <- P2.
        assert (HBa : 0 < B * pa) by nia.
        pose proof (Z.mul_lt_mono_pos_r (B * pa) N (pd * D) HBa) as [Hm _].
        specialize (Hm Hup). nia. }
      assert (HDb : 0 < D * pb) by nia.
      apply (Z.mul_lt_mono_pos_r (D * pb)); [exact HDb | ]. nia.
Qed.

Lemma shr_m_of_loc (m : Z) (l : location) :
  shr_m (shr_record_of_loc m l) = m.
Proof. destruct l as [ | [ | | ]]; reflexivity. Qed.

(** The code's rounding of the mantissa [mx] at exponent [ex], which
    stands for the fraction [N / D], is the rounding of [A / B] whenever
    [A / B = (N / D) * 2^(ex + 149)]; the exponent must not exceed the
    one the format gives to a number of that size. *)
Lemma binary_round_aux_frac (sx : bool) (mx ex : Z) (lx : location)
    (N D A B a b : Z) :
  Repr N D (shr_record_of_loc mx lx) ->
  ex <= fexp 24 128 (Zdigits2 mx + ex) ->
  0 <= A -> 0 < B -> 0 <= a -> 0 <= b -> a - b = ex + 149 ->
  A * D * 2 ^ b = N * B * 2 ^ a ->
  binary_round_aux 24 128 sx mx ex lx
  = finish 24 128 sx (rne_frac A (B * 2 ^ ulp_exp A B)) (ulp_exp A B - 149).
Proof.
  intros HR Hex HA HB Ha Hb Hab Heq.
  rewrite (binary_round_aux_Repr 24 128 sx mx ex lx N D HR).
  destruct HR as (HN & HD & Hm & _). rewrite shr_m_of_loc in Hm.
  rewrite fexp32 in *.
  destruct (digits_scaled N D A B a b HN HD HA HB Ha Hb Heq) as [Hsmall Hbig].
  rewrite <- Hm in Hsmall, Hbig.
  pose proof (Zdigits2_nonneg mx) as Hdm.
  assert (Hmx : 0 <= mx) by (rewrite Hm; apply Z.div_pos; lia).
  set (dm := Zdigits2 mx) in *.
  set (n := Z.max 0 (Z.max (dm + ex - 24) (-149) - ex)).
  assert (HU : ulp_exp A B = ex + n + 149).
  { unfold ulp_exp.
    destruct (Z.le_gt_cases (dm + (a - b)) 0) as [Hk | Hk].
    - rewrite (Hsmall Hk). change (Zdigits2 0) with 0. lia.
    - assert (Hpos : 0 < mx).
      { destruct (Z.eq_dec mx 0) as [Hz | Hz]; [ | lia].
        exfalso. unfold dm in *. rewrite Hz in *.
        change (Zdigits2 0) with 0 in *. lia. }
      rewrite (Hbig Hpos ltac:(lia)). lia. }
  rewrite HU. replace (ex + n + 149 - 149) with (ex + n) by lia.
  f_equal.
  assert (Hn : 0 <= n) by lia.
  pose proof (pow2_pos n Hn) as Pn. pose proof (pow2_pos b Hb) as Pb.
  pose proof (pow2_pos a Ha) as Pa.
  pose proof (pow2_pos (ex + n + 149) ltac:(lia)) as PU.
  apply rne_frac_ext; [nia | nia | ].
  assert (PP : 2 ^ (ex + n + 149) * 2 ^ b = 2 ^ a * 2 ^ n).
  { rewrite <- !pow2_add by lia. f_equal. lia. }
  set (pu := 2 ^ (ex + n + 149)) in *. set (pn := 2 ^ n) in *.
  set (pa := 2 ^ a) in *. set (pb := 2 ^ b) in *.
  clearbody pu pn pa pb.
  apply (Z.mul_cancel_r _ _ pb); [lia | ].
  replace (N * (B * pu) * pb) with (N * B * (pu * pb)) by ring.
  rewrite PP.
  replace (N * B * (pa * pn)) with (N * B * pa * pn) by ring.
  rewrite <- Heq. ring.
Qed.

(** For a non-negative result, this makes it a binary32 number whose
    value is the rounding of the fraction. *)
Lemma finish_round_val (A B : Z) :
  0 <= A -> 0 < B ->
  let x := finish 24 128 false (rne_frac A (B * 2 ^ ulp_exp A B))
                  (ulp_exp A B - 149) in
  nonneg_valid x = true /\ ordv x = round_val A B.
Proof.
  intros HA HB x.
  destruct (mantissa_range A B HA HB) as [R1 R2].
  assert (HE : 0 <= ulp_exp A B) by (unfold ulp_exp; lia).
  destruct (finish_valid (rne_frac A (B * 2 ^ ulp_exp A B))
              (ulp_exp A B - 149) ltac:(lia) R1
              ltac:(intros; apply R2; lia)) as [V O].
  split; [exact V | ].
  unfold x. rewrite O, round_val_eq.
  replace (ulp_exp A B - 149 + 149) with (ulp_exp A B) by lia.
  reflexivity.
Qed.

(** *** The order of the floats is the order of their values *)

Lemma bounded_facts (m : positive) (e : Z) :
  bounded 24 128 m e = true ->
  -149 <= e <= 104 /\ Z.pos m < 2 ^ 24 /\ (-149 < e -> 2 ^ 23 <= Z.pos m).
Proof.
  unfold bounded, canonical_mantissa. rewrite fexp32.
  intros H. apply andb_prop in H. destruct H as [Hc Hb].
  apply Z.eqb_eq in Hc. apply Z.leb_le in Hb.
  change (Z.pos (digits2_pos m)) with (Zdigits2 (Z.pos m)) in Hc.
  pose proof (Zdigits2_bounds (Z.pos m) ltac:(lia)) as [Blo Bhi].
  pose proof (Zdigits2_pos (Z.pos m) ltac:(lia)) as Hd.
  set (d := Zdigits2 (Z.pos m)) in *. clearbody d.
  change (128 - 24) with 104 in Hb.
  split; [lia | split].
  - pose proof (pow2_le_mono d 24 ltac:(lia) ltac:(lia)). lia.
  - intros He. assert (d = 24) by lia. subst d. exact Blo.
Qed.

Lemma ordv_finite_lt (m : positive) (e : Z) :
  bounded 24 128 m e = true ->
  0 < Z.pos m * 2 ^ (e + 149) < 2 ^ 277.
Proof.
  intros H. destruct (bounded_facts m e H) as (He & Hm & _).
  pose proof (pow2_pos (e + 149) ltac:(lia)).
  pose proof (mul_pow2_lt (Z.pos m) 24 (e + 149) 253
                ltac:(lia) ltac:(lia) ltac:(lia)) as Hb.
  change (24 + 253) with 277 in Hb. nia.
Qed.

Lemma ordv_nonneg (x : spec_float) :
  nonneg_valid x = true -> 0 <= ordv x <= 2 ^ 277.
Proof.
  pose proof (pow2_pos 277 ltac:(lia)) as P.
  destruct x as [s | s | | s m e]; cbn [nonneg_valid ordv]; intros H;
    try lia.
  apply andb_prop in H. destruct H as [_ H].
  pose proof (ordv_finite_lt m e H). lia.
Qed.

Lemma SFcompare_finite (m1 : positive) (e1 : Z) (m2 : positive) (e2 : Z) :
  SFcompare (S754_finite false m1 e1) (S754_finite false m2 e2)
  = Some match e1 ?= e2 with
         | Lt => Lt
         | Gt => Gt
         | Eq => (m1 ?= m2)%positive
         end.
Proof. reflexivity. Qed.

(** On non-negative binary32 numbers the comparison of the floats is
    the comparison of their values. *)
Lemma SFcompare_ordv (x y : spec_float) :
  nonneg_valid x = true -> nonneg_valid y = true ->
  SFcompare x y = Some (ordv x ?= ordv y).
Proof.
  pose proof (pow2_pos 277 ltac:(lia)) as P.
  destruct x as [sx | sx | | sx mx ex]; try discriminate;
    destruct y as [sy | sy | | sy my ey]; try discriminate;
    cbn [nonneg_valid ordv]; intros Hx Hy.
  - reflexivity.
  - destruct sy; [discriminate | ]. cbn [SFcompare].
    apply f_equal. symmetry. apply Z.compare_lt_iff. exact P.
  - apply andb_prop in Hy. destruct Hy as [Hs Hy].
    destruct sy; [discriminate | ]. cbn [SFcompare].
    pose proof (ordv_finite_lt my ey Hy).
    apply f_equal. symmetry. apply Z.compare_lt_iff. lia.
  - destruct sx; [discriminate | ]. cbn [SFcompare].
    apply f_equal. symmetry. apply Z.compare_gt_iff. exact P.
  - destruct sx; [discriminate | ]. destruct sy; [discriminate | ].
    cbn [SFcompare]. apply f_equal. symmetry. apply Z.compare_refl.
  - apply andb_prop in Hy. destruct Hy as [Hs Hy].
    destruct sx; [discriminate | ]. destruct sy; [discriminate | ].
    cbn [SFcompare].
    pose proof (ordv_finite_lt my ey Hy).
    apply f_equal. symmetry. apply Z.compare_gt_iff. lia.
  - apply andb_prop in Hx. destruct Hx as [Hs Hx].
    destruct sx; [discriminate | ]. cbn [SFcompare].
    pose proof (ordv_finite_lt mx ex Hx).
    apply f_equal. symmetry. apply Z.compare_gt_iff. lia.
  - apply andb_prop in Hx. destruct Hx as [Hs Hx].
    destruct sx; [discriminate | ]. destruct sy; [discriminate | ].
    cbn [SFcompare].
    pose proof (ordv_finite_lt mx ex Hx).
    apply f_equal. symmetry. apply Z.compare_lt_iff. lia.
  - apply andb_prop in Hx. destruct Hx as [Hsx Hx].
    apply andb_prop in Hy. destruct Hy as [Hsy Hy].
    destruct sx; [discriminate | ]. destruct sy; [discriminate | ].
    rewrite SFcompare_finite. apply f_equal.
    destruct (bounded_facts mx ex Hx) as (Hex & Hmx & Hnx).
    destruct (bounded_facts my ey Hy) as (Hey & Hmy & Hny).
    destruct (Z.compare_spec ex ey) as [He | He | He].
    + subst ey. rewrite Pos2Z.inj_compare.
      pose proof (pow2_pos (ex + 149) ltac:(lia)) as Pe.
      destruct (Z.compare_spec (Z.pos mx) (Z.pos my)) as [Hm | Hm | Hm];
        symmetry.
      * apply Z.compare_eq_iff. rewrite Hm. reflexivity.
      * apply Z.compare_lt_iff. nia.
      * apply Z.compare_gt_iff. nia.
    + symmetry. apply Z.compare_lt_iff.
      pose proof (mul_pow2_lt (Z.pos mx) 24 (ex + 149) (ex + 149)
                    ltac:(lia) ltac:(lia) ltac:(lia)) as U.
      pose proof (mul_pow2_ge (Z.pos my) 23 (ey + 149) (Hny ltac:(lia))
                    ltac:(lia) ltac:(lia)) as L.
      pose proof (pow2_le_mono (24 + (ex + 149)) (23 + (ey + 149))
                    ltac:(lia) ltac:(lia)).
      lia.
    + symmetry. apply Z.compare_gt_iff.
      pose proof (mul_pow2_lt (Z.pos my) 24 (ey + 149) (ey + 149)
                    ltac:(lia) ltac:(lia) ltac:(lia)) as U.
      pose proof (mul_pow2_ge (Z.pos mx) 23 (ex + 149) (Hnx ltac:(lia))
                    ltac:(lia) ltac:(lia)) as L.
      pose proof (pow2_le_mono (24 + (ey + 149)) (23 + (ex + 149))
                    ltac:(lia) ltac:(lia)).
      lia.
Qed.

(** *** The operations *)

Lemma Zdigits2_shift (m k : Z) :
  0 < m -> 0 <= k -> Zdigits2 (m * 2 ^ k) = Zdigits2 m + k.
Proof.
  intros Hm Hk.
  pose proof (Zdigits2_bounds m Hm) as [Blo Bhi].
  pose proof (Zdigits2_pos m Hm) as Hd.
  pose proof (pow2_pos k Hk) as Pk.
  apply Zdigits2_unique; [lia | ].
  replace (Zdigits2 m + k - 1) with (Zdigits2 m - 1 + k) by lia.
  rewrite !pow2_add by lia. nia.
Qed.

Lemma shl_align_spec (m : positive) (e e' : Z) :
  snd (shl_align m e e') = Z.min e e'
  /\ Z.pos (fst (shl_align m e e')) = Z.pos m * 2 ^ (e - Z.min e e').
Proof.
  unfold shl_align. destruct (e' - e) as [ | d | d] eqn:Hd; cbn [fst snd].
  - replace (Z.min e e') with e by lia. rewrite Z.sub_diag, Z.pow_0_r. lia.
  - replace (Z.min e e') with e by lia. rewrite Z.sub_diag, Z.pow_0_r. lia.
  - replace (Z.min e e') with e' by lia.
    replace (e - e') with (Z.pos d) by lia.
    change (Pos.iter xO m d) with (shift_pos d m).
    rewrite shift_pos_correct. rewrite Z.pow_pos_fold. lia.
Qed.

Lemma binary_round_frac (sx : bool) (m : positive) (e : Z) :
  let A := frac_num (Z.pos m) e in
  let B := frac_den e in
  binary_round 24 128 sx m e
  = finish 24 128 sx (rne_frac A (B * 2 ^ ulp_exp A B)) (ulp_exp A B - 149).
Proof.
  intros A B. unfold binary_round.
  destruct (shl_align_spec m e (fexp 24 128 (Z.pos (digits2_pos m) + e)))
    as [Hs Hf].
  destruct (shl_align m e (fexp 24 128 (Z.pos (digits2_pos m) + e)))
    as [mz ez].
  cbn [fst snd] in Hs, Hf.
  change (Z.pos (digits2_pos m)) with (Zdigits2 (Z.pos m)) in *.
  set (k := e - ez) in *.
  assert (Hk : 0 <= k) by lia.
  assert (Hdz : Zdigits2 (Z.pos mz) = Zdigits2 (Z.pos m) + k).
  { rewrite Hf. subst ez. apply Zdigits2_shift; lia. }
  pose proof (pow2_pos (Z.max 0 (e + 149)) ltac:(lia)) as Pa.
  pose proof (pow2_pos (Z.max 0 (- (e + 149))) ltac:(lia)) as Pb.
  apply (binary_round_aux_frac sx (Z.pos mz) ez loc_Exact (Z.pos mz) 1 A B
           (Z.max 0 (e + 149)) (Z.max 0 (- (e + 149)) + k)).
  - pose proof (Repr_exact (Z.pos mz) 1 ltac:(lia) ltac:(lia)) as HR.
    rewrite Z.mul_1_r in HR. exact HR.
  - rewrite Hdz. replace (Zdigits2 (Z.pos m) + k + ez)
      with (Zdigits2 (Z.pos m) + e) by lia.
    lia.
  - unfold A, frac_num. nia.
  - exact Pb.
  - lia.
  - lia.
  - lia.
  - unfold A, B, frac_num, frac_den. rewrite Hf. subst ez. fold k.
    rewrite (pow2_add _ k) by lia. ring.
Qed.

Lemma frac_nonneg (m e : Z) : 0 <= m -> 0 <= frac_num m e /\ 0 < frac_den e.
Proof.
  intros Hm. unfold frac_num, frac_den.
  pose proof (pow2_pos (Z.max 0 (e + 149)) ltac:(lia)).
  pose proof (pow2_pos (Z.max 0 (- (e + 149))) ltac:(lia)).
  split; nia.
Qed.

(** Rounding an integer mantissa at any exponent gives a binary32
    number, the rounding of the value. *)
Lemma binary_round_spec (m : positive) (e : Z) :
  nonneg_valid (binary_round 24 128 false m e) = true
  /\ ordv (binary_round 24 128 false m e)
     = round_val (frac_num (Z.pos m) e) (frac_den e).
Proof.
  rewrite binary_round_frac.
  destruct (frac_nonneg (Z.pos m) e ltac:(lia)) as [HA HB].
  apply finish_round_val; assumption.
Qed.

Lemma round_val_0 (B : Z) : 0 < B -> round_val 0 B = 0.
Proof.
  intros HB. unfold round_val. rewrite Z.div_0_l by lia.
  change (Zdigits2 0) with 0. change (Z.max 0 (0 - 24)) with 0.
  rewrite Z.pow_0_r, !Z.mul_1_r. unfold rne_frac.
  rewrite Z.div_0_l, Z.mod_0_l by lia.
  destruct (Z.ltb_spec (2 * 0) B); [ | lia].
  pose proof (pow2_pos 277 ltac:(lia)). lia.
Qed.

(** **** Addition *)

Lemma SFadd_finite (mx : positive) (ex : Z) (my : positive) (ey : Z) :
  let ez := Z.min ex ey in
  SFadd 24 128 (S754_finite false mx ex) (S754_finite false my ey)
  = binary_round 24 128 false
      (fst (shl_align mx ex ez) + fst (shl_align my ey ez)) ez.
Proof. reflexivity. Qed.

Lemma SFadd_finite_spec (mx : positive) (ex : Z) (my : positive) (ey : Z) :
  let ez := Z.min ex ey in
  let p := Z.pos mx * 2 ^ (ex - ez) + Z.pos my * 2 ^ (ey - ez) in
  let z := SFadd 24 128 (S754_finite false mx ex) (S754_finite false my ey) in
  nonneg_valid z = true
  /\ ordv z = round_val (frac_num p ez) (frac_den ez).
Proof.
  intros ez p z. unfold z. rewrite SFadd_finite. fold ez.
  destruct (shl_align_spec mx ex ez) as [_ F1].
  destruct (shl_align_spec my ey ez) as [_ F2].
  replace (Z.min ex ez) with ez in F1 by (unfold ez; lia).
  replace (Z.min ey ez) with ez in F2 by (unfold ez; lia).
  assert (Hp : Z.pos (fst (shl_align mx ex ez) + fst (shl_align my ey ez)) = p).
  { rewrite Pos2Z.inj_add, F1, F2. reflexivity. }
  rewrite <- Hp. apply binary_round_spec.
Qed.

Lemma rne_frac_exact (m D : Z) : 0 < D -> rne_frac (m * D) D = m.
Proof.
  intros HD. unfold rne_frac. rewrite Z.div_mul, Z.mod_mul by lia.
  destruct (Z.ltb_spec (2 * 0) D); [reflexivity | lia].
Qed.

(** A binary32 number rounds to itself. *)
Lemma round_val_id (m : positive) (e : Z) :
  bounded 24 128 m e = true ->
  round_val (Z.pos m * 2 ^ (e + 149)) 1 = Z.pos m * 2 ^ (e + 149).
Proof.
  intros Hb. pose proof (ordv_finite_lt m e Hb) as Hlt.
  destruct (bounded_facts m e Hb) as (He & Hm & Hn).
  unfold bounded, canonical_mantissa in Hb. rewrite fexp32 in Hb.
  apply andb_prop in Hb. destruct Hb as [Hc _]. apply Z.eqb_eq in Hc.
  change (Z.pos (digits2_pos m)) with (Zdigits2 (Z.pos m)) in Hc.
  rewrite round_val_eq.
  assert (HU : ulp_exp (Z.pos m * 2 ^ (e + 149)) 1 = e + 149).
  { unfold ulp_exp. rewrite Z.div_1_r.
    rewrite Zdigits2_shift by lia. lia. }
  rewrite HU, Z.mul_1_l, rne_frac_exact by (apply pow2_pos; lia).
  lia.
Qed.

Lemma round_val_top : round_val (2 ^ 277) 1 = 2 ^ 277.
Proof. vm_compute. reflexivity. Qed.

Lemma round_val_le_top (A B : Z) : round_val A B <= 2 ^ 277.
Proof. unfold round_val. lia. Qed.

Lemma round_val_overflow (A : Z) : 2 ^ 277 <= A -> round_val A 1 = 2 ^ 277.
Proof.
  intros HA.
  pose proof (pow2_pos 277 ltac:(lia)) as P.
  pose proof (round_val_mono (2 ^ 277) 1 A 1 ltac:(lia) ltac:(lia)
                ltac:(lia) ltac:(lia)) as H.
  rewrite round_val_top in H.
  pose proof (round_val_le_top A 1). lia.
Qed.

Lemma ordv_round_id (x : spec_float) :
  nonneg_valid x = true -> round_val (ordv x) 1 = ordv x.
Proof.
  destruct x as [s | s | | s m e]; cbn [nonneg_valid ordv]; intros H.
  - apply round_val_0. lia.
  - apply round_val_top.
  - discriminate.
  - apply andb_prop in H. destruct H as [_ H]. apply round_val_id. exact H.
Qed.

(** The sum of two non-negative binary32 numbers is the rounding of
    the sum of their values. *)
Lemma SFadd_spec (x y : spec_float) :
  nonneg_valid x = true -> nonneg_valid y = true ->
  nonneg_valid (SFadd 24 128 x y) = true
  /\ ordv (SFadd 24 128 x y) = round_val (ordv x + ordv y) 1.
Proof.
  intros Vx Vy.
  destruct x as [sx | sx | | sx mx ex]; [ | | discriminate Vx | ];
    (destruct y as [sy | sy | | sy my ey]; [ | | discriminate Vy | ]);
    match goal with
    | |- context [SFadd _ _ ?x ?y] =>
      pose proof (ordv_round_id x Vx) as Ix;
      pose proof (ordv_round_id y Vy) as Iy;
      pose proof (ordv_nonneg x Vx) as Nx;
      pose proof (ordv_nonneg y Vy) as Ny
    end.
  - split; [destruct sx, sy; reflexivity | ].
    transitivity 0; [destruct sx, sy; reflexivity | ].
    symmetry. apply round_val_0. lia.
  - cbn [SFadd]. split; [exact Vy | ].
    cbn [ordv] in *. rewrite round_val_overflow by lia. reflexivity.
  - cbn [SFadd]. split; [exact Vy | ].
    cbn [ordv] in *. rewrite Z.add_0_l. symmetry. exact Iy.
  - cbn [SFadd]. split; [exact Vx | ].
    cbn [ordv] in *. rewrite round_val_overflow by lia. reflexivity.
  - cbn [nonneg_valid] in Vx, Vy.
    destruct sx; [discriminate Vx | ]. destruct sy; [discriminate Vy | ].
    cbn [SFadd]. split; [reflexivity | ].
    cbn [ordv] in *. rewrite round_val_overflow by lia. reflexivity.
  - cbn [SFadd]. split; [exact Vx | ].
    cbn [ordv] in *. rewrite round_val_overflow by lia. reflexivity.
  - cbn [SFadd]. split; [exact Vx | ].
    cbn [ordv] in *. rewrite Z.add_0_r. symmetry. exact Ix.
  - cbn [SFadd]. split; [exact Vy | ].
    cbn [ordv] in *. rewrite round_val_overflow by lia. reflexivity.
  - cbn [nonneg_valid] in Vx, Vy.
    apply andb_prop in Vx. destruct Vx as [Hsx Vx].
    apply andb_prop in Vy. destruct Vy as [Hsy Vy].
    destruct sx; [discriminate Hsx | ]. destruct sy; [discriminate Hsy | ].
    destruct (SFadd_finite_spec mx ex my ey) as [V O].
    cbv zeta in V, O. split; [exact V | ]. rewrite O.
    destruct (bounded_facts mx ex Vx) as (Hex & _).
    destruct (bounded_facts my ey Vy) as (Hey & _).
    set (ez := Z.min ex ey) in *.
    assert (Hez : -149 <= ez) by (unfold ez; lia).
    unfold frac_num, frac_den.
    replace (Z.max 0 (- (ez + 149))) with 0 by lia.
    replace (Z.max 0 (ez + 149)) with (ez + 149) by lia.
    rewrite Z.pow_0_r. f_equal. cbn [ordv].
    rewrite Z.mul_add_distr_r, <- !Z.mul_assoc, <- !pow2_add
      by (unfold ez; lia).
    f_equal; f_equal; f_equal; lia.
Qed.

(** **** Multiplication *)

Lemma Zdigits2_pow2 (k : Z) : 0 <= k -> Zdigits2 (2 ^ k) = k + 1.
Proof.
  intros Hk. apply Zdigits2_unique; [lia | ].
  replace (k + 1 - 1) with k by lia.
  pose proof (pow2_lt_mono k (k + 1) Hk ltac:(lia)). lia.
Qed.

Lemma SFmul_finite (mx : positive) (ex : Z) (my : positive) (ey : Z) :
  SFmul 24 128 (S754_finite false mx ex) (S754_finite false my ey)
  = binary_round_aux 24 128 false (Z.pos (mx * my)) (ex + ey) loc_Exact.
Proof. reflexivity. Qed.

(** The product of two finite non-negative binary32 numbers is the
    rounding of the product of their values. *)
Lemma SFmul_spec (x y : spec_float) :
  nonneg_valid x = true -> nonneg_valid y = true ->
  is_finite x = true -> is_finite y = true ->
  nonneg_valid (SFmul 24 128 x y) = true
  /\ ordv (SFmul 24 128 x y) = round_val (ordv x * ordv y) (2 ^ 149).
Proof.
  intros Vx Vy Fx Fy.
  pose proof (pow2_pos 149 ltac:(lia)) as P149.
  destruct x as [sx | sx | | sx mx ex]; try discriminate Fx;
    destruct y as [sy | sy | | sy my ey]; try discriminate Fy;
    cbn [SFmul ordv].
  - split; [reflexivity | ]. rewrite Z.mul_0_l, round_val_0; lia.
  - split; [reflexivity | ]. rewrite Z.mul_0_l, round_val_0; lia.
  - split; [reflexivity | ]. rewrite Z.mul_0_r, round_val_0; lia.
  - cbn [nonneg_valid] in Vx, Vy.
    apply andb_prop in Vx. destruct Vx as [Hsx Vx].
    apply andb_prop in Vy. destruct Vy as [Hsy Vy].
    destruct sx; [discriminate Hsx | ]. destruct sy; [discriminate Hsy | ].
    cbn [xorb].
    destruct (bounded_facts mx ex Vx) as (Hex & Hmx & Hnx).
    destruct (bounded_facts my ey Vy) as (Hey & Hmy & Hny).
    pose proof (pow2_pos (ex + 149) ltac:(lia)) as Px.
    pose proof (pow2_pos (ey + 149) ltac:(lia)) as Py.
    set (A := Z.pos mx * 2 ^ (ex + 149) * (Z.pos my * 2 ^ (ey + 149))).
    assert (HA : 0 <= A) by (unfold A; nia).
    rewrite (binary_round_aux_frac false (Z.pos (mx * my)) (ex + ey)
               loc_Exact (Z.pos (mx * my)) 1 A (2 ^ 149)
               (ex + ey + 298) 149).
    + apply finish_round_val; assumption.
    + pose proof (Repr_exact (Z.pos (mx * my)) 1 ltac:(lia) ltac:(lia)) as HR.
      rewrite Z.mul_1_r in HR. exact HR.
    + rewrite fexp32. rewrite Pos2Z.inj_mul.
      destruct (Z.eq_dec ex (-149)) as [Ex | Ex];
        [destruct (Z.eq_dec ey (-149)) as [Ey | Ey]; [lia | ] | ].
      * assert (2 ^ 23 <= Z.pos mx * Z.pos my) by (specialize (Hny ltac:(lia)); nia).
        pose proof (Zdigits2_le (2 ^ 23) (Z.pos mx * Z.pos my)
                      ltac:(lia) ltac:(lia)) as Hd.
        rewrite (Zdigits2_pow2 23) in Hd by lia. lia.
      * assert (2 ^ 23 <= Z.pos mx * Z.pos my) by (specialize (Hnx ltac:(lia)); nia).
        pose proof (Zdigits2_le (2 ^ 23) (Z.pos mx * Z.pos my)
                      ltac:(lia) ltac:(lia)) as Hd.
        rewrite (Zdigits2_pow2 23) in Hd by lia. lia.
    + exact HA.
    + exact P149.
    + lia.
    + lia.
    + lia.
    + unfold A. rewrite Pos2Z.inj_mul.
      replace (ex + ey + 298) with ((ex + 149) + (ey + 149)) by lia.
      rewrite (pow2_add (ex + 149) (ey + 149)) by lia. ring.
Qed.

(** **** Division *)

Lemma new_location_Repr (N D : Z) :
  0 <= N -> 0 < D ->
  Repr N D (shr_record_of_loc (N / D) (new_location D (N mod D))).
Proof.
  intros HN HD. pose proof (Z.mod_pos_bound N D HD) as B.
  unfold Repr. rewrite shr_m_of_loc.
  split; [exact HN | split; [exact HD | split; [reflexivity | ]]].
  set (R := N mod D) in *. clearbody R.
  unfold new_location, new_location_even, new_location_odd.
  destruct (Z.even D) eqn:Hev.
  - destruct (Z.eqb_spec R 0) as [-> | HR].
    + cbn [shr_record_of_loc shr_r shr_s]. split; bool_cases.
    + destruct (Z.compare_spec (2 * R) D) as [Hc | Hc | Hc];
        cbn [shr_record_of_loc shr_r shr_s]; split; bool_cases.
  - assert (Hodd : forall k, D <> 2 * k).
    { intros k Hk. rewrite Hk, Z.even_mul in Hev. discriminate Hev. }
    destruct (Z.eqb_spec R 0) as [-> | HR].
    + cbn [shr_record_of_loc shr_r shr_s]. split; bool_cases.
    + pose proof (Hodd R).
      destruct (Z.compare_spec (2 * R + 1) D) as [Hc | Hc | Hc];
        cbn [shr_record_of_loc shr_r shr_s]; split; bool_cases.
Qed.

Lemma SFdiv_core_spec (m1 : positive) (e1 : Z) (m2 : positive) (e2 : Z) :
  let e' := Z.min (fexp 24 128 (Zdigits2 (Z.pos m1) + e1
                                - (Zdigits2 (Z.pos m2) + e2))) (e1 - e2) in
  let s := e1 - e2 - e' in
  let N := Z.pos m1 * 2 ^ s in
  SFdiv_core_binary 24 128 (Z.pos m1) e1 (Z.pos m2) e2
  = (N / Z.pos m2, e', new_location (Z.pos m2) (N mod Z.pos m2)).
Proof.
  intros e' s N. unfold SFdiv_core_binary. fold e'. fold s.
  assert (Hs : 0 <= s) by (unfold s, e'; lia).
  assert (Hm : match s with
               | 0 => Z.pos m1
               | Z.pos _ => Z.shiftl (Z.pos m1) s
               | Z.neg _ => 0
               end = N).
  { unfold N. destruct s as [ | p | p] eqn:Es.
    - rewrite Z.pow_0_r. lia.
    - rewrite Z.shiftl_mul_pow2 by lia. reflexivity.
    - lia. }
  rewrite Hm. unfold Z.div, Z.modulo.
  destruct (Z.div_eucl N (Z.pos m2)) as [q r]. reflexivity.
Qed.

(** The digits of a quotient. *)
Lemma Zdigits2_div (N D : Z) :
  0 < N -> 0 < D -> Zdigits2 N - Zdigits2 D <= Zdigits2 (N / D).
Proof.
  intros HN HD.
  pose proof (Zdigits2_bounds N HN) as [Nlo _].
  pose proof (Zdigits2_bounds D HD) as [_ Dhi].
  pose proof (Zdigits2_pos N HN). pose proof (Zdigits2_pos D HD).
  pose proof (Zdigits2_nonneg (N / D)).
  destruct (Z.le_gt_cases (Zdigits2 N - Zdigits2 D) 0) as [Hk | Hk]; [lia | ].
  set (k := Zdigits2 N - Zdigits2 D - 1).
  assert (Hk0 : 0 <= k) by (unfold k; lia).
  assert (Hq : 2 ^ k <= N / D).
  { apply Z.div_le_lower_bound; [lia | ].
    assert (E : 2 ^ (Zdigits2 N - 1) = 2 ^ Zdigits2 D * 2 ^ k).
    { rewrite <- pow2_add by lia. f_equal. unfold k. lia. }
    pose proof (pow2_pos k Hk0). nia. }
  pose proof (Zdigits2_le (2 ^ k) (N / D)
                ltac:(pose proof (pow2_pos k Hk0); lia) Hq) as Hd.
  rewrite Zdigits2_pow2 in Hd by lia. unfold k in Hd. lia.
Qed.

Lemma SFdiv_finite (mx : positive) (ex : Z) (my : positive) (ey : Z) :
  SFdiv 24 128 (S754_finite false mx ex) (S754_finite false my ey)
  = let '(mz, ez, lz) :=
        SFdiv_core_binary 24 128 (Z.pos mx) ex (Z.pos my) ey in
    binary_round_aux 24 128 false mz ez lz.
Proof. reflexivity. Qed.

(** The quotient of a finite non-negative binary32 number by a finite
    positive one is the rounding of the quotient of their values. *)
Lemma SFdiv_spec (x : spec_float) (my : positive) (ey : Z) :
  nonneg_valid x = true -> is_finite x = true ->
  bounded 24 128 my ey = true ->
  let y := S754_finite false my ey in
  nonneg_valid (SFdiv 24 128 x y) = true
  /\ ordv (SFdiv 24 128 x y) = round_val (ordv x * 2 ^ 149) (ordv y).
Proof.
  intros Vx Fx Vy y.
  pose proof (pow2_pos 149 ltac:(lia)) as P149.
  pose proof (ordv_finite_lt my ey Vy) as Oy.
  destruct x as [sx | sx | | mx_s mx ex]; try discriminate Fx.
  - cbn [SFdiv ordv y]. split; [reflexivity | ].
    rewrite Z.mul_0_l, round_val_0; lia.
  - cbn [nonneg_valid] in Vx.
    apply andb_prop in Vx. destruct Vx as [Hsx Vx].
    destruct mx_s; [discriminate Hsx | ].
    unfold y. rewrite SFdiv_finite, SFdiv_core_spec.
    destruct (bounded_facts mx ex Vx) as (Hex & Hmx & Hnx).
    destruct (bounded_facts my ey Vy) as (Hey & Hmy & Hny).
    set (dx := Zdigits2 (Z.pos mx)). set (dy := Zdigits2 (Z.pos my)).
    set (e' := Z.min (fexp 24 128 (dx + ex - (dy + ey))) (ex - ey)).
    set (s := ex - ey - e').
    assert (Hs : 0 <= s) by (unfold s, e'; lia).
    pose proof (pow2_pos s Hs) as Ps.
    set (N := Z.pos mx * 2 ^ s).
    assert (HN : 0 < N) by (unfold N; nia).
    pose proof (pow2_pos (ex + 149) ltac:(lia)) as Px.
    pose proof (pow2_pos (ey + 149) ltac:(lia)) as Py.
    set (A := Z.pos mx * 2 ^ (ex + 149) * 2 ^ 149).
    set (B := Z.pos my * 2 ^ (ey + 149)).
    assert (HA : 0 <= A) by (unfold A; nia).
    assert (HB : 0 < B) by (unfold B; nia).
    cbn [ordv].
    rewrite (binary_round_aux_frac false (N / Z.pos my) e'
               (new_location (Z.pos my) (N mod Z.pos my)) N (Z.pos my) A B
               (Z.max 0 (e' + 149)) (Z.max 0 (- (e' + 149)))).
    + apply finish_round_val; assumption.
    + apply new_location_Repr; lia.
    + pose proof (Zdigits2_div N (Z.pos my) HN ltac:(lia)) as Hd.
      unfold N in Hd at 1. rewrite Zdigits2_shift in Hd by lia.
      fold dx dy in Hd. unfold s, e' in Hd. unfold e'.
      rewrite !fexp32 in *.
      generalize dependent (Zdigits2 (N / Z.pos my)). intros dq Hd.
      clearbody dx dy. clear - Hd. lia.
    + exact HA.
    + exact HB.
    + lia.
    + lia.
    + lia.
    + unfold A, B, N.
      assert (PP : 2 ^ (ex + 149) * 2 ^ 149 * 2 ^ Z.max 0 (- (e' + 149))
                   = 2 ^ s * 2 ^ (ey + 149) * 2 ^ Z.max 0 (e' + 149)).
      { rewrite <- !pow2_add by lia. f_equal. unfold s. lia. }
      set (p1 := 2 ^ (ex + 149)) in *. set (p2 := 2 ^ 149) in *.
      set (p3 := 2 ^ Z.max 0 (- (e' + 149))) in *.
      set (p4 := 2 ^ s) in *. set (p5 := 2 ^ (ey + 149)) in *.
      set (p6 := 2 ^ Z.max 0 (e' + 149)) in *.
      clearbody p1 p2 p3 p4 p5 p6.
      replace (Z.pos mx * p1 * p2 * Z.pos my * p3)
        with (Z.pos mx * Z.pos my * (p1 * p2 * p3)) by ring.
      rewrite PP. ring.
Qed.

End Rounding.

(** ** Order, signs and the risk terms *)

Module Order.
Import F32 FMath Spec RoundingDefs Rounding OrderDefs.
Local Open Scope f32_scope.

(** *** Signs *)

Lemma finish_with_sign (sx : bool) (M E : Z) :
  finish 24 128 sx M E = with_sign sx (finish 24 128 false M E).
Proof.
  unfold finish. destruct (shr_fexp 24 128 M E loc_Exact) as [mrs e].
  destruct (shr_m mrs); [reflexivity | | reflexivity].
  destruct (Z.leb e (128 - 24)); reflexivity.
Qed.

Lemma finish_not_nan (M E : Z) :
  0 <= M -> finish 24 128 false M E <> S754_nan.
Proof.
  intros HM. unfold finish, shr_fexp.
  pose proof (Repr_exact M 1 HM ltac:(lia)) as HR.
  destruct (Repr_shr _ _ _ E
              (fexp 24 128 (Zdigits2 M + E) - E) HR) as [HR' _].
  apply Repr_nonneg in HR'.
  destruct (shr (shr_record_of_loc M loc_Exact) E
              (fexp 24 128 (Zdigits2 M + E) - E)) as [mrs e].
  cbn [fst] in HR'.
  destruct (shr_m mrs); [discriminate | | lia].
  destruct (Z.leb e (128 - 24)); discriminate.
Qed.

(** The result of the code's rounding carries the sign it was given
    and is never NaN. *)
Lemma binary_round_aux_sign (sx : bool) (mx ex : Z) (lx : location)
    (N D : Z) :
  Repr N D (shr_record_of_loc mx lx) ->
  exists z, binary_round_aux 24 128 sx mx ex lx = with_sign sx z
            /\ z <> S754_nan.
Proof.
  intros HR. rewrite (binary_round_aux_Repr 24 128 sx mx ex lx N D HR).
  rewrite finish_with_sign. eexists. split; [reflexivity | ].
  apply finish_not_nan.
  destruct HR as (HN & HD & _).
  set (n := Z.max 0 (fexp 24 128 (Zdigits2 mx + ex) - ex)).
  pose proof (pow2_pos n ltac:(lia)).
  pose proof (rne_frac_bounds N (D * 2 ^ n) ltac:(nia)) as [B _].
  assert (0 <= N / (D * 2 ^ n)) by (apply Z.div_pos; nia).
  lia.
Qed.

Lemma nonneg_valid_valid (x : float) :
  nonneg_valid x = true -> valid x = true.
Proof.
  destruct x as [s | s | | s m e]; cbn [nonneg_valid]; intros H;
    try reflexivity; try discriminate H.
  apply andb_prop in H. destruct H as [_ H]. exact H.
Qed.

Lemma valid_with_sign (s : bool) (x : float) :
  valid (with_sign s x) = valid x.
Proof. destruct x; reflexivity. Qed.

(** Every float narrowed from a double is a binary32 number. *)
Lemma to_f32_valid (x : F64.float) : valid (F64.to_f32 x) = true.
Proof.
  destruct x as [s | s | | s m e]; try reflexivity.
  cbn [F64.to_f32].
  change (binary_round prec emax s m e) with (binary_round 24 128 s m e).
  rewrite binary_round_frac, finish_with_sign, valid_with_sign.
  rewrite <- binary_round_frac.
  apply nonneg_valid_valid. apply binary_round_spec.
Qed.


(** *** Order *)

Lemma leb_ordv (x y : float) :
  nonneg_valid x = true -> nonneg_valid y = true ->
  (x <=? y) = Z.leb (ordv x) (ordv y).
Proof.
  intros Vx Vy. unfold leb, SFleb. rewrite (SFcompare_ordv x y Vx Vy).
  unfold Z.leb. destruct (ordv x ?= ordv y)%Z; reflexivity.
Qed.

Lemma ltb_ordv (x y : float) :
  nonneg_valid x = true -> nonneg_valid y = true ->
  (x <? y) = Z.ltb (ordv x) (ordv y).
Proof.
  intros Vx Vy. unfold ltb, SFltb. rewrite (SFcompare_ordv x y Vx Vy).
  unfold Z.ltb. destruct (ordv x ?= ordv y)%Z; reflexivity.
Qed.

Lemma valid_cases (x : float) :
  valid x = true ->
  x = S754_nan \/ negative x = true \/ nonneg_valid x = true.
Proof.
  destruct x as [s | s | | s m e]; intros H.
  - right; right. reflexivity.
  - destruct s; [right; left | right; right]; reflexivity.
  - left. reflexivity.
  - destruct s; [right; left; reflexivity | right; right].
    cbn [nonneg_valid negb andb]. exact H.
Qed.

Lemma negative_lt (x y : float) :
  negative x = true -> nonneg_valid y = true -> SFcompare x y = Some Lt.
Proof.
  destruct x as [sx | sx | | sx mx ex]; cbn [negative]; intros Hx;
    try discriminate Hx; subst sx;
    (destruct y as [sy | sy | | sy my ey]; cbn [nonneg_valid]; intros Hy;
     [reflexivity
     | destruct sy; [discriminate Hy | reflexivity]
     | discriminate Hy
     | destruct sy; [discriminate Hy | reflexivity]]).
Qed.

Lemma nonneg_gt_negative (x y : float) :
  nonneg_valid x = true -> negative y = true -> SFcompare x y = Some Gt.
Proof.
  intros Hx.
  destruct y as [sy | sy | | sy my ey]; cbn [negative]; intros Hy;
    try discriminate Hy; subst sy;
    (destruct x as [sx | sx | | sx mx ex]; cbn [nonneg_valid] in Hx;
     [reflexivity
     | destruct sx; [discriminate Hx | reflexivity]
     | discriminate Hx
     | destruct sx; [discriminate Hx | reflexivity]]).
Qed.

Lemma one_nonneg_valid : nonneg_valid one = true.
Proof. reflexivity. Qed.

Lemma zero_nonneg_valid : nonneg_valid zero = true.
Proof. reflexivity. Qed.

Lemma ordv_one : ordv one = 2 ^ 149.
Proof. reflexivity. Qed.

Lemma nonneg_below_top_finite (x : float) :
  nonneg_valid x = true -> ordv x < 2 ^ 277 -> is_finite x = true.
Proof.
  destruct x as [s | s | | s m e]; cbn [nonneg_valid ordv is_finite];
    intros H1 H2; try reflexivity; [lia | discriminate H1].
Qed.

(** *** Clamping to [0,1] *)

Lemma Clamp_nan : Clamp S754_nan zero one = one.
Proof. reflexivity. Qed.

Lemma Clamp_negative (x : float) :
  negative x = true -> Clamp x zero one = zero.
Proof.
  intros Hx. unfold Clamp, Max, Min, ltb, SFltb.
  rewrite (negative_lt x one Hx one_nonneg_valid).
  rewrite (nonneg_gt_negative zero x zero_nonneg_valid Hx). reflexivity.
Qed.

Lemma Clamp_nonneg (x : float) :
  nonneg_valid x = true ->
  nonneg_valid (Clamp x zero one) = true
  /\ ordv (Clamp x zero one) = Z.min (ordv x) (2 ^ 149)
  /\ is_finite (Clamp x zero one) = true.
Proof.
  intros Vx. unfold Clamp, Max, Min.
  rewrite (ltb_ordv x one Vx one_nonneg_valid), ordv_one.
  pose proof (pow2_pos 149 ltac:(lia)) as P.
  pose proof (pow2_lt_mono 149 277 ltac:(lia) ltac:(lia)) as P'.
  destruct (Z.ltb_spec (ordv x) (2 ^ 149)) as [H1 | H1].
  - rewrite (ltb_ordv zero x zero_nonneg_valid Vx).
    change (ordv zero) with 0%Z.
    destruct (Z.ltb_spec 0 (ordv x)) as [H0 | H0].
    + split; [exact Vx | split; [lia | ]].
      apply nonneg_below_top_finite; [exact Vx | lia].
    + pose proof (ordv_nonneg x Vx).
      split; [reflexivity | split; [ | reflexivity]].
      change (ordv zero) with 0%Z. lia.
  - change (zero <? one) with true. cbv iota.
    split; [reflexivity | split; [ | reflexivity]].
    rewrite ordv_one. lia.
Qed.


(** *** Monotone arithmetic *)

Lemma nonneg_finite_split (x : float) :
  nonneg_finite x = true -> nonneg_valid x = true /\ is_finite x = true.
Proof. intros H. apply andb_prop in H. exact H. Qed.

Lemma Le_refl (x : float) : Le x x.
Proof. left. reflexivity. Qed.

Lemma mul_nonneg (w p : float) :
  nonneg_finite w = true -> nonneg_finite p = true ->
  nonneg_valid (w * p) = true
  /\ ordv (w * p) = round_val (ordv w * ordv p) (2 ^ 149).
Proof.
  intros Hw Hp.
  destruct (nonneg_finite_split w Hw) as [Vw Fw].
  destruct (nonneg_finite_split p Hp) as [Vp Fp].
  exact (SFmul_spec w p Vw Vp Fw Fp).
Qed.

Lemma add_nonneg (x y : float) :
  nonneg_valid x = true -> nonneg_valid y = true ->
  nonneg_valid (x + y) = true
  /\ ordv (x + y) = round_val (ordv x + ordv y) 1.
Proof. intros Vx Vy. exact (SFadd_spec x y Vx Vy). Qed.

Lemma add_nan_r (x : float) : x + S754_nan = S754_nan.
Proof. destruct x; reflexivity. Qed.

Lemma add_nan_l (x : float) : S754_nan + x = S754_nan.
Proof. reflexivity. Qed.

Lemma mul_nan_r (x : float) : x * S754_nan = S754_nan.
Proof. destruct x; reflexivity. Qed.

Lemma add_nn_or_nan (x y : float) :
  nn_or_nan x -> nn_or_nan y -> nn_or_nan (x + y).
Proof.
  intros [-> | Vx] [-> | Vy].
  - left. reflexivity.
  - left. reflexivity.
  - left. apply add_nan_r.
  - right. apply add_nonneg; assumption.
Qed.

Lemma mul_nn_or_nan (w p : float) :
  nonneg_finite w = true ->
  p = S754_nan \/ nonneg_finite p = true ->
  nn_or_nan (w * p).
Proof.
  intros Hw [-> | Hp].
  - left. apply mul_nan_r.
  - right. apply mul_nonneg; assumption.
Qed.

Lemma Le_mul (w p1 p2 : float) :
  nonneg_finite w = true ->
  nonneg_finite p1 = true -> nonneg_finite p2 = true ->
  ordv p1 <= ordv p2 ->
  Le (w * p1) (w * p2).
Proof.
  intros Hw H1 H2 Hle. right.
  destruct (mul_nonneg w p1 Hw H1) as [V1 O1].
  destruct (mul_nonneg w p2 Hw H2) as [V2 O2].
  split; [exact V1 | split; [exact V2 | ]].
  rewrite O1, O2.
  destruct (nonneg_finite_split w Hw) as [Vw _].
  destruct (nonneg_finite_split p1 H1) as [Vp1 _].
  pose proof (ordv_nonneg w Vw). pose proof (ordv_nonneg p1 Vp1).
  pose proof (pow2_pos 149 ltac:(lia)) as P.
  apply round_val_mono; try nia.
Qed.

Lemma Le_add_l (x y c : float) :
  Le x y -> nn_or_nan c -> Le (x + c) (y + c).
Proof.
  intros [-> | (Vx & Vy & Hle)] Hc; [apply Le_refl | ].
  destruct Hc as [-> | Vc].
  - left. rewrite !add_nan_r. reflexivity.
  - right.
    destruct (add_nonneg x c Vx Vc) as [V1 O1].
    destruct (add_nonneg y c Vy Vc) as [V2 O2].
    split; [exact V1 | split; [exact V2 | ]].
    rewrite O1, O2.
    pose proof (ordv_nonneg x Vx). pose proof (ordv_nonneg c Vc).
    apply round_val_mono; lia.
Qed.

Lemma Le_add_r (x y c : float) :
  Le x y -> nn_or_nan c -> Le (c + x) (c + y).
Proof.
  intros [-> | (Vx & Vy & Hle)] Hc; [apply Le_refl | ].
  destruct Hc as [-> | Vc].
  - left. reflexivity.
  - right.
    destruct (add_nonneg c x Vc Vx) as [V1 O1].
    destruct (add_nonneg c y Vc Vy) as [V2 O2].
    split; [exact V1 | split; [exact V2 | ]].
    rewrite O1, O2.
    pose proof (ordv_nonneg x Vx). pose proof (ordv_nonneg c Vc).
    apply round_val_mono; lia.
Qed.

Lemma SFcompare_refl (x : float) :
  x <> S754_nan -> SFcompare x x = Some Eq.
Proof.
  destruct x as [s | s | | s m e]; intros H.
  - reflexivity.
  - destruct s; reflexivity.
  - congruence.
  - cbn [SFcompare]. rewrite Z.compare_refl.
    change (PosDef.Pos.compare_cont Eq m m) with (Pos.compare m m).
    rewrite Pos.compare_refl. destruct s; reflexivity.
Qed.

Lemma Clamp_leb_refl (x : float) :
  (Clamp x zero one <=? Clamp x zero one) = true.
Proof.
  destruct (Clamp01_cases x) as [-> | [-> | (-> & H0 & H1)]];
    try reflexivity.
  unfold leb, SFleb. rewrite SFcompare_refl; [reflexivity | ].
  intros ->. discriminate H1.
Qed.

Lemma Le_Clamp (x y : float) :
  Le x y -> (Clamp x zero one <=? Clamp y zero one) = true.
Proof.
  intros [-> | (Vx & Vy & Hle)]; [apply Clamp_leb_refl | ].
  destruct (Clamp_nonneg x Vx) as (V1 & O1 & _).
  destruct (Clamp_nonneg y Vy) as (V2 & O2 & _).
  rewrite (leb_ordv _ _ V1 V2), O1, O2. apply Z.leb_le. lia.
Qed.


(** *** The four risk terms *)

Lemma leb_not_nan (x y : float) :
  (x <=? y) = true -> x <> S754_nan /\ y <> S754_nan.
Proof.
  unfold leb, SFleb. intros H. split; intros ->.
  - discriminate H.
  - destruct x; discriminate H.
Qed.

(** Of two binary32 numbers in order, either the smaller is negative,
    or both are non-negative, or both are negative. *)
Lemma leb_cases (x y : float) :
  valid x = true -> valid y = true -> (x <=? y) = true ->
  negative x = true
  \/ (nonneg_valid x = true /\ nonneg_valid y = true
      /\ ordv x <= ordv y).
Proof.
  intros Vx Vy Hle.
  destruct (leb_not_nan x y Hle) as [Nx Ny].
  destruct (valid_cases x Vx) as [E | [Hx | Hx]]; [congruence | left; exact Hx | ].
  destruct (valid_cases y Vy) as [E | [Hy | Hy]]; [congruence | | ].
  - unfold leb, SFleb in Hle.
    rewrite (nonneg_gt_negative x y Hx Hy) in Hle. discriminate Hle.
  - right. rewrite (leb_ordv x y Hx Hy) in Hle. apply Z.leb_le in Hle.
    auto.
Qed.

Lemma round_val_nonneg (A B : Z) : 0 <= A -> 0 < B -> 0 <= round_val A B.
Proof.
  intros HA HB. rewrite <- (round_val_0 B HB).
  apply round_val_mono; nia.
Qed.

(** The proximity score of a distance. *)
Lemma prox_one : one / one = one.
Proof. vm_compute. reflexivity. Qed.

Lemma prox_negative (d : float) :
  negative d = true -> one / Max one d = one.
Proof.
  intros Hd. unfold Max, ltb, SFltb.
  rewrite (negative_lt d one Hd one_nonneg_valid). apply prox_one.
Qed.

Lemma round_val_unit : round_val (2 ^ 149 * 2 ^ 149) (2 ^ 149) = 2 ^ 149.
Proof. vm_compute. reflexivity. Qed.

Lemma prox_nonneg (d : float) :
  nonneg_valid d = true ->
  nonneg_valid (one / Max one d) = true
  /\ ordv (one / Max one d)
     = (if Z.ltb (ordv d) (2 ^ 149) then 2 ^ 149
        else if Z.eqb (ordv d) (2 ^ 277) then 0
             else round_val (2 ^ 149 * 2 ^ 149) (ordv d)).
Proof.
  intros Vd. unfold Max. rewrite (ltb_ordv d one Vd one_nonneg_valid).
  rewrite ordv_one.
  pose proof (pow2_pos 149 ltac:(lia)) as P.
  pose proof (pow2_lt_mono 149 277 ltac:(lia) ltac:(lia)) as P'.
  destruct (Z.ltb_spec (ordv d) (2 ^ 149)) as [H1 | H1].
  - rewrite prox_one. split; reflexivity.
  - destruct d as [s | s | | s m e]; cbn [nonneg_valid] in Vd.
    + cbn [ordv] in H1. lia.
    + destruct s; [discriminate Vd | ].
      cbn [ordv]. rewrite Z.eqb_refl. split; reflexivity.
    + discriminate Vd.
    + apply andb_prop in Vd. destruct Vd as [Hs Vd].
      destruct s; [discriminate Hs | ].
      pose proof (ordv_finite_lt m e Vd) as Hlt.
      destruct (SFdiv_spec one m e one_nonneg_valid eq_refl Vd) as [V O].
      cbv zeta in V, O. split; [exact V | ].
      change (one / S754_finite false m e)
        with (SFdiv 24 128 one (S754_finite false m e)).
      rewrite O, ordv_one. cbn [ordv].
      destruct (Z.eqb_spec (Z.pos m * 2 ^ (e + 149)) (2 ^ 277)); [lia | ].
      reflexivity.
Qed.

Lemma prox_bound (d : float) :
  nonneg_valid d = true -> ordv (one / Max one d) <= 2 ^ 149.
Proof.
  intros Vd. destruct (prox_nonneg d Vd) as [_ O]. rewrite O.
  pose proof (pow2_pos 149 ltac:(lia)) as P.
  pose proof (ordv_nonneg d Vd) as Hd.
  destruct (Z.ltb_spec (ordv d) (2 ^ 149)) as [H1 | H1]; [lia | ].
  destruct (Z.eqb_spec (ordv d) (2 ^ 277)) as [H2 | H2]; [lia | ].
  pose proof round_val_unit as U.
  set (p := 2 ^ 149) in *. clearbody p.
  apply Z.le_trans with (round_val (p * p) p);
    [apply round_val_mono; nia | lia].
Qed.

(** The score of a valid distance that is not NaN is a finite
    non-negative binary32 number, at most 1. *)
Lemma prox_risk (d : float) :
  valid d = true -> d <> S754_nan ->
  nonneg_finite (one / Max one d) = true
  /\ ordv (one / Max one d) <= 2 ^ 149.
Proof.
  intros Vd Nd.
  pose proof (pow2_lt_mono 149 277 ltac:(lia) ltac:(lia)) as P'.
  destruct (valid_cases d Vd) as [E | [Hd | Hd]]; [congruence | | ].
  - rewrite (prox_negative d Hd). split; [reflexivity | ].
    rewrite ordv_one. lia.
  - destruct (prox_nonneg d Hd) as [V _].
    pose proof (prox_bound d Hd) as B.
    split; [ | exact B].
    unfold nonneg_finite. rewrite V. cbn [andb].
    apply nonneg_below_top_finite; [exact V | lia].
Qed.

(** A nearer rival or pursuer never scores less. *)
Lemma prox_antitone (d1 d2 : float) :
  valid d1 = true -> valid d2 = true -> (d1 <=? d2) = true ->
  ordv (one / Max one d2) <= ordv (one / Max one d1).
Proof.
  intros V1 V2 Hle.
  destruct (leb_not_nan d1 d2 Hle) as [N1 N2].
  pose proof (pow2_pos 149 ltac:(lia)) as P.
  destruct (leb_cases d1 d2 V1 V2 Hle) as [Hn | (H1 & H2 & Ho)].
  - rewrite (prox_negative d1 Hn), ordv_one.
    apply (prox_risk d2 V2 N2).
  - destruct (prox_nonneg d1 H1) as [_ O1].
    destruct (prox_nonneg d2 H2) as [_ O2].
    pose proof (prox_bound d2 H2) as B2.
    pose proof (ordv_nonneg d1 H1) as R1.
    pose proof (ordv_nonneg d2 H2) as R2.
    rewrite O1. rewrite O2 in *.
    set (p := 2 ^ 149) in *. set (top := 2 ^ 277) in *.
    assert (Ptop : 0 < top) by (apply pow2_pos; lia).
    clearbody p top.
    destruct (Z.ltb_spec (ordv d1) p) as [A1 | A1]; [exact B2 | ].
    destruct (Z.ltb_spec (ordv d2) p) as [A2 | A2]; [lia | ].
    destruct (Z.eqb_spec (ordv d2) top) as [E2 | E2].
    + destruct (Z.eqb_spec (ordv d1) top); [lia | ].
      apply round_val_nonneg; nia.
    + destruct (Z.eqb_spec (ordv d1) top); [lia | ].
      apply round_val_mono; nia.
Qed.


Lemma Clamp_signed_true (z : float) :
  z <> S754_nan -> Clamp (with_sign true z) zero one = zero.
Proof.
  destruct z as [s | s | | s m e]; intros H; cbn [with_sign].
  - reflexivity.
  - apply Clamp_negative. reflexivity.
  - congruence.
  - apply Clamp_negative. reflexivity.
Qed.

Lemma div_negative_positive (mx : positive) (ex : Z) (my : positive) (ey : Z) :
  exists z,
    S754_finite true mx ex / S754_finite false my ey = with_sign true z
    /\ z <> S754_nan.
Proof.
  change (S754_finite true mx ex / S754_finite false my ey)
    with (let '(mz, ez, lz) :=
              SFdiv_core_binary 24 128 (Z.pos mx) ex (Z.pos my) ey in
          binary_round_aux 24 128 true mz ez lz).
  rewrite SFdiv_core_spec.
  eapply binary_round_aux_sign.
  apply new_location_Repr; [ | lia].
  apply Z.mul_nonneg_nonneg; [lia | ].
  apply Z.pow_nonneg. lia.
Qed.

(** The speed risk, for a finite positive [MaxSpeedKmh]. *)
Lemma speed_risk_negative (speed max : float) :
  positive_finite max = true -> valid speed = true ->
  negative speed = true ->
  Clamp (speed / max) zero one = zero.
Proof.
  intros Hm Vs Hs.
  destruct max as [ | | | sm my ey]; try discriminate Hm.
  cbn [positive_finite] in Hm. apply andb_prop in Hm. destruct Hm as [Hsm Hm].
  destruct sm; [discriminate Hsm | ].
  destruct speed as [s | s | | s mx ex]; cbn [negative] in Hs;
    try discriminate Hs; subst s.
  - apply Clamp_negative. reflexivity.
  - destruct (div_negative_positive mx ex my ey) as (z & -> & Hz).
    apply Clamp_signed_true. exact Hz.
Qed.

Lemma speed_risk_nonneg (speed max : float) :
  positive_finite max = true -> nonneg_valid speed = true ->
  let sr := Clamp (speed / max) zero one in
  nonneg_finite sr = true
  /\ ordv sr = (if Z.eqb (ordv speed) (2 ^ 277) then 2 ^ 149
                else Z.min (round_val (ordv speed * 2 ^ 149) (ordv max))
                           (2 ^ 149)).
Proof.
  intros Hm Vs sr.
  destruct max as [ | | | sm my ey]; try discriminate Hm.
  cbn [positive_finite] in Hm. apply andb_prop in Hm. destruct Hm as [Hsm Hm].
  destruct sm; [discriminate Hsm | ].
  pose proof (pow2_pos 277 ltac:(lia)) as P.
  assert (Hq : nonneg_valid (speed / S754_finite false my ey) = true
               /\ ordv (speed / S754_finite false my ey)
                  = (if Z.eqb (ordv speed) (2 ^ 277) then 2 ^ 277
                     else round_val (ordv speed * 2 ^ 149)
                                    (ordv (S754_finite false my ey)))).
  { destruct (Z.eqb_spec (ordv speed) (2 ^ 277)) as [E | E].
    - destruct speed as [s | s | | s mx ex]; cbn [nonneg_valid] in Vs.
      + cbn [ordv] in E. lia.
      + destruct s; [discriminate Vs | ]. split; reflexivity.
      + discriminate Vs.
      + apply andb_prop in Vs. destruct Vs as [_ Vs].
        pose proof (ordv_finite_lt mx ex Vs). cbn [ordv] in E. lia.
    - assert (Fs : is_finite speed = true).
      { apply nonneg_below_top_finite; [exact Vs | ].
        pose proof (ordv_nonneg speed Vs). lia. }
      exact (SFdiv_spec speed my ey Vs Fs Hm). }
  destruct Hq as [Vq Oq].
  destruct (Clamp_nonneg _ Vq) as (Vc & Oc & Fc).
  fold sr in Vc, Oc, Fc.
  split.
  - unfold nonneg_finite. rewrite Vc, Fc. reflexivity.
  - rewrite Oc, Oq.
    pose proof (pow2_lt_mono 149 277 ltac:(lia) ltac:(lia)).
    destruct (Z.eqb_spec (ordv speed) (2 ^ 277)); [lia | reflexivity].
Qed.

(** The speed risk is a finite non-negative binary32 number. *)
Lemma speed_risk_finite (speed max : float) :
  positive_finite max = true -> valid speed = true ->
  nonneg_finite (Clamp (speed / max) zero one) = true.
Proof.
  intros Hm Vs.
  destruct (valid_cases speed Vs) as [-> | [Hs | Hs]].
  - destruct max as [ | | | sm my ey]; try discriminate Hm. reflexivity.
  - rewrite (speed_risk_negative speed max Hm Vs Hs). reflexivity.
  - apply (speed_risk_nonneg speed max Hm Hs).
Qed.

(** A higher speed never has a lower speed risk. *)
Lemma speed_risk_mono (s1 s2 max : float) :
  positive_finite max = true ->
  valid s1 = true -> valid s2 = true -> (s1 <=? s2) = true ->
  ordv (Clamp (s1 / max) zero one) <= ordv (Clamp (s2 / max) zero one).
Proof.
  intros Hm V1 V2 Hle.
  destruct (leb_not_nan s1 s2 Hle) as [N1 N2].
  pose proof (speed_risk_finite s2 max Hm V2) as F2.
  destruct (nonneg_finite_split _ F2) as [NV2 _].
  destruct (leb_cases s1 s2 V1 V2 Hle) as [Hn | (H1 & H2 & Ho)].
  - rewrite (speed_risk_negative s1 max Hm V1 Hn).
    change (ordv zero) with 0%Z. apply (ordv_nonneg _ NV2).
  - destruct (speed_risk_nonneg s1 max Hm H1) as [_ O1].
    destruct (speed_risk_nonneg s2 max Hm H2) as [_ O2].
    cbv zeta in O1, O2. rewrite O1, O2.
    pose proof (ordv_nonneg s1 H1) as R1.
    pose proof (ordv_nonneg s2 H2) as R2.
    assert (Hmax : 0 < ordv max).
    { destruct max as [ | | | sm my ey]; try discriminate Hm.
      cbn [positive_finite] in Hm. apply andb_prop in Hm.
      destruct Hm as [_ Hm]. apply (ordv_finite_lt my ey Hm). }
    set (p := 2 ^ 149) in *. set (top := 2 ^ 277) in *.
    assert (Pp : 0 < p) by (apply pow2_pos; lia).
    clearbody p top.
    destruct (Z.eqb_spec (ordv s2) top) as [E2 | E2].
    + destruct (Z.eqb_spec (ordv s1) top); lia.
    + destruct (Z.eqb_spec (ordv s1) top); [lia | ].
      apply Z.min_le_compat_r.
      apply round_val_mono; [nia | lia | lia | ].
      apply Z.mul_le_mono_nonneg_r; [lia | ].
      apply Z.mul_le_mono_nonneg_r; lia.
Qed.

(** The damage risk. *)
Lemma damage_risk_finite (damage : float) :
  valid damage = true -> nonneg_finite (Clamp damage zero one) = true.
Proof.
  intros Vd.
  destruct (valid_cases damage Vd) as [-> | [Hd | Hd]].
  - reflexivity.
  - rewrite (Clamp_negative damage Hd). reflexivity.
  - destruct (Clamp_nonneg damage Hd) as (V & _ & F).
    unfold nonneg_finite. rewrite V, F. reflexivity.
Qed.

Lemma damage_risk_mono (d1 d2 : float) :
  valid d1 = true -> valid d2 = true -> (d1 <=? d2) = true ->
  ordv (Clamp d1 zero one) <= ordv (Clamp d2 zero one).
Proof.
  intros V1 V2 Hle.
  pose proof (damage_risk_finite d2 V2) as F2.
  destruct (nonneg_finite_split _ F2) as [NV2 _].
  destruct (leb_cases d1 d2 V1 V2 Hle) as [Hn | (H1 & H2 & Ho)].
  - rewrite (Clamp_negative d1 Hn).
    change (ordv zero) with 0%Z. apply (ordv_nonneg _ NV2).
  - destruct (Clamp_nonneg d1 H1) as (_ & O1 & _).
    destruct (Clamp_nonneg d2 H2) as (_ & O2 & _).
    rewrite O1, O2. lia.
Qed.

(** *** Multiplication by one *)

Lemma round_val_ext (A1 B1 A2 B2 : Z) :
  (0 <= A1)%Z -> (0 < B1)%Z -> (0 < B2)%Z -> (A1 * B2 = A2 * B1)%Z ->
  round_val A1 B1 = round_val A2 B2.
Proof.
  intros HA H1 H2 Heq.
  assert (HA2 : (0 <= A2)%Z) by nia.
  pose proof (round_val_mono A1 B1 A2 B2 HA H1 H2 ltac:(lia)).
  pose proof (round_val_mono A2 B2 A1 B1 HA2 H2 H1 ltac:(lia)).
  lia.
Qed.

Lemma binary_round_aux_with_sign (sx : bool) (mx ex : Z) (lx : location) :
  binary_round_aux 24 128 sx mx ex lx
  = with_sign sx (binary_round_aux 24 128 false mx ex lx).
Proof.
  unfold binary_round_aux.
  destruct (shr_fexp 24 128 mx ex lx) as [mrs' e'].
  destruct (shr_fexp 24 128
              (round_nearest_even (shr_m mrs') (loc_of_shr_record mrs'))
              e' loc_Exact) as [mrs'' e''].
  destruct (shr_m mrs''); [reflexivity | | reflexivity].
  destruct (Z.leb e'' (128 - 24)); reflexivity.
Qed.

(** Two non-negative binary32 numbers of the same value are the same
    float, up to the sign of a zero. *)
Lemma ordv_inj (x : float) (m : positive) (e : Z) :
  nonneg_valid x = true -> bounded 24 128 m e = true ->
  ordv x = ordv (S754_finite false m e) -> x = S754_finite false m e.
Proof.
  intros Vx Vy Heq.
  apply compare_Eq_finite.
  rewrite (SFcompare_ordv x (S754_finite false m e) Vx).
  - rewrite Heq, Z.compare_refl. reflexivity.
  - cbn [nonneg_valid negb andb]. exact Vy.
Qed.

(** Multiplying a binary32 number by 1.0f changes nothing. *)
Lemma mul_one (x : float) : valid x = true -> x * one = x.
Proof.
  intros Vx. destruct x as [s | s | | s m e].
  - destruct s; reflexivity.
  - destruct s; reflexivity.
  - reflexivity.
  - assert (Hpos : S754_finite false m e * one = S754_finite false m e).
    { assert (V : nonneg_finite (S754_finite false m e) = true).
      { unfold nonneg_finite. cbn [nonneg_valid is_finite negb andb].
        rewrite andb_true_r. exact Vx. }
      destruct (mul_nonneg (S754_finite false m e) one V eq_refl) as [V1 O1].
      apply ordv_inj; [exact V1 | exact Vx | ].
      rewrite O1, ordv_one.
      destruct (nonneg_finite_split _ V) as [V' _].
      rewrite <- (ordv_round_id _ V') at 2.
      pose proof (ordv_nonneg _ V').
      pose proof (pow2_pos 149 ltac:(lia)).
      apply round_val_ext; nia. }
    destruct s; [ | exact Hpos].
    change (S754_finite true m e * one)
      with (binary_round_aux 24 128 true (Z.pos (m * 8388608)) (e + -23)%Z
              loc_Exact).
    rewrite binary_round_aux_with_sign.
    change (binary_round_aux 24 128 false (Z.pos (m * 8388608)) (e + -23)%Z
              loc_Exact)
      with (S754_finite false m e * one).
    rewrite Hpos. reflexivity.
Qed.

(** The base emission rate of a clamped intensity is a binary32
    number. *)
Lemma BaseRate_valid (Intensity01 : float) :
  valid Intensity01 = true ->
  valid (MotifComponent.BaseRate (Clamp Intensity01 zero one)) = true.
Proof.
  intros V. unfold MotifComponent.BaseRate, Lerp.
  apply nonneg_valid_valid. apply add_nonneg; [reflexivity | ].
  apply mul_nonneg; [apply damage_risk_finite; exact V | ].
  vm_compute. reflexivity.
Qed.

End Order.

(** ** Monotonicity of the threat level, and the floor of the motif
    intensity *)

Module ThreatOrder.
Import F32 FMath ThreatService Spec RoundingDefs Rounding OrderDefs Order.
Local Open Scope f32_scope.

Lemma well_configured_split (S : UBTService_ThreatUpdate) :
  well_configured S = true ->
  nonneg_finite (RivalWeight S) = true
  /\ nonneg_finite (PoliceWeight S) = true
  /\ nonneg_finite (SpeedWeight S) = true
  /\ nonneg_finite (DamageWeight S) = true
  /\ positive_finite (MaxSpeedKmh S) = true.
Proof.
  unfold well_configured. intros H.
  apply andb_prop in H. destruct H as [H H5].
  apply andb_prop in H. destruct H as [H H4].
  apply andb_prop in H. destruct H as [H H3].
  apply andb_prop in H. destruct H as [H1 H2].
  auto.
Qed.

Lemma Dist_valid (SelfPos OtherPos : FVector) :
  valid (Dist SelfPos OtherPos) = true.
Proof. apply to_f32_valid. Qed.

Lemma prox_term (d : float) :
  valid d = true ->
  one / Max one d = S754_nan \/ nonneg_finite (one / Max one d) = true.
Proof.
  intros Vd. destruct d as [s | s | | s m e] eqn:Ed.
  - right. apply prox_risk; [exact Vd | discriminate].
  - right. apply prox_risk; [exact Vd | discriminate].
  - left. reflexivity.
  - right. apply prox_risk; [exact Vd | discriminate].
Qed.

Lemma RivalProx_term (Rival : option AActor) (SelfPos : FVector) :
  RivalProx Rival SelfPos = S754_nan
  \/ nonneg_finite (RivalProx Rival SelfPos) = true.
Proof.
  destruct Rival as [R | ]; cbn [RivalProx].
  - apply prox_term. apply Dist_valid.
  - right. reflexivity.
Qed.

Lemma PoliceProx_term (PolicePos SelfPos : FVector) :
  PoliceProx PolicePos SelfPos = S754_nan
  \/ nonneg_finite (PoliceProx PolicePos SelfPos) = true.
Proof.
  unfold PoliceProx. destruct (negb (Vector.IsZero PolicePos)).
  - apply prox_term. apply Dist_valid.
  - right. reflexivity.
Qed.

Lemma nonneg_finite_term (w p : float) :
  nonneg_finite w = true -> nonneg_finite p = true -> nn_or_nan (w * p).
Proof. intros Hw Hp. apply mul_nn_or_nan; auto. Qed.

Section Monotone.
Variable S : UBTService_ThreatUpdate.
Hypothesis HS : well_configured S = true.

Let Hrw := proj1 (well_configured_split S HS).
Let Hpw := proj1 (proj2 (well_configured_split S HS)).
Let Hsw := proj1 (proj2 (proj2 (well_configured_split S HS))).
Let Hdw := proj1 (proj2 (proj2 (proj2 (well_configured_split S HS)))).
Let Hmax := proj2 (proj2 (proj2 (proj2 (well_configured_split S HS)))).

Lemma rival_term (Rival : option AActor) (SelfPos : FVector) :
  nn_or_nan (RivalWeight S * RivalProx Rival SelfPos).
Proof. apply mul_nn_or_nan; [exact Hrw | apply RivalProx_term]. Qed.

Lemma police_term (PolicePos SelfPos : FVector) :
  nn_or_nan (PoliceWeight S * PoliceProx PolicePos SelfPos).
Proof. apply mul_nn_or_nan; [exact Hpw | apply PoliceProx_term]. Qed.

Lemma speed_term (Speed : float) :
  valid Speed = true -> nn_or_nan (SpeedWeight S * SpeedRisk S Speed).
Proof.
  intros V. apply nonneg_finite_term; [exact Hsw | ].
  apply speed_risk_finite; [exact Hmax | exact V].
Qed.

Lemma damage_term (Damage : float) :
  valid Damage = true -> nn_or_nan (DamageWeight S * DamageRisk Damage).
Proof.
  intros V. apply nonneg_finite_term; [exact Hdw | ].
  apply damage_risk_finite. exact V.
Qed.

(** Two distances in order give two proximity terms in the opposite
    order. *)
Lemma Le_prox (w d1 d2 : float) :
  nonneg_finite w = true ->
  valid d1 = true -> valid d2 = true -> (d1 <=? d2) = true ->
  Le (w * (one / Max one d2)) (w * (one / Max one d1)).
Proof.
  intros Hw V1 V2 Hle.
  destruct (leb_not_nan d1 d2 Hle) as [N1 N2].
  apply Le_mul; [exact Hw | | | ].
  - apply prox_risk; assumption.
  - apply prox_risk; assumption.
  - apply prox_antitone; assumption.
Qed.

Lemma threat_mono_rival (R1 R2 : AActor) (PolicePos : FVector)
    (Speed Damage : float) (SelfPos : FVector) :
  valid Speed = true -> valid Damage = true ->
  (Dist SelfPos (ActorLocation R1) <=? Dist SelfPos (ActorLocation R2))
  = true ->
  (CalculateThreat S (Some R2) PolicePos Speed Damage SelfPos
   <=? CalculateThreat S (Some R1) PolicePos Speed Damage SelfPos) = true.
Proof.
  intros VS VD Hle. unfold CalculateThreat, WeightedSum. cbn [RivalProx].
  apply Le_Clamp.
  apply Le_add_l; [ | apply damage_term; exact VD].
  apply Le_add_l; [ | apply speed_term; exact VS].
  apply Le_add_l; [ | apply police_term].
  apply Le_prox; [exact Hrw | apply Dist_valid | apply Dist_valid | exact Hle].
Qed.

Lemma threat_mono_police (Rival : option AActor) (P1 P2 : FVector)
    (Speed Damage : float) (SelfPos : FVector) :
  valid Speed = true -> valid Damage = true ->
  Vector.IsZero P1 = false -> Vector.IsZero P2 = false ->
  (Dist SelfPos P1 <=? Dist SelfPos P2) = true ->
  (CalculateThreat S Rival P2 Speed Damage SelfPos
   <=? CalculateThreat S Rival P1 Speed Damage SelfPos) = true.
Proof.
  intros VS VD Z1 Z2 Hle. unfold CalculateThreat, WeightedSum.
  unfold PoliceProx. rewrite Z1, Z2. cbn [negb].
  apply Le_Clamp.
  apply Le_add_l; [ | apply damage_term; exact VD].
  apply Le_add_l; [ | apply speed_term; exact VS].
  apply Le_add_r; [ | apply rival_term].
  apply Le_prox; [exact Hpw | apply Dist_valid | apply Dist_valid | exact Hle].
Qed.

Lemma threat_mono_speed (Rival : option AActor) (PolicePos : FVector)
    (Speed1 Speed2 Damage : float) (SelfPos : FVector) :
  valid Speed1 = true -> valid Speed2 = true -> valid Damage = true ->
  (Speed1 <=? Speed2) = true ->
  (CalculateThreat S Rival PolicePos Speed1 Damage SelfPos
   <=? CalculateThreat S Rival PolicePos Speed2 Damage SelfPos) = true.
Proof.
  intros V1 V2 VD Hle. unfold CalculateThreat, WeightedSum.
  apply Le_Clamp.
  apply Le_add_l; [ | apply damage_term; exact VD].
  apply Le_add_r;
    [ | apply add_nn_or_nan; [apply rival_term | apply police_term]].
  apply Le_mul; [exact Hsw | | | ].
  - apply speed_risk_finite; [exact Hmax | exact V1].
  - apply speed_risk_finite; [exact Hmax | exact V2].
  - apply speed_risk_mono; [exact Hmax | assumption ..].
Qed.

Lemma threat_mono_damage (Rival : option AActor) (PolicePos : FVector)
    (Speed Damage1 Damage2 : float) (SelfPos : FVector) :
  valid Speed = true -> valid Damage1 = true -> valid Damage2 = true ->
  (Damage1 <=? Damage2) = true ->
  (CalculateThreat S Rival PolicePos Speed Damage1 SelfPos
   <=? CalculateThreat S Rival PolicePos Speed Damage2 SelfPos) = true.
Proof.
  intros VS V1 V2 Hle. unfold CalculateThreat, WeightedSum.
  apply Le_Clamp.
  apply Le_add_r.
  - apply Le_mul; [exact Hdw | | | ].
    + apply damage_risk_finite. exact V1.
    + apply damage_risk_finite. exact V2.
    + apply damage_risk_mono; assumption.
  - apply add_nn_or_nan; [ | apply speed_term; exact VS].
    apply add_nn_or_nan; [apply rival_term | apply police_term].
Qed.

End Monotone.

(** *** The floor of the motif intensity *)

Lemma lit_4_10 : lit 4 10 = S754_finite false 13421773 (-25).
Proof. vm_compute. reflexivity. Qed.

Lemma lit_6_10 : lit 6 10 = S754_finite false 10066330 (-24).
Proof. vm_compute. reflexivity. Qed.

Lemma lit_4_10_bounded : bounded 24 128 13421773 (-25) = true.
Proof. vm_compute. reflexivity. Qed.

(** Adding a positive float to 0.4f and clamping never goes below
    0.4f, whatever the mantissa and exponent of the float. *)
Lemma floor_plus_finite (m : positive) (e : Z) :
  (lit 4 10 <=? Clamp (lit 4 10 + S754_finite false m e) zero one) = true.
Proof.
  rewrite lit_4_10.
  set (f := S754_finite false 13421773 (-25)).
  assert (Vf : nonneg_valid f = true).
  { unfold f. cbn [nonneg_valid negb andb]. exact lit_4_10_bounded. }
  destruct (SFadd_finite_spec 13421773 (-25) m e) as [V O].
  cbv zeta in V, O.
  change (SFadd 24 128 (S754_finite false 13421773 (-25))
                (S754_finite false m e))
    with (f + S754_finite false m e) in V, O.
  destruct (Clamp_nonneg _ V) as (Vc & Oc & _).
  rewrite (leb_ordv _ _ Vf Vc), Oc. apply Z.leb_le.
  apply Z.min_glb; [ | vm_compute; discriminate].
  rewrite O, <- (ordv_round_id f Vf).
  set (ez := Z.min (-25) e).
  set (p := (Z.pos 13421773 * 2 ^ (-25 - ez) + Z.pos m * 2 ^ (e - ez))%Z).
  destruct (frac_nonneg p ez) as [HA HB].
  { unfold p. pose proof (pow2_pos (-25 - ez) ltac:(unfold ez; lia)).
    pose proof (pow2_pos (e - ez) ltac:(unfold ez; lia)). nia. }
  apply round_val_mono; [vm_compute; discriminate | lia | exact HB | ].
  rewrite Z.mul_1_r. unfold f. cbn [ordv]. unfold frac_num, frac_den.
  change (-25 + 149)%Z with 124%Z.
  assert (Hez : ez <= -25) by (unfold ez; lia).
  assert (PP : (2 ^ 124 * 2 ^ Z.max 0 (- (ez + 149))
                = 2 ^ (-25 - ez) * 2 ^ Z.max 0 (ez + 149))%Z).
  { rewrite <- !pow2_add by lia. f_equal. lia. }
  unfold p.
  pose proof (pow2_pos (e - ez) ltac:(unfold ez; lia)) as P1.
  pose proof (pow2_pos (Z.max 0 (ez + 149)) ltac:(lia)) as P2.
  set (q1 := 2 ^ 124) in *. set (q2 := 2 ^ Z.max 0 (- (ez + 149))) in *.
  set (q3 := 2 ^ (-25 - ez)) in *. set (q4 := 2 ^ Z.max 0 (ez + 149)) in *.
  set (q5 := 2 ^ (e - ez)) in *.
  clearbody q1 q2 q3 q4 q5.
  replace (Z.pos 13421773 * q1 * q2)%Z
    with (Z.pos 13421773 * (q1 * q2))%Z by ring.
  rewrite PP. nia.
Qed.

Lemma floor_plus_product (m : positive) (e : Z) :
  (lit 4 10 <=? Clamp (lit 4 10 + S754_finite false m e * lit 6 10)
                      zero one) = true.
Proof.
  rewrite lit_6_10.
  change (S754_finite false m e * S754_finite false 10066330 (-24))
    with (binary_round_aux 24 128 false (Z.pos (m * 10066330))
            (e + -24)%Z loc_Exact).
  pose proof (Repr_exact (Z.pos (m * 10066330)) 1 ltac:(lia) ltac:(lia))
    as HR.
  destruct (binary_round_aux_sign false _ (e + -24)%Z _ _ _ HR)
    as (z & -> & Hz).
  destruct z as [s | s | | s m' e']; cbn [with_sign].
  - vm_compute. reflexivity.
  - vm_compute. reflexivity.
  - congruence.
  - apply floor_plus_finite.
Qed.

(** The motif intensity of a clamped threat is at least 0.4f. *)
Lemma motif_floor (T : float) :
  (lit 4 10 <=? MotifIntensityOf (Clamp T zero one)) = true.
Proof.
  unfold MotifIntensityOf.
  destruct (Clamp01_cases T) as [-> | [-> | (-> & H0 & H1)]].
  - vm_compute. reflexivity.
  - vm_compute. reflexivity.
  - destruct T as [s | s | | s m e].
    + discriminate H0.
    + destruct s; [discriminate H0 | discriminate H1].
    + discriminate H0.
    + destruct s; [discriminate H0 | ]. apply floor_plus_product.
Qed.

End ThreatOrder.

Module ThreatTheorems.
Import F32 FMath ThreatService Spec ThreatFacts.
Local Open Scope f32_scope.

Lemma MotifIntensity_range (Threat : float) :
  between zero one (MotifIntensityOf Threat).
Proof. unfold MotifIntensityOf. apply Clamp01_range. Qed.

(** C1.  Whatever the weights and whatever the inputs (NaN and the
    infinities included), the threat level [CalculateThreat] returns
    lies in [0,1], and so does the motif intensity derived from it. *)
Theorem C1_threat_and_motif_in_unit_interval
    (S : UBTService_ThreatUpdate) (Rival : option AActor)
    (PolicePos : FVector) (Speed Damage : float) (SelfPos : FVector) :
  let Threat := CalculateThreat S Rival PolicePos Speed Damage SelfPos in
  between zero one Threat /\ between zero one (MotifIntensityOf Threat).
Proof.
  split.
  - apply CalculateThreat_range.
  - apply MotifIntensity_range.
Qed.

(** C2.  Every tick that produces a result stores, as motif intensity,
    the clamp to [0,1] of [0.4f + Threat * 0.6f], where [Threat] is the
    threat level stored by the same tick, computed from the inputs the
    tick has read; the intensity the blackboard held before plays no
    part. *)
Theorem C2_motif_intensity_is_derived
    (S : UBTService_ThreatUpdate) (Comp : UBehaviorTreeComponent)
    (BB : UBlackboardComponent) (Ctl : AAIController) (Pawn : APawn) :
  GetBlackboardComponent Comp = Some BB ->
  GetAIOwner Comp = Some Ctl ->
  GetPawn Ctl = Some Pawn ->
  exists BB',
    GetBlackboardComponent (TickNode S Comp) = Some BB'
    /\ bbThreatLevel BB'
       = CalculateThreat S (bbRival BB) (bbLastThreatPos BB)
                         (SampleSpeedKmh Pawn) (bbDamagePct BB)
                         (PawnLocation Pawn)
    /\ bbMotifIntensity BB'
       = Clamp (lit 4 10 + bbThreatLevel BB' * lit 6 10) zero one.
Proof.
  intros HB HC HP. eexists. split.
  - apply (TickNode_writes S Comp BB Ctl Pawn HB HC HP).
  - split; reflexivity.
Qed.

Lemma C2_motif_intensity_is_derived_witness :
  exists BB',
    GetBlackboardComponent (TickNode DefaultService Example.TickTree) = Some BB'
    /\ bbThreatLevel BB'
       = CalculateThreat DefaultService (bbRival Example.TickBlackboard)
                         (bbLastThreatPos Example.TickBlackboard)
                         (SampleSpeedKmh Example.TickPawn)
                         (bbDamagePct Example.TickBlackboard)
                         (PawnLocation Example.TickPawn)
    /\ bbMotifIntensity BB'
       = Clamp (lit 4 10 + bbThreatLevel BB' * lit 6 10) zero one.
Proof.
  apply (C2_motif_intensity_is_derived DefaultService Example.TickTree Example.TickBlackboard
           (MkController (Some Example.TickPawn)) Example.TickPawn);
    reflexivity.
Defined.

(** C3, as the code computes it.  With the default weights, a rival at
    distance 10, no pursuer, 110 km/h and damage 0.2f, the four risk
    terms are 0.1f, 0, 0.5 and 0.2f (the floats nearest the decimals);
    the threat level is the float 8724153 / 2^26 = 0.13000001..., the
    successor of the float nearest 0.13, and the motif intensity is
    16039019 / 2^25 = 0.47800002..., the successor of the float nearest
    0.478. *)
Theorem C3_worked_example (SelfPos : FVector) (R : AActor) :
  Dist SelfPos (ActorLocation R) = of_Z 10 ->
  let Threat :=
    CalculateThreat DefaultService (Some R) Vector.ZeroVector (of_Z 110)
                    (lit 2 10) SelfPos in
  RivalProx (Some R) SelfPos = lit 1 10
  /\ PoliceProx Vector.ZeroVector SelfPos = zero
  /\ SpeedRisk DefaultService (of_Z 110) = lit 5 10
  /\ DamageRisk (lit 2 10) = lit 2 10
  /\ Threat = S754_finite false 8724153 (-26)
  /\ Threat = SFsucc prec emax (lit 13 100)
  /\ MotifIntensityOf Threat = S754_finite false 16039019 (-25)
  /\ MotifIntensityOf Threat = SFsucc prec emax (lit 478 1000).
Proof.
  intros HD Threat.
  assert (HR : RivalProx (Some R) SelfPos = lit 1 10).
  { unfold RivalProx. rewrite HD. vm_compute. reflexivity. }
  assert (HT : Threat = S754_finite false 8724153 (-26)).
  { unfold Threat, CalculateThreat. rewrite HR. vm_compute. reflexivity. }
  rewrite HT.
  repeat split; try assumption; vm_compute; reflexivity.
Qed.

Lemma C3_worked_example_witness :
  Dist Example.SelfPos (ActorLocation Example.Rival) = of_Z 10
  /\ Example.Threat = S754_finite false 8724153 (-26).
Proof.
  split.
  - vm_compute. reflexivity.
  - apply (C3_worked_example Example.SelfPos Example.Rival).
    vm_compute. reflexivity.
Defined.

(** The threat level of the worked example is not 0.13: it is neither
    the rational 13/100 nor the float nearest to it; nor is the motif
    intensity 0.478. *)
Lemma C3_counterexample :
  is_ratio Example.Threat 13 100 = false
  /\ Example.Threat <> lit 13 100
  /\ is_ratio (MotifIntensityOf Example.Threat) 478 1000 = false
  /\ MotifIntensityOf Example.Threat <> lit 478 1000.
Proof.
  repeat split; vm_compute; congruence.
Qed.
(** C4, as the code has it.  For four finite non-negative weights and a
    finite positive [MaxSpeedKmh], and binary32 speed and damage
    inputs: a rival at a smaller distance, or a pursuer position (not
    the zero vector, which means "no pursuer") at a smaller distance,
    never gives a lower threat level, and neither does a higher speed
    or a higher damage fraction, everything else being the same. *)
Theorem C4_threat_is_monotone (S : UBTService_ThreatUpdate) :
  OrderDefs.well_configured S = true ->
  (forall (R1 R2 : AActor) (PolicePos : FVector) (Speed Damage : float)
          (SelfPos : FVector),
      valid Speed = true -> valid Damage = true ->
      (Dist SelfPos (ActorLocation R1) <=? Dist SelfPos (ActorLocation R2))
      = true ->
      (CalculateThreat S (Some R2) PolicePos Speed Damage SelfPos
       <=? CalculateThreat S (Some R1) PolicePos Speed Damage SelfPos)
      = true)
  /\ (forall (Rival : option AActor) (P1 P2 : FVector)
             (Speed Damage : float) (SelfPos : FVector),
      valid Speed = true -> valid Damage = true ->
      Vector.IsZero P1 = false -> Vector.IsZero P2 = false ->
      (Dist SelfPos P1 <=? Dist SelfPos P2) = true ->
      (CalculateThreat S Rival P2 Speed Damage SelfPos
       <=? CalculateThreat S Rival P1 Speed Damage SelfPos) = true)
  /\ (forall (Rival : option AActor) (PolicePos : FVector)
             (Speed1 Speed2 Damage : float) (SelfPos : FVector),
      valid Speed1 = true -> valid Speed2 = true -> valid Damage = true ->
      (Speed1 <=? Speed2) = true ->
      (CalculateThreat S Rival PolicePos Speed1 Damage SelfPos
       <=? CalculateThreat S Rival PolicePos Speed2 Damage SelfPos) = true)
  /\ (forall (Rival : option AActor) (PolicePos : FVector)
             (Speed Damage1 Damage2 : float) (SelfPos : FVector),
      valid Speed = true -> valid Damage1 = true -> valid Damage2 = true ->
      (Damage1 <=? Damage2) = true ->
      (CalculateThreat S Rival PolicePos Speed Damage1 SelfPos
       <=? CalculateThreat S Rival PolicePos Speed Damage2 SelfPos) = true).
Proof.
  intros HS. split; [ | split; [ | split]].
  - apply ThreatOrder.threat_mono_rival. exact HS.
  - apply ThreatOrder.threat_mono_police. exact HS.
  - apply ThreatOrder.threat_mono_speed. exact HS.
  - apply ThreatOrder.threat_mono_damage. exact HS.
Qed.

(** With the default weights, the rival one unit away threatens at
    least as much as the rival ten units away. *)
Lemma C4_threat_is_monotone_witness :
  OrderDefs.well_configured DefaultService = true
  /\ valid Example.SpeedKmh = true /\ valid Example.Damage = true
  /\ (Dist Example.SelfPos (ActorLocation Example.NearRival)
      <=? Dist Example.SelfPos (ActorLocation Example.Rival)) = true
  /\ (CalculateThreat DefaultService (Some Example.Rival) Example.NoPursuer
        Example.SpeedKmh Example.Damage Example.SelfPos
      <=? CalculateThreat DefaultService (Some Example.NearRival)
            Example.NoPursuer Example.SpeedKmh Example.Damage
            Example.SelfPos) = true.
Proof.
  assert (HS : OrderDefs.well_configured DefaultService = true)
    by (vm_compute; reflexivity).
  assert (VS : valid Example.SpeedKmh = true) by (vm_compute; reflexivity).
  assert (VD : valid Example.Damage = true) by (vm_compute; reflexivity).
  assert (HD : (Dist Example.SelfPos (ActorLocation Example.NearRival)
                <=? Dist Example.SelfPos (ActorLocation Example.Rival))
               = true) by (vm_compute; reflexivity).
  refine (conj HS (conj VS (conj VD (conj HD _)))).
  exact (proj1 (C4_threat_is_monotone DefaultService HS)
           Example.NearRival Example.Rival Example.NoPursuer
           Example.SpeedKmh Example.Damage Example.SelfPos VS VD HD).
Defined.

(** The claim fails for a negative rival weight: at full speed the
    rival one unit away gives threat 0.5, the rival ten units away
    0.95.  And with the default weights a pursuer position that moves
    from three quarters of a unit away onto the world origin, a quarter
    of a unit away, is taken for "no pursuer": the threat falls from
    0.35 to 0. *)
Lemma C4_counterexample :
  ((Dist Example.SelfPos (ActorLocation Example.NearRival)
    <=? Dist Example.SelfPos (ActorLocation Example.Rival)) = true
   /\ (CalculateThreat Example.NegativeRivalService (Some Example.Rival)
         Example.NoPursuer (of_Z 220) zero Example.SelfPos
       <=? CalculateThreat Example.NegativeRivalService
             (Some Example.NearRival) Example.NoPursuer (of_Z 220) zero
             Example.SelfPos) = false)
  /\ ((Dist Example.SelfNearOrigin Vector.ZeroVector
       <=? Dist Example.SelfNearOrigin Example.FarPursuer) = true
      /\ (CalculateThreat DefaultService None Example.FarPursuer zero zero
            Example.SelfNearOrigin
          <=? CalculateThreat DefaultService None Vector.ZeroVector zero
                zero Example.SelfNearOrigin) = false).
Proof.
  repeat split; vm_compute; reflexivity.
Qed.

(** C10.  Whatever the weights and the inputs, the motif intensity
    derived from the threat level lies between 0.4f and 1; 0.4f is the
    float 13421773 / 2^25, which is not below 4/10. *)
Theorem C10_motif_intensity_floor
    (S : UBTService_ThreatUpdate) (Rival : option AActor)
    (PolicePos : FVector) (Speed Damage : float) (SelfPos : FVector) :
  let Threat := CalculateThreat S Rival PolicePos Speed Damage SelfPos in
  between (lit 4 10) one (MotifIntensityOf Threat)
  /\ lit 4 10 = S754_finite false 13421773 (-25)
  /\ (4 * 2 ^ 25 <= 10 * 13421773)%Z.
Proof.
  intros Threat. split; [split | split].
  - unfold Threat, CalculateThreat. apply ThreatOrder.motif_floor.
  - apply MotifIntensity_range.
  - apply ThreatOrder.lit_4_10.
  - vm_compute. discriminate.
Qed.
End ThreatTheorems.

Module ProximityTheorems.
Import F32 FMath ThreatService Spec.
Local Open Scope f32_scope.

Lemma compare_one_Eq (d : float) : SFcompare d one = Some Eq -> d = one.
Proof. apply compare_Eq_finite. Qed.

Lemma Max_one_saturates (d : float) : (d <=? one) = true -> Max one d = one.
Proof.
  unfold Max, leb, ltb, SFleb, SFltb.
  destruct (SFcompare d one) as [[ | | ]|] eqn:Hc; try discriminate.
  - intros _. apply compare_one_Eq. exact Hc.
  - reflexivity.
Qed.

Lemma Max_one_not_below (d : float) : (Max one d <? one) = false.
Proof.
  unfold Max. destruct (d <? one) eqn:Hd.
  - reflexivity.
  - exact Hd.
Qed.

(** C5.  A rival that is present, and a pursuer position that is not
    the zero vector, score [1 / Max(1, Dist)]; the divisor is never
    below 1, at every distance [d <= 1] the score is exactly 1, and at
    no distance does it exceed 1. *)
Theorem C5_proximity_saturates (SelfPos : FVector) :
  (forall R : AActor,
      RivalProx (Some R) SelfPos
      = one / Max one (Dist SelfPos (ActorLocation R)))
  /\ (forall PolicePos : FVector,
      Vector.IsZero PolicePos = false ->
      PoliceProx PolicePos SelfPos = one / Max one (Dist SelfPos PolicePos))
  /\ (forall d : float, (Max one d <? one) = false)
  /\ (forall d : float, (d <=? one) = true -> one / Max one d = one)
  /\ (forall d : float,
      valid d = true -> d <> S754_nan -> (one / Max one d <=? one) = true)
  /\ (forall R : AActor,
      (Dist SelfPos (ActorLocation R) <=? one) = true ->
      RivalProx (Some R) SelfPos = one)
  /\ (forall PolicePos : FVector,
      Vector.IsZero PolicePos = false ->
      (Dist SelfPos PolicePos <=? one) = true ->
      PoliceProx PolicePos SelfPos = one).
Proof.
  assert (Hsat : forall d : float,
             (d <=? one) = true -> one / Max one d = one).
  { intros d Hd. rewrite (Max_one_saturates d Hd). vm_compute. reflexivity. }
  repeat split.
  - intros P HP. unfold PoliceProx. rewrite HP. reflexivity.
  - apply Max_one_not_below.
  - exact Hsat.
  - intros d Vd Nd.
    destruct (Order.prox_risk d Vd Nd) as [F B].
    destruct (Order.nonneg_finite_split _ F) as [V _].
    rewrite (Order.leb_ordv _ _ V Order.one_nonneg_valid), Order.ordv_one.
    apply Z.leb_le. exact B.
  - intros R Hd. unfold RivalProx. apply Hsat. exact Hd.
  - intros P HP Hd. unfold PoliceProx. rewrite HP. apply Hsat. exact Hd.
Qed.

(** A pursuer half a unit from the pawn scores exactly 1. *)
Lemma C5_proximity_saturates_witness :
  Vector.IsZero Example.NearPursuer = false
  /\ (Dist Example.SelfPos Example.NearPursuer <=? one) = true
  /\ PoliceProx Example.NearPursuer Example.SelfPos = one.
Proof.
  split; [vm_compute; reflexivity | split; [vm_compute; reflexivity | ]].
  apply (C5_proximity_saturates Example.SelfPos); vm_compute; reflexivity.
Defined.

Lemma absent_terms_vanish (rw pw A B : float) :
  is_finite rw = true -> is_finite pw = true ->
  Clamp (rw * zero + pw * zero + A + B) zero one = Clamp (A + B) zero one.
Proof.
  intros Hr Hp.
  destruct rw as [sr | sr | | sr mr er]; try discriminate;
    destruct pw as [sp | sp | | sp mp ep]; try discriminate;
    destruct sr, sp;
    destruct A as [sa | sa | | sa ma ea]; try reflexivity;
    destruct sa;
    destruct B as [sb | sb | | sb mb eb]; try reflexivity;
    destruct sb; reflexivity.
Qed.

Lemma absent_terms_poison (rw pw A B : float) :
  is_finite rw = false \/ is_finite pw = false ->
  Clamp (rw * zero + pw * zero + A + B) zero one = one.
Proof.
  intros H.
  destruct rw as [sr | sr | | sr mr er];
    destruct pw as [sp | sp | | sp mp ep];
    try (destruct H; discriminate);
    try destruct sr; try destruct sp;
    destruct A as [sa | sa | | sa ma ea]; try reflexivity;
    destruct B as [sb | sb | | sb mb eb]; reflexivity.
Qed.

(** C6.  An absent rival and a zero pursuer position score exactly 0.
    For finite rival and pursuer weights, and every speed and damage,
    the threat level is then the clamp of the speed and damage terms
    alone.  For a rival or pursuer weight that is infinite or NaN the
    product with the score 0 is NaN and the threat level is 1, whatever
    the speed and the damage. *)
Theorem C6_absent_positions_contribute_nothing
    (S : UBTService_ThreatUpdate) (PolicePos : FVector)
    (Speed Damage : float) (SelfPos : FVector) :
  Vector.IsZero PolicePos = true ->
  RivalProx None SelfPos = zero
  /\ PoliceProx PolicePos SelfPos = zero
  /\ (is_finite (RivalWeight S) = true ->
      is_finite (PoliceWeight S) = true ->
      CalculateThreat S None PolicePos Speed Damage SelfPos
      = Clamp (SpeedWeight S * SpeedRisk S Speed
               + DamageWeight S * DamageRisk Damage) zero one)
  /\ (is_finite (RivalWeight S) = false
      \/ is_finite (PoliceWeight S) = false ->
      CalculateThreat S None PolicePos Speed Damage SelfPos = one).
Proof.
  intros Hz.
  assert (HP : PoliceProx PolicePos SelfPos = zero).
  { unfold PoliceProx. rewrite Hz. reflexivity. }
  split; [reflexivity | split; [exact HP | split]].
  - intros Hr Hp.
    unfold CalculateThreat, WeightedSum. rewrite HP.
    change (RivalProx None SelfPos) with zero.
    apply absent_terms_vanish; assumption.
  - intros H.
    unfold CalculateThreat, WeightedSum. rewrite HP.
    change (RivalProx None SelfPos) with zero.
    apply absent_terms_poison; exact H.
Qed.

(** The worked configuration without rival and pursuer, and the same
    inputs under an infinite rival weight. *)
Lemma C6_absent_positions_contribute_nothing_witness :
  Vector.IsZero Example.NoPursuer = true
  /\ is_finite (RivalWeight DefaultService) = true
  /\ is_finite (PoliceWeight DefaultService) = true
  /\ CalculateThreat DefaultService None Example.NoPursuer
       Example.SpeedKmh Example.Damage Example.SelfPos
     = Clamp (SpeedWeight DefaultService
                * SpeedRisk DefaultService Example.SpeedKmh
              + DamageWeight DefaultService * DamageRisk Example.Damage)
             zero one
  /\ is_finite (RivalWeight Example.InfiniteRivalService) = false
  /\ CalculateThreat Example.InfiniteRivalService None Example.NoPursuer
       Example.SpeedKmh Example.Damage Example.SelfPos = one.
Proof.
  assert (HZ : Vector.IsZero Example.NoPursuer = true)
    by (vm_compute; reflexivity).
  assert (HR : is_finite (RivalWeight DefaultService) = true)
    by (vm_compute; reflexivity).
  assert (HP : is_finite (PoliceWeight DefaultService) = true)
    by (vm_compute; reflexivity).
  assert (HI : is_finite (RivalWeight Example.InfiniteRivalService) = false)
    by (vm_compute; reflexivity).
  refine (conj HZ (conj HR (conj HP (conj _ (conj HI _))))).
  - exact (proj1 (proj2 (proj2
             (C6_absent_positions_contribute_nothing DefaultService
                Example.NoPursuer Example.SpeedKmh Example.Damage
                Example.SelfPos HZ))) HR HP).
  - exact (proj2 (proj2 (proj2
             (C6_absent_positions_contribute_nothing
                Example.InfiniteRivalService Example.NoPursuer
                Example.SpeedKmh Example.Damage Example.SelfPos HZ)))
             (or_introl HI)).
Defined.

(** The claim fails for an infinite rival weight: with no rival, no
    pursuer, speed 0 and damage 0 the two absent scores are 0, the
    speed and damage terms clamp to 0, and yet the threat level is 1:
    [inf * 0.f] is NaN, the sum is NaN, and [FMath::Clamp] sends NaN to
    its upper bound. *)
Lemma C6_counterexample :
  RivalProx None Example.SelfPos = zero
  /\ PoliceProx Example.NoPursuer Example.SelfPos = zero
  /\ Clamp (SpeedWeight Example.InfiniteRivalService
              * SpeedRisk Example.InfiniteRivalService zero
            + DamageWeight Example.InfiniteRivalService * DamageRisk zero)
       zero one = zero
  /\ CalculateThreat Example.InfiniteRivalService None Example.NoPursuer
       zero zero Example.SelfPos = one
  /\ CalculateThreat Example.InfiniteRivalService None Example.NoPursuer
       zero zero Example.SelfPos
     <> Clamp (SpeedWeight Example.InfiniteRivalService
                 * SpeedRisk Example.InfiniteRivalService zero
               + DamageWeight Example.InfiniteRivalService
                 * DamageRisk zero) zero one.
Proof.
  repeat split; try (vm_compute; reflexivity).
  vm_compute. discriminate.
Qed.
End ProximityTheorems.

Module MotifTheorems.
Import F32 FMath MotifComponent Spec MotifSpec.
Local Open Scope f32_scope.

Lemma SetMotif_CurrentIntensity Motif Intensity01 C :
  CurrentIntensity (SetMotif Motif Intensity01 C)
  = Clamp Intensity01 zero one.
Proof.
  unfold SetMotif, UpdateAudio, UpdateVisualFX; simpl.
  destruct (MusicBus C); reflexivity.
Qed.

Lemma SetMotif_CurrentMotif Motif Intensity01 C :
  CurrentMotif (SetMotif Motif Intensity01 C) = Motif.
Proof.
  unfold SetMotif, UpdateAudio, UpdateVisualFX; simpl.
  destruct (MusicBus C); reflexivity.
Qed.

Lemma Reachable_intensity C :
  Reachable C -> between zero one (CurrentIntensity C).
Proof.
  induction 1 as [ | C Motif Intensity01 _ _].
  - split; reflexivity.
  - rewrite SetMotif_CurrentIntensity. apply Clamp01_range.
Qed.

Lemma Drives_set (Comp : option UNiagaraComponent) (b : bool) (v : float) :
  Drives Comp
    (SetNiagaraFloatParameter (SetActiveIfPresent Comp b) "EmissionRate" v)
    b v.
Proof. destruct Comp; simpl; auto. Qed.

Lemma SetMotif_overlays Motif Intensity01 C :
  let C' := SetMotif Motif Intensity01 C in
  let Base := BaseRate (Clamp Intensity01 zero one) in
  Drives (StormRain C) (StormRain C') (EMotif_eqb Motif Storm) Base
  /\ Drives (CalmFog C) (CalmFog C') (EMotif_eqb Motif Calm)
            (Base * lit 5 10)
  /\ Drives (CosmicAurora C) (CosmicAurora C') (EMotif_eqb Motif Cosmic)
            (Base * lit 8 10)
  /\ Drives (OracleRunes C) (OracleRunes C') (EMotif_eqb Motif Oracle)
            (Base * lit 6 10).
Proof.
  unfold SetMotif, UpdateAudio, UpdateVisualFX; simpl.
  destruct (MusicBus C); simpl; repeat split; apply Drives_set.
Qed.

(** C7.  [SetMotif] stores the clamp of its intensity argument, so the
    stored intensity lies in [0,1] in every reachable state; and
    [SetMotif(Calm, 1.3f)] stores exactly 1 and gives the fog system,
    when there is one, the emission rate [Lerp(10, 200, 1) * 0.5f],
    which is exactly 100. *)
Theorem C7_intensity_is_clamped :
  (forall Motif Intensity01 C,
      CurrentIntensity (SetMotif Motif Intensity01 C)
      = Clamp Intensity01 zero one
      /\ between zero one (CurrentIntensity (SetMotif Motif Intensity01 C)))
  /\ (forall C, Reachable C -> between zero one (CurrentIntensity C))
  /\ (forall C,
      CurrentIntensity (SetMotif Calm (lit 13 10) C) = one
      /\ Lerp (of_Z 10) (of_Z 200) one * lit 5 10 = of_Z 100
      /\ Drives (CalmFog C) (CalmFog (SetMotif Calm (lit 13 10) C))
                true (of_Z 100)).
Proof.
  split; [ | split].
  - intros Motif I C. rewrite SetMotif_CurrentIntensity.
    split; [reflexivity | apply Clamp01_range].
  - apply Reachable_intensity.
  - intros C. split; [ | split].
    + rewrite SetMotif_CurrentIntensity. reflexivity.
    + reflexivity.
    + apply (SetMotif_overlays Calm (lit 13 10) C).
Qed.

Lemma C7_intensity_is_clamped_witness :
  Reachable (SetMotif Calm (lit 13 10) Example.Component)
  /\ between zero one
       (CurrentIntensity (SetMotif Calm (lit 13 10) Example.Component)).
Proof.
  assert (H : Reachable (SetMotif Calm (lit 13 10) Example.Component)).
  { apply Reachable_SetMotif. apply Reachable_Construct. }
  split; [exact H | ].
  apply (proj1 (proj2 C7_intensity_is_clamped) _ H).
Defined.

Lemma EMotif_eqb_eq (a b : EMotif) : EMotif_eqb a b = true <-> a = b.
Proof. destruct a, b; simpl; split; congruence. Qed.

(** C8.  After [SetMotif], with [I] the stored intensity: the base rate
    is [10 + I * (200 - 10)]; every overlay system that exists gets the
    flag [Motif == kind] and the rate: base for Storm (which is base *
    1.0f, for a binary32 intensity argument), base * 0.5f for Calm,
    base * 0.8f for Cosmic, base * 0.6f for Oracle, whether it is the
    active one or not; exactly one kind has a true flag, the selected
    motif; and when the four systems exist, exactly that one is
    active. *)
Theorem C8_emission_rates_and_active_flag Motif Intensity01 C :
  let C' := SetMotif Motif Intensity01 C in
  let I := CurrentIntensity C' in
  let Base := BaseRate I in
  Base = of_Z 10 + I * (of_Z 200 - of_Z 10)
  /\ Drives (StormRain C) (StormRain C') (EMotif_eqb Motif Storm) Base
  /\ Drives (CalmFog C) (CalmFog C') (EMotif_eqb Motif Calm)
            (Base * lit 5 10)
  /\ Drives (CosmicAurora C) (CosmicAurora C') (EMotif_eqb Motif Cosmic)
            (Base * lit 8 10)
  /\ Drives (OracleRunes C) (OracleRunes C') (EMotif_eqb Motif Oracle)
            (Base * lit 6 10)
  /\ (valid Intensity01 = true -> Base * one = Base)
  /\ filter (EMotif_eqb Motif) AllKinds = [Motif]
  /\ ((forall K, Overlay K C <> None) -> ActiveKinds C' = [Motif]).
Proof.
  intros C' I Base.
  assert (HI : I = Clamp Intensity01 zero one)
    by apply SetMotif_CurrentIntensity.
  pose proof (SetMotif_overlays Motif Intensity01 C) as HO.
  cbv zeta in HO. fold C' in HO. rewrite <- HI in HO. fold Base in HO.
  destruct HO as (H1 & H2 & H3 & H4).
  split; [reflexivity | ].
  repeat (split; [assumption | ]).
  split; [ | split].
  - intros V. unfold Base. rewrite HI.
    apply Order.mul_one. apply Order.BaseRate_valid. exact V.
  - destruct Motif; reflexivity.
  - intros Hall.
    pose proof (Hall Storm) as P1. pose proof (Hall Calm) as P2.
    pose proof (Hall Cosmic) as P3. pose proof (Hall Oracle) as P4.
    simpl in P1, P2, P3, P4.
    unfold ActiveKinds, AllKinds. simpl.
    unfold Drives in H1, H2, H3, H4.
    destruct (StormRain C); [ | congruence].
    destruct (CalmFog C); [ | congruence].
    destruct (CosmicAurora C); [ | congruence].
    destruct (OracleRunes C); [ | congruence].
    destruct (StormRain C'); [ | contradiction].
    destruct (CalmFog C'); [ | contradiction].
    destruct (CosmicAurora C'); [ | contradiction].
    destruct (OracleRunes C'); [ | contradiction].
    destruct H1 as [-> _], H2 as [-> _], H3 as [-> _], H4 as [-> _].
    destruct Motif; reflexivity.
Qed.

Lemma C8_emission_rates_and_active_flag_witness :
  (forall K, Overlay K Example.Component <> None)
  /\ ActiveKinds (SetMotif Cosmic (lit 7 10) Example.Component) = [Cosmic].
Proof.
  assert (H : forall K, Overlay K Example.Component <> None).
  { intros K. destruct K; discriminate. }
  split; [exact H | ].
  apply (C8_emission_rates_and_active_flag Cosmic (lit 7 10)
           Example.Component).
  exact H.
Defined.
End MotifTheorems.

Module AudioTheorems.
Import F32 FMath MotifComponent Spec MotifSpec.
Local Open Scope f32_scope.

Lemma NeedsSwap_spec (Bus : UAudioComponent) (Target : option USoundBase) :
  NeedsSwap Bus Target = true
  <-> exists T, Target = Some T /\ Sound Bus <> Some T.
Proof.
  unfold NeedsSwap. destruct Target as [T | ].
  - destruct (Sound Bus) as [Cur | ].
    + destruct (Nat.eqb_spec Cur T) as [-> | Hne]; simpl; split.
      * discriminate.
      * intros (T' & HT & Hne). injection HT as <-. congruence.
      * intros _. exists T. split; congruence.
      * reflexivity.
    + split; [ | reflexivity]. intros _. exists T. split; congruence.
  - split; [discriminate | ]. intros (T & HT & _). discriminate.
Qed.

Lemma UpdateAudioBus_Calls Target Intensity Bus :
  Calls (UpdateAudioBus Target Intensity Bus)
  = AudioCallsOf Bus Target Intensity ++ Calls Bus.
Proof.
  unfold UpdateAudioBus, AudioCallsOf.
  destruct Target as [T | ]; [destruct (NeedsSwap Bus (Some T)) | ];
    reflexivity.
Qed.

(** Once a call has gone through, the bus holds the target track. *)
Lemma UpdateAudioBus_settled Target Intensity Intensity' Bus :
  NeedsSwap (UpdateAudioBus Target Intensity Bus) Target = false
  /\ Sound (UpdateAudioBus Target Intensity' (UpdateAudioBus Target Intensity Bus))
     = Sound (UpdateAudioBus Target Intensity Bus).
Proof.
  assert (H : NeedsSwap (UpdateAudioBus Target Intensity Bus) Target = false).
  { unfold UpdateAudioBus. destruct Target as [T | ]; [ | reflexivity].
    destruct (NeedsSwap Bus (Some T)) eqn:Hs.
    - simpl. rewrite Nat.eqb_refl. reflexivity.
    - simpl. exact Hs. }
  split; [exact H | ].
  set (B1 := UpdateAudioBus Target Intensity Bus) in *.
  unfold UpdateAudioBus at 1. destruct Target as [T | ]; [ | reflexivity].
  rewrite H. reflexivity.
Qed.

Lemma SetMotif_MusicBus Motif Intensity01 C Bus :
  MusicBus C = Some Bus ->
  MusicBus (SetMotif Motif Intensity01 C)
  = Some (UpdateAudioBus (TargetMusic C Motif)
                         (Clamp Intensity01 zero one) Bus).
Proof.
  intros HB. unfold SetMotif, UpdateAudio, UpdateVisualFX; simpl.
  rewrite HB. reflexivity.
Qed.

Lemma SetMotif_TargetMusic Motif Intensity01 C K :
  TargetMusic (SetMotif Motif Intensity01 C) K = TargetMusic C K.
Proof.
  unfold SetMotif, UpdateAudio, UpdateVisualFX; simpl.
  destruct (MusicBus C); destruct K; reflexivity.
Qed.

(** C9.  On a component with a music bus, a call of [SetMotif] issues
    [SetSound] and [Play] exactly when the motif's track is assigned
    and is not the sound the bus holds, and always sets pitch and
    volume from the stored intensity; a second call with the same
    motif issues only the pitch and volume calls: no [SetSound], no
    [Play], the same sound on the bus. *)
Theorem C9_track_swap_suppressed
    (Motif : EMotif) (I1 I2 : float) (C : USoulvanMotifComponent)
    (Bus : UAudioComponent) :
  MusicBus C = Some Bus ->
  let C1 := SetMotif Motif I1 C in
  let C2 := SetMotif Motif I2 C1 in
  exists Bus1 Bus2,
    MusicBus C1 = Some Bus1 /\ MusicBus C2 = Some Bus2
    /\ Calls Bus1
       = AudioCallsOf Bus (TargetMusic C Motif) (CurrentIntensity C1)
         ++ Calls Bus
    /\ (NeedsSwap Bus (TargetMusic C Motif) = true
        <-> exists T, TargetMusic C Motif = Some T /\ Sound Bus <> Some T)
    /\ Calls Bus2
       = [CallSetVolumeMultiplier (Lerp (lit 6 10) one (CurrentIntensity C2));
          CallSetPitchMultiplier
            (Lerp (lit 95 100) (lit 108 100) (CurrentIntensity C2))]
         ++ Calls Bus1
    /\ PlayCount (Calls Bus2) = PlayCount (Calls Bus1)
    /\ Sound Bus2 = Sound Bus1
    /\ PitchMultiplier Bus2
       = Lerp (lit 95 100) (lit 108 100) (CurrentIntensity C2)
    /\ VolumeMultiplier Bus2 = Lerp (lit 6 10) one (CurrentIntensity C2).
Proof.
  intros HB C1 C2.
  set (T := TargetMusic C Motif).
  set (B1 := UpdateAudioBus T (Clamp I1 zero one) Bus).
  assert (H1 : MusicBus C1 = Some B1) by (apply SetMotif_MusicBus; exact HB).
  assert (H2 : MusicBus C2
               = Some (UpdateAudioBus T (Clamp I2 zero one) B1)).
  { unfold C2. rewrite (SetMotif_MusicBus Motif I2 C1 B1 H1).
    unfold C1. rewrite SetMotif_TargetMusic. reflexivity. }
  assert (E1 : CurrentIntensity C1 = Clamp I1 zero one)
    by apply MotifTheorems.SetMotif_CurrentIntensity.
  assert (E2 : CurrentIntensity C2 = Clamp I2 zero one)
    by apply MotifTheorems.SetMotif_CurrentIntensity.
  destruct (UpdateAudioBus_settled T (Clamp I1 zero one) (Clamp I2 zero one) Bus)
    as [Hs HS].
  fold B1 in Hs, HS.
  assert (HC : Calls (UpdateAudioBus T (Clamp I2 zero one) B1)
               = [CallSetVolumeMultiplier
                    (Lerp (lit 6 10) one (Clamp I2 zero one));
                  CallSetPitchMultiplier
                    (Lerp (lit 95 100) (lit 108 100) (Clamp I2 zero one))]
                 ++ Calls B1).
  { rewrite UpdateAudioBus_Calls. unfold AudioCallsOf. rewrite Hs.
    destruct T; reflexivity. }
  exists B1, (UpdateAudioBus T (Clamp I2 zero one) B1).
  rewrite E1, E2.
  split; [exact H1 | split; [exact H2 | ]].
  split; [apply UpdateAudioBus_Calls | ].
  split; [apply NeedsSwap_spec | ].
  split; [exact HC | ].
  split; [rewrite HC; reflexivity | ].
  split; [exact HS | ].
  split; reflexivity.
Qed.

Lemma C9_track_swap_suppressed_witness :
  MusicBus Example.Component = Some Example.SilentBus
  /\ exists Bus1 Bus2,
       MusicBus (SetMotif Calm (lit 3 10) Example.Component) = Some Bus1
       /\ MusicBus (SetMotif Calm (lit 8 10)
                      (SetMotif Calm (lit 3 10) Example.Component))
          = Some Bus2
       /\ PlayCount (Calls Bus1) = 1%nat
       /\ PlayCount (Calls Bus2) = 1%nat.
Proof.
  split; [reflexivity | ].
  destruct (C9_track_swap_suppressed Calm (lit 3 10) (lit 8 10)
              Example.Component Example.SilentBus eq_refl)
    as (Bus1 & Bus2 & H1 & H2 & Hc1 & _ & _ & Hp & _).
  exists Bus1, Bus2.
  split; [exact H1 | split; [exact H2 | ]].
  assert (P1 : PlayCount (Calls Bus1) = 1%nat).
  { rewrite Hc1. reflexivity. }
  split; [exact P1 | ]. rewrite Hp. exact P1.
Defined.
End AudioTheorems.

(** ** Ticks of the threat service *)

Module TickTheorems.
Import F32 FMath ThreatService Spec.
Local Open Scope f32_scope.

(** A tick returns early, writing nothing, when the component has no
    blackboard, no AI controller, or a controller without a pawn. *)
Lemma tick_needs_blackboard_controller_and_pawn
    (S : UBTService_ThreatUpdate) (Comp : UBehaviorTreeComponent) :
  (GetBlackboardComponent Comp = None
   \/ GetAIOwner Comp = None
   \/ (exists Ctl, GetAIOwner Comp = Some Ctl /\ GetPawn Ctl = None)) ->
  TickNode S Comp = Comp.
Proof.
  intros [H | [H | (Ctl & H & HP)]]; unfold TickNode.
  - rewrite H. reflexivity.
  - rewrite H. destruct (GetBlackboardComponent Comp); reflexivity.
  - rewrite H, HP. destruct (GetBlackboardComponent Comp); reflexivity.
Qed.

(** X1.  The service keeps no memory between ticks: what a tick writes
    depends on the rival, the last threat position and the damage on
    the blackboard and on the pawn, never on the threat level, speed or
    motif intensity written before, so a second tick in the same
    situation writes the same values again; a tick never changes the
    three slots it reads, nor the AI controller; and on a component
    that has no blackboard, no AI controller, or whose controller has
    no pawn, it returns early and writes nothing. *)
Theorem X1_tick_is_memoryless
    (S : UBTService_ThreatUpdate) (Comp : UBehaviorTreeComponent) :
  TickNode S (TickNode S Comp) = TickNode S Comp
  /\ GetAIOwner (TickNode S Comp) = GetAIOwner Comp
  /\ (forall BB,
        GetBlackboardComponent Comp = Some BB ->
        exists BB',
          GetBlackboardComponent (TickNode S Comp) = Some BB'
          /\ bbRival BB' = bbRival BB
          /\ bbLastThreatPos BB' = bbLastThreatPos BB
          /\ bbDamagePct BB' = bbDamagePct BB)
  /\ ((GetBlackboardComponent Comp = None
       \/ GetAIOwner Comp = None
       \/ (exists Ctl, GetAIOwner Comp = Some Ctl /\ GetPawn Ctl = None)) ->
      TickNode S Comp = Comp).
Proof.
  split; [ | split; [ | split;
    [ | apply tick_needs_blackboard_controller_and_pawn]]].
  - unfold TickNode.
    destruct (GetBlackboardComponent Comp) as [BB | ] eqn:HB;
      cbn [GetBlackboardComponent GetAIOwner].
    + destruct (GetAIOwner Comp) as [Ctl | ] eqn:HC.
      * destruct (GetPawn Ctl) as [Pawn | ] eqn:HP.
        -- cbn [GetBlackboardComponent GetAIOwner bbRival bbLastThreatPos
                bbDamagePct].
           rewrite HP. reflexivity.
        -- rewrite HB, HC, HP. reflexivity.
      * rewrite HB, HC. reflexivity.
    + rewrite HB. reflexivity.
  - unfold TickNode.
    destruct (GetBlackboardComponent Comp) as [BB | ]; [ | reflexivity].
    destruct (GetAIOwner Comp) as [Ctl | ] eqn:HC; [ | assumption].
    destruct (GetPawn Ctl); [reflexivity | assumption].
  - intros BB HB. unfold TickNode. rewrite HB.
    destruct (GetAIOwner Comp) as [Ctl | ] eqn:HC.
    + destruct (GetPawn Ctl) as [Pawn | ] eqn:HP.
      * eexists. split; [reflexivity | ]. repeat split.
      * exists BB. rewrite HB. repeat split.
    + exists BB. rewrite HB. repeat split.
Qed.

Lemma X1_tick_is_memoryless_witness :
  GetBlackboardComponent Example.TickTree = Some Example.TickBlackboard
  /\ exists BB',
       GetBlackboardComponent (TickNode DefaultService Example.TickTree)
       = Some BB'
       /\ bbDamagePct BB' = bbDamagePct Example.TickBlackboard.
Proof.
  split; [reflexivity | ].
  destruct (proj1 (proj2 (proj2 (X1_tick_is_memoryless DefaultService
                                   Example.TickTree)))
              Example.TickBlackboard eq_refl)
    as (BB' & H1 & _ & _ & H2).
  exists BB'. split; assumption.
Defined.
End TickTheorems.

(** ** The weighted sum under the default weights; the speed risk *)

Module RiskFacts.
Import F32 FMath ThreatService Spec RoundingDefs Rounding OrderDefs Order
       ThreatOrder RiskDefs.
Local Open Scope f32_scope.

Lemma Le_trans (x y z : float) : Le x y -> Le y z -> Le x z.
Proof.
  intros [-> | (Vx & Vy & Hxy)] [-> | (Vy' & Vz & Hyz)].
  - left. reflexivity.
  - right. auto.
  - right. auto.
  - right. split; [exact Vx | split; [exact Vz | lia]].
Qed.

Lemma Clamp_unit_risk (x : float) :
  nonneg_finite (Clamp x zero one) = true -> unit_risk (Clamp x zero one).
Proof.
  intros F. split; [exact F | ].
  destruct (nonneg_finite_split _ F) as [V _].
  destruct (Clamp01_range x) as [_ H].
  rewrite (leb_ordv _ one V one_nonneg_valid), ordv_one in H.
  apply Z.leb_le in H. exact H.
Qed.

Lemma Le_weighted (w r : float) :
  nonneg_finite w = true -> unit_risk r -> Le (w * r) (w * one).
Proof.
  intros Hw [Hr Ho]. apply Le_mul; [exact Hw | exact Hr | reflexivity | ].
  rewrite ordv_one. exact Ho.
Qed.

Lemma weighted_term (w r : float) :
  nonneg_finite w = true -> unit_risk r -> nn_or_nan (w * r).
Proof. intros Hw [Hr _]. apply nonneg_finite_term; assumption. Qed.

Lemma one_unit_risk : unit_risk one.
Proof. split; [reflexivity | rewrite ordv_one; lia]. Qed.

Lemma zero_unit_risk : unit_risk zero.
Proof. split; [reflexivity | ]. change (ordv zero) with 0%Z. apply Z.lt_le_incl, pow2_pos. lia. Qed.

(** The weighted sum is largest when the four terms are 1. *)
Lemma WeightedSum_le_top (S : UBTService_ThreatUpdate) (a b c d : float) :
  well_configured S = true ->
  unit_risk a -> unit_risk b -> unit_risk c -> unit_risk d ->
  Le (WeightedSum S a b c d) (WeightedSum S one one one one).
Proof.
  intros HS Ha Hb Hc Hd.
  destruct (well_configured_split S HS) as (Hrw & Hpw & Hsw & Hdw & _).
  unfold WeightedSum.
  pose proof one_unit_risk as H1.
  apply Le_trans with (RivalWeight S * one + PoliceWeight S * b
                       + SpeedWeight S * c + DamageWeight S * d).
  { apply Le_add_l; [ | apply weighted_term; assumption].
    apply Le_add_l; [ | apply weighted_term; assumption].
    apply Le_add_l; [ | apply weighted_term; assumption].
    apply Le_weighted; assumption. }
  apply Le_trans with (RivalWeight S * one + PoliceWeight S * one
                       + SpeedWeight S * c + DamageWeight S * d).
  { apply Le_add_l; [ | apply weighted_term; assumption].
    apply Le_add_l; [ | apply weighted_term; assumption].
    apply Le_add_r; [ | apply weighted_term; assumption].
    apply Le_weighted; assumption. }
  apply Le_trans with (RivalWeight S * one + PoliceWeight S * one
                       + SpeedWeight S * one + DamageWeight S * d).
  { apply Le_add_l; [ | apply weighted_term; assumption].
    apply Le_add_r.
    - apply Le_weighted; assumption.
    - apply add_nn_or_nan; apply weighted_term; assumption. }
  apply Le_add_r.
  - apply Le_weighted; assumption.
  - apply add_nn_or_nan; [ | apply weighted_term; assumption].
    apply add_nn_or_nan; apply weighted_term; assumption.
Qed.

Lemma prox_unit_risk (d : float) :
  valid d = true -> one / Max one d <> S754_nan -> unit_risk (one / Max one d).
Proof.
  intros V N. apply prox_risk; [exact V | ].
  intros ->. apply N. reflexivity.
Qed.

Lemma RivalProx_unit_risk (Rival : option AActor) (SelfPos : FVector) :
  RivalProx Rival SelfPos <> S754_nan -> unit_risk (RivalProx Rival SelfPos).
Proof.
  destruct Rival as [R | ]; cbn [RivalProx]; intros N.
  - apply prox_unit_risk; [apply Dist_valid | exact N].
  - apply zero_unit_risk.
Qed.

Lemma PoliceProx_unit_risk (PolicePos SelfPos : FVector) :
  PoliceProx PolicePos SelfPos <> S754_nan ->
  unit_risk (PoliceProx PolicePos SelfPos).
Proof.
  unfold PoliceProx. destruct (negb (Vector.IsZero PolicePos)); intros N.
  - apply prox_unit_risk; [apply Dist_valid | exact N].
  - apply zero_unit_risk.
Qed.

Lemma SpeedRisk_unit_risk (S : UBTService_ThreatUpdate) (Speed : float) :
  positive_finite (MaxSpeedKmh S) = true -> valid Speed = true ->
  unit_risk (SpeedRisk S Speed).
Proof.
  intros Hm V. apply Clamp_unit_risk. apply speed_risk_finite; assumption.
Qed.

Lemma DamageRisk_unit_risk (Damage : float) :
  valid Damage = true -> unit_risk (DamageRisk Damage).
Proof. intros V. apply Clamp_unit_risk. apply damage_risk_finite; exact V. Qed.

Lemma WeightedSum_nan_rival (S : UBTService_ThreatUpdate) (b c d : float) :
  WeightedSum S S754_nan b c d = S754_nan.
Proof.
  unfold WeightedSum. rewrite mul_nan_r. reflexivity.
Qed.

Lemma WeightedSum_nan_police (S : UBTService_ThreatUpdate) (a c d : float) :
  WeightedSum S a S754_nan c d = S754_nan.
Proof.
  unfold WeightedSum. rewrite mul_nan_r, add_nan_r. reflexivity.
Qed.

End RiskFacts.

Module RiskTheorems.
Import F32 FMath ThreatService Spec RoundingDefs Rounding OrderDefs Order
       ThreatOrder RiskDefs RiskFacts.
Local Open Scope f32_scope.

(** X2.  With the default weights the weighted sum of [CalculateThreat]
    never reaches the upper bound of the final clamp: for binary32
    speed and damage, when the
    two proximity scores are numbers, the threat level is at most
    16777215/2^24, the float just below 1 (the value for a rival and a
    pursuer within one unit, at full speed and full damage), hence
    strictly below 1; the threat level is 1 only when a proximity score
    is NaN, and then it is always 1. *)
Theorem X2_default_threat_reaches_one_only_through_nan
    (Rival : option AActor) (PolicePos : FVector) (Speed Damage : float)
    (SelfPos : FVector) :
  valid Speed = true -> valid Damage = true ->
  let Threat :=
    CalculateThreat DefaultService Rival PolicePos Speed Damage SelfPos in
  (RivalProx Rival SelfPos <> S754_nan ->
   PoliceProx PolicePos SelfPos <> S754_nan ->
   (Threat <=? BelowOne) = true /\ (Threat <? one) = true)
  /\ (RivalProx Rival SelfPos = S754_nan
      \/ PoliceProx PolicePos SelfPos = S754_nan -> Threat = one)
  /\ CalculateThreat DefaultService (Some Example.NearRival)
       Example.NearPursuer (of_Z 220) one Example.SelfPos = BelowOne.
Proof.
  intros VS VD Threat.
  refine ((fun H => conj (proj1 H) (conj (proj2 H) _)) _);
    [vm_compute; reflexivity | ].
  split.
  - intros NR NP.
    assert (HS : well_configured DefaultService = true) by reflexivity.
    assert (Hm : positive_finite (MaxSpeedKmh DefaultService) = true)
      by reflexivity.
    pose proof (WeightedSum_le_top DefaultService _ _ _ _ HS
                  (RivalProx_unit_risk Rival SelfPos NR)
                  (PoliceProx_unit_risk PolicePos SelfPos NP)
                  (SpeedRisk_unit_risk DefaultService Speed Hm VS)
                  (DamageRisk_unit_risk Damage VD)) as HLe.
    apply Le_Clamp in HLe.
    assert (Top : Clamp (WeightedSum DefaultService one one one one) zero one
                  = BelowOne) by (vm_compute; reflexivity).
    rewrite Top in HLe.
    assert (HT : (Threat <=? BelowOne) = true) by exact HLe.
    split; [exact HT | ].
    unfold Threat, CalculateThreat in *.
    destruct (Clamp01_cases
                (WeightedSum DefaultService (RivalProx Rival SelfPos)
                   (PoliceProx PolicePos SelfPos)
                   (SpeedRisk DefaultService Speed) (DamageRisk Damage)))
      as [E | [E | (E & H0 & H1)]]; rewrite E in *.
    + reflexivity.
    + vm_compute in HT. discriminate HT.
    + exact H1.
  - intros [E | E]; unfold Threat, CalculateThreat; rewrite E.
    + rewrite WeightedSum_nan_rival. reflexivity.
    + rewrite WeightedSum_nan_police. reflexivity.
Qed.


Lemma X2_default_threat_reaches_one_only_through_nan_witness :
  valid Example.SpeedKmh = true /\ valid Example.Damage = true
  /\ RivalProx (Some Example.Rival) Example.SelfPos <> S754_nan
  /\ PoliceProx Example.NoPursuer Example.SelfPos <> S754_nan
  /\ (Example.Threat <? one) = true.
Proof.
  assert (N1 : RivalProx (Some Example.Rival) Example.SelfPos <> S754_nan).
  { intros H. vm_compute in H. discriminate H. }
  assert (N2 : PoliceProx Example.NoPursuer Example.SelfPos <> S754_nan).
  { intros H. vm_compute in H. discriminate H. }
  refine (conj _ (conj _ (conj N1 (conj N2 _))));
    [vm_compute; reflexivity .. | ].
  apply (X2_default_threat_reaches_one_only_through_nan
           (Some Example.Rival) Example.NoPursuer Example.SpeedKmh
           Example.Damage Example.SelfPos);
    [vm_compute; reflexivity | vm_compute; reflexivity | exact N1 | exact N2].
Defined.

(** The product of a negative float and a positive one carries the
    minus sign and is a number. *)
Lemma mul_negative_positive (mx : positive) (ex : Z) (my : positive) (ey : Z) :
  exists z,
    S754_finite true mx ex * S754_finite false my ey = with_sign true z
    /\ z <> S754_nan.
Proof.
  change (S754_finite true mx ex * S754_finite false my ey)
    with (binary_round_aux 24 128 true (Z.pos (mx * my)) (ex + ey)
            loc_Exact).
  eapply binary_round_aux_sign.
  apply (Repr_exact (Z.pos (mx * my)) 1); lia.
Qed.

Lemma speed_risk_signed (z max : float) :
  positive_finite max = true -> z <> S754_nan ->
  Clamp (with_sign true z / max) zero one = zero.
Proof.
  intros Hm Hz.
  destruct max as [ | | | sm my ey]; try discriminate Hm.
  cbn [positive_finite] in Hm. apply andb_prop in Hm. destruct Hm as [Hsm Hm].
  destruct sm; [discriminate Hsm | ].
  destruct z as [s | s | | s mx ex]; cbn [with_sign].
  - reflexivity.
  - apply Clamp_negative. reflexivity.
  - congruence.
  - destruct (div_negative_positive mx ex my ey) as (z' & -> & Hz').
    apply Clamp_signed_true. exact Hz'.
Qed.

Lemma lit_36_1000 : lit 36 1000 = S754_finite false 9663676 (-28).
Proof. vm_compute. reflexivity. Qed.

Lemma speed_risk_zero (max : float) :
  positive_finite max = true -> Clamp (zero / max) zero one = zero.
Proof.
  intros Hm. destruct max as [ | | | sm my ey]; try discriminate Hm.
  reflexivity.
Qed.

(** X3.  A wheeled vehicle driving backwards scores no speed risk: its
    speed is sampled from the signed forward speed, and for a finite
    positive [MaxSpeedKmh] a negative forward speed, however large,
    gives the speed risk 0, and the same threat level as standing
    still. *)
Theorem X3_reversing_vehicle_scores_no_speed_risk
    (S : UBTService_ThreatUpdate) (Pawn : APawn) (ForwardSpeed : float) :
  positive_finite (MaxSpeedKmh S) = true ->
  GetForwardSpeed Pawn = Some ForwardSpeed ->
  negative ForwardSpeed = true ->
  SpeedRisk S (SampleSpeedKmh Pawn) = zero
  /\ (forall Rival PolicePos Damage SelfPos,
        CalculateThreat S Rival PolicePos (SampleSpeedKmh Pawn) Damage SelfPos
        = CalculateThreat S Rival PolicePos zero Damage SelfPos).
Proof.
  intros Hm HF Hn.
  assert (E : SpeedRisk S (SampleSpeedKmh Pawn) = zero).
  { unfold SpeedRisk, SampleSpeedKmh. rewrite HF, lit_36_1000.
    destruct ForwardSpeed as [s | s | | s m e]; cbn [negative] in Hn;
      try discriminate Hn; subst s.
    - apply (speed_risk_signed (S754_infinity false) _ Hm). discriminate.
    - destruct (mul_negative_positive m e 9663676 (-28)) as (z & -> & Hz).
      apply speed_risk_signed; assumption. }
  split; [exact E | ].
  intros Rival PolicePos Damage SelfPos. unfold CalculateThreat.
  rewrite E. unfold SpeedRisk. rewrite (speed_risk_zero _ Hm).
  reflexivity.
Qed.

Lemma X3_reversing_vehicle_scores_no_speed_risk_witness :
  positive_finite (MaxSpeedKmh DefaultService) = true
  /\ negative (opp (of_Z 5000)) = true
  /\ SpeedRisk DefaultService
       (SampleSpeedKmh
          (MkPawn Example.SelfPos Vector.ZeroVector
                  (Some (opp (of_Z 5000))))) = zero.
Proof.
  assert (H1 : positive_finite (MaxSpeedKmh DefaultService) = true)
    by (vm_compute; reflexivity).
  assert (H2 : negative (opp (of_Z 5000)) = true)
    by (vm_compute; reflexivity).
  refine (conj H1 (conj H2 _)).
  exact (proj1 (X3_reversing_vehicle_scores_no_speed_risk DefaultService
                  (MkPawn Example.SelfPos Vector.ZeroVector
                          (Some (opp (of_Z 5000))))
                  (opp (of_Z 5000)) H1 eq_refl H2)).
Defined.

Lemma positive_finite_nonneg (x : float) :
  positive_finite x = true ->
  nonneg_valid x = true /\ 0 < ordv x /\ x <> S754_nan.
Proof.
  destruct x as [ | | | s m e]; try discriminate.
  cbn [positive_finite nonneg_valid]. intros H. split; [exact H | ].
  apply andb_prop in H. destruct H as [_ H].
  split; [apply (ordv_finite_lt m e H) | discriminate].
Qed.

Lemma speed_risk_saturates (speed max : float) :
  positive_finite max = true -> valid speed = true ->
  (max <=? speed) = true -> Clamp (speed / max) zero one = one.
Proof.
  intros Hm Vs Hle.
  destruct (positive_finite_nonneg max Hm) as (Vm & Pm & Nm).
  destruct (leb_cases max speed (nonneg_valid_valid _ Vm) Vs Hle)
    as [Hn | (_ & Hs & Ho)].
  { destruct max as [ | | | sm my ey]; try discriminate Hm.
    cbn [positive_finite] in Hm. cbn [negative] in Hn. subst sm.
    discriminate Hm. }
  destruct (speed_risk_nonneg speed max Hm Hs) as [F O]. cbv zeta in F, O.
  destruct (nonneg_finite_split _ F) as [V _].
  apply (ordv_inj _ 8388608 (-23) V); [vm_compute; reflexivity | ].
  change (ordv (S754_finite false 8388608 (-23))) with (ordv one).
  rewrite ordv_one, O.
  pose proof (ordv_nonneg speed Hs) as Rs.
  pose proof round_val_unit as U.
  set (p := 2 ^ 149) in *. set (top := 2 ^ 277) in *.
  assert (Pp : 0 < p) by (apply pow2_pos; lia).
  clearbody p top.
  destruct (Z.eqb_spec (ordv speed) top); [reflexivity | ].
  apply Z.min_r.
  apply Z.le_trans with (round_val (p * p)%Z p); [lia | ].
  apply round_val_mono; [nia | lia | lia | ].
  replace (ordv speed * p * p)%Z with (p * p * ordv speed)%Z by ring.
  apply Z.mul_le_mono_nonneg_l; [nia | exact Ho].
Qed.

(** X4.  The speed risk saturates at [MaxSpeedKmh]: for a finite
    positive [MaxSpeedKmh], every binary32 speed from [MaxSpeedKmh] on
    (infinity included) has the speed risk exactly 1, and gives the
    threat level of [MaxSpeedKmh] itself. *)
Theorem X4_speed_risk_saturates_at_max_speed
    (S : UBTService_ThreatUpdate) (Speed : float) :
  positive_finite (MaxSpeedKmh S) = true ->
  valid Speed = true ->
  (MaxSpeedKmh S <=? Speed) = true ->
  SpeedRisk S Speed = one
  /\ (forall Rival PolicePos Damage SelfPos,
        CalculateThreat S Rival PolicePos Speed Damage SelfPos
        = CalculateThreat S Rival PolicePos (MaxSpeedKmh S) Damage SelfPos).
Proof.
  intros Hm Vs Hle.
  assert (E : SpeedRisk S Speed = one)
    by (apply speed_risk_saturates; assumption).
  split; [exact E | ].
  intros Rival PolicePos Damage SelfPos. unfold CalculateThreat.
  rewrite E.
  destruct (positive_finite_nonneg _ Hm) as (Vm & _ & Nm).
  assert (E' : SpeedRisk S (MaxSpeedKmh S) = one).
  { apply speed_risk_saturates;
      [exact Hm | apply nonneg_valid_valid; exact Vm | ].
    unfold leb, SFleb. rewrite (SFcompare_refl _ Nm). reflexivity. }
  rewrite E'. reflexivity.
Qed.


Lemma X4_speed_risk_saturates_at_max_speed_witness :
  positive_finite (MaxSpeedKmh DefaultService) = true
  /\ valid (of_Z 300) = true
  /\ (MaxSpeedKmh DefaultService <=? of_Z 300) = true
  /\ SpeedRisk DefaultService (of_Z 300) = one.
Proof.
  assert (H1 : positive_finite (MaxSpeedKmh DefaultService) = true)
    by (vm_compute; reflexivity).
  assert (H2 : valid (of_Z 300) = true) by (vm_compute; reflexivity).
  assert (H3 : (MaxSpeedKmh DefaultService <=? of_Z 300) = true)
    by (vm_compute; reflexivity).
  refine (conj H1 (conj H2 (conj H3 _))).
  exact (proj1 (X4_speed_risk_saturates_at_max_speed DefaultService
                  (of_Z 300) H1 H2 H3)).
Defined.
End RiskTheorems.

(** ** The speed of a pawn that is not a vehicle *)

Module SpeedTheorems.
Import F32 FMath ThreatService Spec RoundingDefs Rounding OrderDefs Order
       SignDefs.
Local Open Scope f32_scope.

(** Rounding keeps a clear sign bit clear, in any format. *)
Lemma binary_round_aux_unsigned (prec emax mx ex : Z) (lx : location) :
  unsigned (binary_round_aux prec emax false mx ex lx) = true.
Proof.
  unfold binary_round_aux.
  destruct (shr_fexp prec emax mx ex lx) as [mrs' e'].
  destruct (shr_fexp prec emax _ e' loc_Exact) as [mrs'' e''].
  destruct (shr_m mrs''); [reflexivity | | reflexivity].
  destruct (Z.leb e'' (emax - prec)); reflexivity.
Qed.

Lemma binary_round_unsigned (prec emax : Z) (m : positive) (e : Z) :
  unsigned (binary_round prec emax false m e) = true.
Proof.
  unfold binary_round.
  destruct (shl_align m e _) as [mz ez]. apply binary_round_aux_unsigned.
Qed.

Lemma SFmul_unsigned (prec emax : Z) (x y : spec_float) :
  unsigned x = true -> unsigned y = true ->
  unsigned (SFmul prec emax x y) = true.
Proof.
  destruct x as [sx | sx | | sx mx ex]; destruct y as [sy | sy | | sy my ey];
    cbn [unsigned SFmul]; intros Hx Hy; try reflexivity;
    try (destruct sx; [discriminate Hx | ]);
    try (destruct sy; [discriminate Hy | ]); try reflexivity.
  cbn [xorb]. apply binary_round_aux_unsigned.
Qed.

Lemma SFmul_square_unsigned (prec emax : Z) (x : spec_float) :
  unsigned (SFmul prec emax x x) = true.
Proof.
  destruct x as [s | s | | s m e]; cbn [SFmul]; try reflexivity;
    try (destruct s; reflexivity).
  replace (xorb s s) with false by (destruct s; reflexivity).
  apply binary_round_aux_unsigned.
Qed.

Lemma SFadd_unsigned (prec emax : Z) (x y : spec_float) :
  unsigned x = true -> unsigned y = true ->
  unsigned (SFadd prec emax x y) = true.
Proof.
  destruct x as [sx | sx | | sx mx ex]; destruct y as [sy | sy | | sy my ey];
    cbn [unsigned SFadd]; intros Hx Hy; try reflexivity;
    try (destruct sx; [discriminate Hx | ]);
    try (destruct sy; [discriminate Hy | ]); try reflexivity.
  cbn [cond_Zopp]. unfold binary_normalize.
  change (Z.pos (fst (shl_align mx ex (IntDef.Z.min ex ey)))
          + Z.pos (fst (shl_align my ey (IntDef.Z.min ex ey))))%Z
    with (Z.pos (fst (shl_align mx ex (IntDef.Z.min ex ey))
                 + fst (shl_align my ey (IntDef.Z.min ex ey)))).
  apply binary_round_unsigned.
Qed.

Lemma SFsqrt_unsigned (prec emax : Z) (x : spec_float) :
  unsigned x = true -> unsigned (SFsqrt prec emax x) = true.
Proof.
  destruct x as [s | s | | s m e]; cbn [unsigned SFsqrt]; intros H;
    try reflexivity; destruct s; try discriminate H; try reflexivity.
  destruct (SFsqrt_core_binary prec emax (Z.pos m) e) as [[mz ez] lz].
  apply binary_round_aux_unsigned.
Qed.

Lemma Size_unsigned (V : FVector) : unsigned (Vector.Size V) = true.
Proof.
  unfold Vector.Size, F64.sqrt, F64.add, F64.mul.
  apply SFsqrt_unsigned.
  repeat apply SFadd_unsigned; apply SFmul_square_unsigned.
Qed.

(** Narrowing an unsigned double gives a non-negative binary32 number,
    or NaN. *)
Lemma to_f32_unsigned (x : F64.float) :
  unsigned x = true -> nn_or_nan (F64.to_f32 x).
Proof.
  destruct x as [s | s | | s m e]; cbn [unsigned F64.to_f32]; intros H;
    try (left; reflexivity); destruct s; try discriminate H.
  - right. reflexivity.
  - right. reflexivity.
  - right. apply binary_round_spec.
Qed.

Lemma nn_or_nan_not_negative (x : float) :
  nn_or_nan x -> negative x = false.
Proof.
  intros [-> | H]; [reflexivity | ].
  destruct x as [s | s | | s m e]; cbn [nonneg_valid negative] in *;
    try reflexivity.
  - destruct s; [discriminate H | reflexivity].
  - destruct s; [discriminate H | reflexivity].
Qed.

(** X5.  A pawn that is not a wheeled vehicle has its speed sampled
    from the magnitude of its velocity, so, whatever the velocity, the
    sampled speed is a non-negative binary32 number or NaN, never a
    negative one: unlike a vehicle in reverse, such a pawn always
    scores the speed risk of its pace. *)
Theorem X5_speed_of_a_plain_pawn_is_never_negative (SelfPawn : APawn) :
  GetForwardSpeed SelfPawn = None ->
  nn_or_nan (SampleSpeedKmh SelfPawn)
  /\ negative (SampleSpeedKmh SelfPawn) = false
  /\ valid (SampleSpeedKmh SelfPawn) = true.
Proof.
  intros HF.
  assert (H : nn_or_nan (SampleSpeedKmh SelfPawn)).
  { unfold SampleSpeedKmh. rewrite HF. apply to_f32_unsigned.
    apply SFmul_unsigned; [apply Size_unsigned | ].
    vm_compute. reflexivity. }
  split; [exact H | split; [apply nn_or_nan_not_negative; exact H | ]].
  unfold SampleSpeedKmh. rewrite HF. apply to_f32_valid.
Qed.

Lemma X5_speed_of_a_plain_pawn_is_never_negative_witness :
  GetForwardSpeed Example.TickPawn = None
  /\ negative (SampleSpeedKmh Example.TickPawn) = false.
Proof.
  split; [reflexivity | ].
  apply (X5_speed_of_a_plain_pawn_is_never_negative Example.TickPawn
           eq_refl).
Defined.
End SpeedTheorems.

(** ** The levels the motif component sets *)

Module PresentationFacts.
Import F32 FMath MotifComponent Spec MotifSpec RoundingDefs Rounding
       OrderDefs Order ThreatOrder PresentationSpec.
Local Open Scope f32_scope.

Lemma Clamp_idempotent (x : float) :
  Clamp (Clamp x zero one) zero one = Clamp x zero one.
Proof.
  destruct (Clamp01_cases x) as [-> | [-> | (E & H0 & H1)]].
  - reflexivity.
  - vm_compute. reflexivity.
  - rewrite E. unfold Clamp, Max, Min. rewrite H1, H0. reflexivity.
Qed.

Lemma Le_mul_l (p1 p2 w : float) :
  nonneg_finite w = true ->
  nonneg_finite p1 = true -> nonneg_finite p2 = true ->
  ordv p1 <= ordv p2 ->
  Le (p1 * w) (p2 * w).
Proof.
  intros Hw H1 H2 Hle. right.
  destruct (mul_nonneg p1 w H1 Hw) as [V1 O1].
  destruct (mul_nonneg p2 w H2 Hw) as [V2 O2].
  split; [exact V1 | split; [exact V2 | ]].
  rewrite O1, O2.
  destruct (nonneg_finite_split w Hw) as [Vw _].
  destruct (nonneg_finite_split p1 H1) as [Vp1 _].
  pose proof (ordv_nonneg w Vw). pose proof (ordv_nonneg p1 Vp1).
  pose proof (pow2_pos 149 ltac:(lia)) as P.
  apply round_val_mono; try nia.
Qed.

Lemma Le_leb (x y : float) :
  Le x y -> nonneg_valid x = true -> (x <=? y) = true.
Proof.
  intros [<- | (Vx & Vy & H)] V.
  - rewrite (leb_ordv x x V V). apply Z.leb_refl.
  - rewrite (leb_ordv x y Vx Vy). apply Z.leb_le. exact H.
Qed.

(** [Lerp(A, B, .)] is non-decreasing for [A <= B], on the finite
    non-negative floats. *)
Lemma Lerp_mono (A B I1 I2 : float) :
  nonneg_valid A = true -> nonneg_finite (B - A) = true ->
  nonneg_finite I1 = true -> nonneg_finite I2 = true ->
  ordv I1 <= ordv I2 ->
  nonneg_valid (Lerp A B I1) = true
  /\ Le (Lerp A B I1) (Lerp A B I2)
  /\ (Lerp A B I1 <=? Lerp A B I2) = true.
Proof.
  intros VA HD H1 H2 Hle. unfold Lerp.
  assert (V : nonneg_valid (A + I1 * (B - A)) = true).
  { apply add_nonneg; [exact VA | ]. apply mul_nonneg; assumption. }
  assert (L : Le (A + I1 * (B - A)) (A + I2 * (B - A))).
  { apply Le_add_r; [ | right; exact VA]. apply Le_mul_l; assumption. }
  split; [exact V | split; [exact L | ]].
  apply Le_leb; assumption.
Qed.

Lemma intensity_unit (Intensity01 : float) :
  valid Intensity01 = true ->
  nonneg_finite (Clamp Intensity01 zero one) = true
  /\ 0 <= ordv (Clamp Intensity01 zero one) <= 2 ^ 149.
Proof.
  intros V. pose proof (damage_risk_finite _ V) as F.
  split; [exact F | ].
  destruct (nonneg_finite_split _ F) as [NV _].
  split; [apply (ordv_nonneg _ NV) | ].
  destruct (Clamp01_range Intensity01) as [_ H].
  rewrite (leb_ordv _ one NV one_nonneg_valid), ordv_one in H.
  apply Z.leb_le in H. exact H.
Qed.

End PresentationFacts.

Module PresentationTheorems.
Import F32 FMath ThreatService MotifComponent Spec MotifSpec RoundingDefs
       Rounding OrderDefs Order ThreatOrder PresentationSpec PresentationFacts.
Local Open Scope f32_scope.

Lemma Le_ordv (x y : float) : Le x y -> ordv x <= ordv y.
Proof. intros [-> | (_ & _ & H)]; [apply Z.le_refl | exact H]. Qed.

Lemma nonneg_valid_le_finite (x y : float) :
  nonneg_valid x = true -> nonneg_finite y = true -> ordv x <= ordv y ->
  nonneg_finite x = true.
Proof.
  intros Vx Fy H. unfold nonneg_finite. rewrite Vx. cbn [andb].
  apply nonneg_below_top_finite; [exact Vx | ].
  destruct (nonneg_finite_split y Fy) as [Vy Fin].
  destruct y as [s | s | | s m e]; try discriminate Fin.
  - cbn [ordv] in H. pose proof (pow2_pos 277 ltac:(lia)). lia.
  - cbn [nonneg_valid] in Vy. apply andb_prop in Vy. destruct Vy as [_ Vy].
    pose proof (ordv_finite_lt m e Vy). cbn [ordv] in H. lia.
Qed.

(** A level interpolated between two finite non-negative floats lies
    between the levels of any two intensities around it. *)
Lemma Lerp_between (A B lo I hi : float) :
  nonneg_valid A = true -> nonneg_finite (B - A) = true ->
  nonneg_finite lo = true -> nonneg_finite I = true ->
  nonneg_finite hi = true ->
  ordv lo <= ordv I <= ordv hi ->
  nonneg_finite (Lerp A B hi) = true ->
  nonneg_finite (Lerp A B I) = true
  /\ ordv (Lerp A B lo) <= ordv (Lerp A B I) <= ordv (Lerp A B hi)
  /\ between (Lerp A B lo) (Lerp A B hi) (Lerp A B I).
Proof.
  intros VA HD Hlo HI Hhi [H1 H2] Fhi.
  destruct (Lerp_mono A B lo I VA HD Hlo HI H1) as (V1 & L1 & B1).
  destruct (Lerp_mono A B I hi VA HD HI Hhi H2) as (V2 & L2 & B2).
  pose proof (Le_ordv _ _ L1) as O1. pose proof (Le_ordv _ _ L2) as O2.
  split; [apply (nonneg_valid_le_finite _ _ V2 Fhi O2) | ].
  split; [split; assumption | split; assumption].
Qed.

(** The same for a level scaled by a finite non-negative factor. *)
Lemma scaled_between (lo x hi f : float) :
  nonneg_finite lo = true -> nonneg_finite x = true ->
  nonneg_finite hi = true -> nonneg_finite f = true ->
  ordv lo <= ordv x <= ordv hi ->
  between (lo * f) (hi * f) (x * f).
Proof.
  intros Hlo Hx Hhi Hf [H1 H2].
  destruct (mul_nonneg lo f Hlo Hf) as [V1 _].
  destruct (mul_nonneg x f Hx Hf) as [V2 _].
  split; apply Le_leb; try assumption; apply Le_mul_l; assumption.
Qed.

Lemma SetMotif_bus_levels Motif Intensity01 C Bus' :
  MusicBus (SetMotif Motif Intensity01 C) = Some Bus' ->
  PitchMultiplier Bus' = Pitch (Clamp Intensity01 zero one)
  /\ VolumeMultiplier Bus' = Volume (Clamp Intensity01 zero one).
Proof.
  unfold SetMotif, UpdateAudio, UpdateVisualFX; simpl.
  destruct (MusicBus C) as [Bus | ]; simpl; [ | discriminate].
  intros H. injection H as <-. split; reflexivity.
Qed.

Lemma SetMotif_rate Motif Intensity01 C (K : EMotif) N :
  Overlay K (SetMotif Motif Intensity01 C) = Some N ->
  IsActive N = EMotif_eqb Motif K
  /\ FloatParameter N "EmissionRate"
     = Some (EmissionRate K (Clamp Intensity01 zero one)).
Proof.
  pose proof (MotifTheorems.SetMotif_overlays Motif Intensity01 C) as H.
  cbv zeta in H. destruct H as (H1 & H2 & H3 & H4).
  unfold Drives in *.
  destruct K; cbn [Overlay EmissionRate]; intros E; rewrite E in *.
  - destruct (StormRain C); [exact H1 | contradiction].
  - destruct (CalmFog C); [exact H2 | contradiction].
  - destruct (CosmicAurora C); [exact H3 | contradiction].
  - destruct (OracleRunes C); [exact H4 | contradiction].
Qed.

Lemma rate_span_finite :
  nonneg_finite (of_Z 200 - of_Z 10) = true.
Proof. vm_compute. reflexivity. Qed.

Lemma pitch_span_finite :
  nonneg_finite (lit 108 100 - lit 95 100) = true.
Proof. vm_compute. reflexivity. Qed.

Lemma volume_span_finite : nonneg_finite (one - lit 6 10) = true.
Proof. vm_compute. reflexivity. Qed.

Lemma ordv_zero : ordv zero = 0.
Proof. reflexivity. Qed.

(** The levels of an intensity between two others. *)
Lemma levels_between (lo I hi : float) :
  nonneg_finite lo = true -> nonneg_finite I = true ->
  nonneg_finite hi = true -> ordv lo <= ordv I <= ordv hi ->
  nonneg_finite (BaseRate hi) = true ->
  nonneg_finite (Pitch hi) = true -> nonneg_finite (Volume hi) = true ->
  (forall K, between (EmissionRate K lo) (EmissionRate K hi)
                     (EmissionRate K I))
  /\ between (Pitch lo) (Pitch hi) (Pitch I)
  /\ between (Volume lo) (Volume hi) (Volume I).
Proof.
  intros Hlo HI Hhi Ho Fr Fp Fv.
  destruct (Lerp_between (of_Z 10) (of_Z 200) lo I hi eq_refl
              rate_span_finite Hlo HI Hhi Ho Fr) as (FI & OI & BI).
  assert (Flo : nonneg_finite (BaseRate lo) = true).
  { apply (Lerp_between (of_Z 10) (of_Z 200) lo lo hi eq_refl
             rate_span_finite Hlo Hlo Hhi); [lia | exact Fr]. }
  split; [ | split].
  - intros K. destruct K; cbn [EmissionRate].
    + exact BI.
    + apply scaled_between; try assumption. reflexivity.
    + apply scaled_between; try assumption. reflexivity.
    + apply scaled_between; try assumption. reflexivity.
  - apply (Lerp_between (lit 95 100) (lit 108 100) lo I hi eq_refl
             pitch_span_finite Hlo HI Hhi Ho Fp).
  - apply (Lerp_between (lit 6 10) one lo I hi eq_refl
             volume_span_finite Hlo HI Hhi Ho Fv).
Qed.


Lemma unit_levels_finite :
  nonneg_finite (BaseRate one) = true
  /\ nonneg_finite (Pitch one) = true /\ nonneg_finite (Volume one) = true.
Proof. repeat split; vm_compute; reflexivity. Qed.

Lemma rate_ends :
  EmissionRate Storm zero = of_Z 10 /\ EmissionRate Storm one = of_Z 200
  /\ EmissionRate Calm zero = of_Z 5 /\ EmissionRate Calm one = of_Z 100
  /\ EmissionRate Cosmic zero = of_Z 8 /\ EmissionRate Cosmic one = of_Z 160
  /\ EmissionRate Oracle zero = of_Z 6
  /\ EmissionRate Oracle one = S754_finite false 15728641 (-17).
Proof. repeat split; vm_compute; reflexivity. Qed.

Lemma level_ends :
  Pitch zero = lit 95 100 /\ Pitch one = lit 108 100
  /\ Volume zero = lit 6 10 /\ Volume one = one.
Proof. repeat split; vm_compute; reflexivity. Qed.

(** X6.  Whatever binary32 intensity [SetMotif] is called with (NaN and
    the infinities included), every overlay system that exists gets an
    emission rate within the range of its kind: [10, 200] for Storm,
    [5, 100] for Calm, [8, 160] for Cosmic and [6, 120.00001] for Oracle
    (200 * 0.6f rounds up); the music bus, when there is one, gets a
    pitch multiplier in [0.95f, 1.08f] and a volume multiplier in
    [0.6f, 1]. *)
Theorem X6_levels_stay_in_range
    (Motif : EMotif) (Intensity01 : float) (C : USoulvanMotifComponent) :
  valid Intensity01 = true ->
  let C' := SetMotif Motif Intensity01 C in
  (forall K N, Overlay K C' = Some N ->
     exists Rate,
       FloatParameter N "EmissionRate" = Some Rate
       /\ between (EmissionRate K zero) (EmissionRate K one) Rate)
  /\ (forall Bus', MusicBus C' = Some Bus' ->
        between (lit 95 100) (lit 108 100) (PitchMultiplier Bus')
        /\ between (lit 6 10) one (VolumeMultiplier Bus'))
  /\ (EmissionRate Storm zero = of_Z 10
      /\ EmissionRate Storm one = of_Z 200
      /\ EmissionRate Calm zero = of_Z 5
      /\ EmissionRate Calm one = of_Z 100
      /\ EmissionRate Cosmic zero = of_Z 8
      /\ EmissionRate Cosmic one = of_Z 160
      /\ EmissionRate Oracle zero = of_Z 6
      /\ EmissionRate Oracle one = S754_finite false 15728641 (-17)).
Proof.
  intros V C'.
  destruct (intensity_unit Intensity01 V) as (FI & O0 & O1).
  destruct unit_levels_finite as (Fr & Fp & Fv).
  destruct (levels_between zero (Clamp Intensity01 zero one) one
              eq_refl FI eq_refl) as (HR & HP & HV); try assumption.
  { rewrite ordv_zero, ordv_one. split; assumption. }
  destruct level_ends as (P0 & P1 & V0 & V1).
  rewrite P0, P1 in HP. rewrite V0, V1 in HV.
  split; [ | split; [ | exact rate_ends]].
  - intros K N HN.
    destruct (SetMotif_rate Motif Intensity01 C K N HN) as [_ E].
    eexists. split; [exact E | apply HR].
  - intros Bus' HB.
    destruct (SetMotif_bus_levels Motif Intensity01 C Bus' HB) as [-> ->].
    split; assumption.
Qed.

Lemma X6_levels_stay_in_range_witness :
  valid (lit 13 10) = true
  /\ exists N Rate,
       Overlay Oracle (SetMotif Calm (lit 13 10) Example.Component) = Some N
       /\ FloatParameter N "EmissionRate" = Some Rate
       /\ between (of_Z 6) (S754_finite false 15728641 (-17)) Rate.
Proof.
  refine (conj _ _); [vm_compute; reflexivity | ].
  destruct (X6_levels_stay_in_range Calm (lit 13 10) Example.Component)
    as (H & _ & R); [vm_compute; reflexivity | ].
  destruct (Overlay Oracle (SetMotif Calm (lit 13 10) Example.Component))
    as [N | ] eqn:E; [ | discriminate E].
  destruct (H Oracle N E) as (Rate & HR & HB).
  destruct R as (_ & _ & _ & _ & _ & _ & R6 & R7).
  rewrite R6, R7 in HB.
  exists N, Rate. split; [reflexivity | split; assumption].
Defined.

(** X7.  The levels follow the intensity: of two calls of [SetMotif]
    with binary32 intensities [I1 <= I2], the second stores an
    intensity, gives every overlay an emission rate, and gives the
    music bus a pitch and a volume, that are not lower than the
    first's. *)
Theorem X7_levels_follow_intensity
    (Motif : EMotif) (I1 I2 : float) (C : USoulvanMotifComponent) :
  valid I1 = true -> valid I2 = true -> (I1 <=? I2) = true ->
  let C1 := SetMotif Motif I1 C in
  let C2 := SetMotif Motif I2 C in
  (CurrentIntensity C1 <=? CurrentIntensity C2) = true
  /\ (forall K N1 N2,
        Overlay K C1 = Some N1 -> Overlay K C2 = Some N2 ->
        exists R1 R2,
          FloatParameter N1 "EmissionRate" = Some R1
          /\ FloatParameter N2 "EmissionRate" = Some R2
          /\ (R1 <=? R2) = true)
  /\ (forall B1 B2,
        MusicBus C1 = Some B1 -> MusicBus C2 = Some B2 ->
        (PitchMultiplier B1 <=? PitchMultiplier B2) = true
        /\ (VolumeMultiplier B1 <=? VolumeMultiplier B2) = true).
Proof.
  intros V1 V2 Hle C1 C2.
  destruct (intensity_unit I1 V1) as (F1 & O1 & _).
  destruct (intensity_unit I2 V2) as (F2 & _ & O2).
  pose proof (damage_risk_mono I1 I2 V1 V2 Hle) as Ho.
  destruct unit_levels_finite as (Fr & Fp & Fv).
  destruct (levels_between (Clamp I1 zero one) (Clamp I2 zero one) one
              F1 F2 eq_refl) as (HR & HP & HV); try assumption.
  { rewrite ordv_one. split; assumption. }
  split; [ | split].
  - unfold C1, C2. rewrite !MotifTheorems.SetMotif_CurrentIntensity.
    destruct (nonneg_finite_split _ F1) as [NV1 _].
    destruct (nonneg_finite_split _ F2) as [NV2 _].
    rewrite (leb_ordv _ _ NV1 NV2). apply Z.leb_le. exact Ho.
  - intros K N1 N2 H1 H2.
    destruct (SetMotif_rate Motif I1 C K N1 H1) as [_ E1].
    destruct (SetMotif_rate Motif I2 C K N2 H2) as [_ E2].
    eexists. eexists. split; [exact E1 | split; [exact E2 | ]].
    apply (HR K).
  - intros B1 B2 H1 H2.
    destruct (SetMotif_bus_levels Motif I1 C B1 H1) as [-> ->].
    destruct (SetMotif_bus_levels Motif I2 C B2 H2) as [-> ->].
    split; [apply HP | apply HV].
Qed.

Lemma X7_levels_follow_intensity_witness :
  valid (lit 3 10) = true /\ valid (lit 8 10) = true
  /\ (lit 3 10 <=? lit 8 10) = true
  /\ (CurrentIntensity (SetMotif Storm (lit 3 10) Example.Component)
      <=? CurrentIntensity (SetMotif Storm (lit 8 10) Example.Component))
     = true.
Proof.
  assert (H1 : valid (lit 3 10) = true) by (vm_compute; reflexivity).
  assert (H2 : valid (lit 8 10) = true) by (vm_compute; reflexivity).
  assert (H3 : (lit 3 10 <=? lit 8 10) = true) by (vm_compute; reflexivity).
  refine (conj H1 (conj H2 (conj H3 _))).
  exact (proj1 (X7_levels_follow_intensity Storm (lit 3 10) (lit 8 10)
                  Example.Component H1 H2 H3)).
Defined.


(** The motif intensity of a clamped threat is a finite non-negative
    binary32 number, whatever the threat. *)
Lemma plus_finite_unit (m : positive) (e : Z) :
  nonneg_finite (Clamp (lit 4 10 + S754_finite false m e) zero one) = true.
Proof.
  rewrite lit_4_10.
  destruct (SFadd_finite_spec 13421773 (-25) m e) as [V _].
  cbv zeta in V.
  change (SFadd 24 128 (S754_finite false 13421773 (-25))
                (S754_finite false m e))
    with (S754_finite false 13421773 (-25) + S754_finite false m e) in V.
  destruct (Clamp_nonneg _ V) as (Vc & _ & Fc).
  unfold nonneg_finite. rewrite Vc, Fc. reflexivity.
Qed.

Lemma plus_product_unit (m : positive) (e : Z) :
  nonneg_finite (Clamp (lit 4 10 + S754_finite false m e * lit 6 10)
                       zero one) = true.
Proof.
  rewrite lit_6_10.
  change (S754_finite false m e * S754_finite false 10066330 (-24))
    with (binary_round_aux 24 128 false (Z.pos (m * 10066330))
            (e + -24)%Z loc_Exact).
  pose proof (Repr_exact (Z.pos (m * 10066330)) 1 ltac:(lia) ltac:(lia))
    as HR.
  destruct (binary_round_aux_sign false _ (e + -24)%Z _ _ _ HR)
    as (z & -> & Hz).
  destruct z as [s | s | | s m' e']; cbn [with_sign].
  - vm_compute. reflexivity.
  - vm_compute. reflexivity.
  - congruence.
  - apply plus_finite_unit.
Qed.

Lemma motif_intensity_finite (T : float) :
  nonneg_finite (MotifIntensityOf (Clamp T zero one)) = true.
Proof.
  unfold MotifIntensityOf.
  destruct (Clamp01_cases T) as [-> | [-> | (-> & H0 & H1)]].
  - vm_compute. reflexivity.
  - vm_compute. reflexivity.
  - destruct T as [s | s | | s m e].
    + discriminate H0.
    + destruct s; [discriminate H0 | discriminate H1].
    + discriminate H0.
    + destruct s; [discriminate H0 | ]. apply plus_product_unit.
Qed.

Lemma floor_finite : nonneg_finite (lit 4 10) = true.
Proof. vm_compute. reflexivity. Qed.

(** X8.  The intensity a tick of the threat service writes to the
    blackboard passes through [SetMotif] unchanged (the clamp of
    [SetMotif] has nothing left to do), and because it is never below
    0.4f, the component it drives never goes below the levels of
    0.4f: the base emission rate stays in [86, 200], and the pitch and
    the volume of the music bus stay between their values at 0.4f and
    their maxima 1.08f and 1. *)
Theorem X8_service_intensity_drives_component
    (S : UBTService_ThreatUpdate) (Comp : UBehaviorTreeComponent)
    (BB : UBlackboardComponent) (Ctl : AAIController) (Pawn : APawn)
    (Motif : EMotif) (C : USoulvanMotifComponent) :
  GetBlackboardComponent Comp = Some BB ->
  GetAIOwner Comp = Some Ctl ->
  GetPawn Ctl = Some Pawn ->
  exists BB',
    GetBlackboardComponent (TickNode S Comp) = Some BB'
    /\ let C' := SetMotif Motif (bbMotifIntensity BB') C in
       CurrentIntensity C' = bbMotifIntensity BB'
       /\ (forall K N, Overlay K C' = Some N ->
             exists Rate,
               FloatParameter N "EmissionRate" = Some Rate
               /\ between (EmissionRate K (lit 4 10)) (EmissionRate K one)
                          Rate)
       /\ (forall Bus', MusicBus C' = Some Bus' ->
             between (Pitch (lit 4 10)) (lit 108 100) (PitchMultiplier Bus')
             /\ between (Volume (lit 4 10)) one (VolumeMultiplier Bus'))
       /\ EmissionRate Storm (lit 4 10) = of_Z 86
       /\ EmissionRate Storm one = of_Z 200.
Proof.
  intros HB HC HP.
  pose proof (ThreatFacts.TickNode_writes S Comp BB Ctl Pawn HB HC HP) as HW.
  cbv zeta in HW. eexists. split; [exact HW | ].
  cbn [bbMotifIntensity]. unfold CalculateThreat.
  set (T := WeightedSum S _ _ _ _).
  set (I := MotifIntensityOf (Clamp T zero one)).
  assert (EI : Clamp I zero one = I)
    by (unfold I, MotifIntensityOf; apply Clamp_idempotent).
  pose proof (motif_intensity_finite T) as FI. fold I in FI.
  pose proof (motif_floor T) as HF. fold I in HF.
  destruct (nonneg_finite_split _ FI) as [NV _].
  destruct (nonneg_finite_split _ floor_finite) as [NVf _].
  rewrite (leb_ordv _ _ NVf NV) in HF. apply Z.leb_le in HF.
  assert (HO : ordv I <= 2 ^ 149).
  { destruct (Clamp01_range (lit 4 10 + Clamp T zero one * lit 6 10))
      as [_ H].
    change (Clamp (lit 4 10 + Clamp T zero one * lit 6 10) zero one)
      with I in H.
    rewrite (leb_ordv _ one NV one_nonneg_valid), ordv_one in H.
    apply Z.leb_le in H. exact H. }
  destruct unit_levels_finite as (Fr & Fp & Fv).
  destruct (levels_between (lit 4 10) I one floor_finite FI eq_refl)
    as (HR & HPi & HV); try assumption.
  { rewrite ordv_one. split; assumption. }
  destruct level_ends as (_ & P1 & _ & V1).
  rewrite P1 in HPi. rewrite V1 in HV.
  split; [ | split; [ | split; [ | split]]].
  - rewrite MotifTheorems.SetMotif_CurrentIntensity. exact EI.
  - intros K N HN.
    destruct (SetMotif_rate Motif I C K N HN) as [_ E].
    rewrite EI in E. eexists. split; [exact E | apply HR].
  - intros Bus' HBus.
    destruct (SetMotif_bus_levels Motif I C Bus' HBus) as [-> ->].
    rewrite EI. split; assumption.
  - vm_compute. reflexivity.
  - vm_compute. reflexivity.
Qed.

Lemma X8_service_intensity_drives_component_witness :
  exists BB',
    GetBlackboardComponent (TickNode DefaultService Example.TickTree)
    = Some BB'
    /\ CurrentIntensity
         (SetMotif Storm (bbMotifIntensity BB') Example.Component)
       = bbMotifIntensity BB'.
Proof.
  destruct (X8_service_intensity_drives_component DefaultService
              Example.TickTree Example.TickBlackboard
              (MkController (Some Example.TickPawn)) Example.TickPawn
              Storm Example.Component eq_refl eq_refl eq_refl)
    as (BB' & H1 & H2 & _).
  exists BB'. split; [exact H1 | exact H2].
Defined.

End PresentationTheorems.

(** ** Calling [SetMotif] again *)

Module ReapplyTheorems.
Import F32 FMath MotifComponent MotifAccess Spec MotifSpec PresentationSpec
       PresentationFacts.
Local Open Scope f32_scope.

Lemma UpdateAudioBus_PlayCount Target Intensity Bus :
  PlayCount (Calls (UpdateAudioBus Target Intensity Bus))
  = (PlayCount (Calls Bus) + if NeedsSwap Bus Target then 1 else 0)%nat.
Proof.
  rewrite AudioTheorems.UpdateAudioBus_Calls. unfold AudioCallsOf.
  destruct Target as [T | ].
  - destruct (NeedsSwap Bus (Some T)); cbn [app PlayCount]; lia.
  - cbn [NeedsSwap app PlayCount]. lia.
Qed.

(** X9.  However many times in a row [SetMotif] is called with the same
    motif, whatever the intensities, the music bus is started at most
    once: [Play] is issued by the first call, and only if the motif's
    track is assigned and differs from the sound on the bus; from then
    on the bus holds the track. *)
Theorem X9_repeated_motif_plays_at_most_once
    (Motif : EMotif) (l : list float) (C : USoulvanMotifComponent)
    (Bus : UAudioComponent) :
  MusicBus C = Some Bus ->
  exists Bus',
    MusicBus (SetMotifAll Motif l C) = Some Bus'
    /\ (PlayCount (Calls Bus') <= PlayCount (Calls Bus) + 1)%nat
    /\ (l <> [] ->
        PlayCount (Calls Bus')
        = (PlayCount (Calls Bus)
           + if NeedsSwap Bus (TargetMusic C Motif) then 1 else 0)%nat
        /\ NeedsSwap Bus' (TargetMusic C Motif) = false).
Proof.
  revert C Bus. induction l as [ | I l IH]; intros C Bus HB.
  - exists Bus. cbn [SetMotifAll]. split; [exact HB | ].
    split; [lia | congruence].
  - cbn [SetMotifAll].
    set (T := TargetMusic C Motif).
    set (B1 := UpdateAudioBus T (Clamp I zero one) Bus).
    assert (H1 : MusicBus (SetMotif Motif I C) = Some B1)
      by (apply AudioTheorems.SetMotif_MusicBus; exact HB).
    assert (HT : TargetMusic (SetMotif Motif I C) Motif = T)
      by apply AudioTheorems.SetMotif_TargetMusic.
    destruct (AudioTheorems.UpdateAudioBus_settled T (Clamp I zero one)
                (Clamp I zero one) Bus) as [Hs _].
    fold B1 in Hs.
    pose proof (UpdateAudioBus_PlayCount T (Clamp I zero one) Bus) as P1.
    fold B1 in P1.
    destruct (IH (SetMotif Motif I C) B1 H1) as (Bus' & HB' & Hle & Hne).
    rewrite HT in Hne.
    exists Bus'. split; [exact HB' | ].
    assert (E : PlayCount (Calls Bus') = PlayCount (Calls B1)
                /\ NeedsSwap Bus' T = false).
    { destruct l as [ | I' l'].
      - cbn [SetMotifAll] in HB'. rewrite H1 in HB'. injection HB' as <-.
        split; [reflexivity | exact Hs].
      - destruct Hne as [Hp Hn]; [discriminate | ].
        rewrite Hs in Hp. split; [lia | exact Hn]. }
    destruct E as [Ep En]. rewrite Ep, P1.
    split; [destruct (NeedsSwap Bus T); lia | ].
    intros _. split; [reflexivity | exact En].
Qed.

Lemma X9_repeated_motif_plays_at_most_once_witness :
  MusicBus Example.Component = Some Example.SilentBus
  /\ exists Bus',
       MusicBus (SetMotifAll Cosmic [lit 2 10; lit 9 10; lit 5 10]
                   Example.Component) = Some Bus'
       /\ PlayCount (Calls Bus') = 1%nat.
Proof.
  split; [reflexivity | ].
  destruct (X9_repeated_motif_plays_at_most_once Cosmic
              [lit 2 10; lit 9 10; lit 5 10] Example.Component
              Example.SilentBus eq_refl) as (Bus' & H1 & _ & H3).
  exists Bus'. split; [exact H1 | ].
  destruct H3 as [H3 _]; [discriminate | ]. exact H3.
Defined.

Lemma SetFloatParameter_same (N : UNiagaraComponent) (v : float) (b : bool) :
  IsActive N = b ->
  FloatParameter N "EmissionRate" = Some v ->
  SameOverlay (Some N)
    (SetNiagaraFloatParameter (SetActiveIfPresent (Some N) b)
       "EmissionRate" v).
Proof.
  intros Hb Hv. cbn. split; [symmetry; exact Hb | ].
  intros n. destruct (String.eqb_spec n "EmissionRate") as [-> | _];
    [symmetry; exact Hv | reflexivity].
Qed.

Lemma SetMotif_Overlay Motif Intensity01 C (K : EMotif) :
  Overlay K (SetMotif Motif Intensity01 C)
  = SetNiagaraFloatParameter
      (SetActiveIfPresent (Overlay K C) (EMotif_eqb Motif K))
      "EmissionRate" (EmissionRate K (Clamp Intensity01 zero one)).
Proof.
  unfold SetMotif, UpdateAudio, UpdateVisualFX; simpl.
  destruct (MusicBus C); destruct K; reflexivity.
Qed.

Lemma SetMotif_no_bus Motif Intensity01 C :
  MusicBus C = None -> MusicBus (SetMotif Motif Intensity01 C) = None.
Proof.
  intros HB. unfold SetMotif, UpdateAudio, UpdateVisualFX; simpl.
  rewrite HB. reflexivity.
Qed.

Lemma UpdateAudioBus_levels Target Intensity Bus :
  PitchMultiplier (UpdateAudioBus Target Intensity Bus) = Pitch Intensity
  /\ VolumeMultiplier (UpdateAudioBus Target Intensity Bus)
     = Volume Intensity.
Proof. split; reflexivity. Qed.

Lemma UpdateAudioBus_settled_same Target Intensity Bus :
  NeedsSwap Bus Target = false ->
  Sound (UpdateAudioBus Target Intensity Bus) = Sound Bus
  /\ PlayCount (Calls (UpdateAudioBus Target Intensity Bus))
     = PlayCount (Calls Bus).
Proof.
  intros Hs. split.
  - unfold UpdateAudioBus. destruct Target as [T | ]; [ | reflexivity].
    rewrite Hs. reflexivity.
  - rewrite UpdateAudioBus_PlayCount, Hs. lia.
Qed.

(** A component whose overlays and bus show its motif and intensity is
    left as it is by [BeginPlay]. *)
Lemma BeginPlay_settled (C1 : USoulvanMotifComponent) :
  Clamp (CurrentIntensity C1) zero one = CurrentIntensity C1 ->
  (forall K N, Overlay K C1 = Some N ->
     IsActive N = EMotif_eqb (CurrentMotif C1) K
     /\ FloatParameter N "EmissionRate"
        = Some (EmissionRate K (CurrentIntensity C1))) ->
  (forall B1, MusicBus C1 = Some B1 ->
     NeedsSwap B1 (TargetMusic C1 (CurrentMotif C1)) = false
     /\ PitchMultiplier B1 = Pitch (CurrentIntensity C1)
     /\ VolumeMultiplier B1 = Volume (CurrentIntensity C1)) ->
  CurrentMotif (BeginPlay C1) = CurrentMotif C1
  /\ CurrentIntensity (BeginPlay C1) = CurrentIntensity C1
  /\ (forall K, SameOverlay (Overlay K C1) (Overlay K (BeginPlay C1)))
  /\ SameBus (MusicBus C1) (MusicBus (BeginPlay C1)).
Proof.
  intros EI HO HB. unfold BeginPlay.
  split; [apply MotifTheorems.SetMotif_CurrentMotif | ].
  split; [rewrite MotifTheorems.SetMotif_CurrentIntensity; exact EI | ].
  split.
  - intros K. rewrite SetMotif_Overlay, EI.
    specialize (HO K).
    destruct (Overlay K C1) as [N1 | ]; [ | exact I].
    destruct (HO N1 eq_refl) as [A1 R1].
    apply SetFloatParameter_same; assumption.
  - destruct (MusicBus C1) as [B1 | ] eqn:E1.
    + rewrite (AudioTheorems.SetMotif_MusicBus _ _ C1 B1 E1), EI.
      destruct (HB B1 eq_refl) as (Hs & HP & HV).
      destruct (UpdateAudioBus_settled_same _ (CurrentIntensity C1) B1 Hs)
        as [S1 S2].
      destruct (UpdateAudioBus_levels (TargetMusic C1 (CurrentMotif C1))
                  (CurrentIntensity C1) B1) as [P V].
      cbn [SameBus]. rewrite S1, S2, P, V, HP, HV. repeat split.
    + rewrite (SetMotif_no_bus _ _ C1 E1). exact I.
Qed.

(** X10.  [SetMotif] is idempotent on what is seen and heard: calling
    it again with the motif and the intensity the getters report
    (which is what [BeginPlay] does) leaves the reported motif and
    intensity as they are, every overlay system with the same flag and
    the same parameters, and the music bus with the same sound, pitch
    and volume, and not restarted; a tick of the component changes
    nothing. *)
Theorem X10_reapplying_the_stored_motif_changes_nothing
    (Motif : EMotif) (Intensity01 DeltaTime : float)
    (C : USoulvanMotifComponent) :
  let C1 := SetMotif Motif Intensity01 C in
  let C2 := BeginPlay C1 in
  C2 = SetMotif (GetCurrentMotif C1) (GetCurrentIntensity C1) C1
  /\ GetCurrentMotif C2 = GetCurrentMotif C1
  /\ GetCurrentIntensity C2 = GetCurrentIntensity C1
  /\ (forall K, SameOverlay (Overlay K C1) (Overlay K C2))
  /\ SameBus (MusicBus C1) (MusicBus C2)
  /\ TickComponent DeltaTime C2 = C2.
Proof.
  intros C1 C2.
  assert (EM : CurrentMotif C1 = Motif)
    by apply MotifTheorems.SetMotif_CurrentMotif.
  assert (EI : CurrentIntensity C1 = Clamp Intensity01 zero one)
    by apply MotifTheorems.SetMotif_CurrentIntensity.
  assert (HO : forall K N, Overlay K C1 = Some N ->
             IsActive N = EMotif_eqb (CurrentMotif C1) K
             /\ FloatParameter N "EmissionRate"
                = Some (EmissionRate K (CurrentIntensity C1))).
  { rewrite EM, EI.
    apply (PresentationTheorems.SetMotif_rate Motif Intensity01 C). }
  assert (HB : forall B1, MusicBus C1 = Some B1 ->
             NeedsSwap B1 (TargetMusic C1 (CurrentMotif C1)) = false
             /\ PitchMultiplier B1 = Pitch (CurrentIntensity C1)
             /\ VolumeMultiplier B1 = Volume (CurrentIntensity C1)).
  { rewrite EM, EI. intros B1 HB1.
    destruct (PresentationTheorems.SetMotif_bus_levels Motif Intensity01 C
                B1 HB1) as [HP HV].
    split; [ | split; assumption].
    unfold C1 in *. rewrite AudioTheorems.SetMotif_TargetMusic.
    destruct (MusicBus C) as [Bus | ] eqn:HBus.
    - rewrite (AudioTheorems.SetMotif_MusicBus Motif Intensity01 C Bus HBus)
        in HB1.
      injection HB1 as <-.
      apply (AudioTheorems.UpdateAudioBus_settled (TargetMusic C Motif)
               (Clamp Intensity01 zero one) (Clamp Intensity01 zero one) Bus).
    - rewrite (SetMotif_no_bus Motif Intensity01 C HBus) in HB1.
      discriminate HB1. }
  assert (EC : Clamp (CurrentIntensity C1) zero one = CurrentIntensity C1)
    by (rewrite EI; apply Clamp_idempotent).
  clearbody C1.
  destruct (BeginPlay_settled C1 EC HO HB) as (H1 & H2 & H3 & H4).
  unfold GetCurrentMotif, GetCurrentIntensity, TickComponent.
  repeat split; assumption.
Qed.
End ReapplyTheorems.

(** ** The wallet subsystem *)

Module WalletFacts.
Import F32 Wallet WalletSpec.

Ltac unlocked_cases :=
  repeat match goal with
         | |- context [bIsUnlocked ?W] => destruct (bIsUnlocked W) eqn:?
         end.

Lemma locked_refuses (G : Game) (E : Event) :
  IsWalletUnlocked G = false -> NeedsUnlock E = true -> Perform E G = G.
Proof.
  intros HL HE.
  destruct E; try discriminate HE; cbn [Perform];
    unfold SendTokens, GetBalances, MintNft, TransferNft, GetNfts,
      VoteOnProposal, SubmitProposal, GetProposals, GetChronicleEntries;
    rewrite HL; reflexivity.
Qed.


(** Unfolding the operations, without touching the floats. *)
Ltac wallet_unfold :=
  unfold Perform, Invoke, Deinitialize, Initialize,
    ProcessUnlockResponse, ProcessBalancesResponse, ProcessNftsResponse,
    ProcessProposalsResponse, ProcessMintResponse, ProcessVoteResponse,
    LockWallet, UnlockWallet, SendTokens, GetBalances,
    MintNft, TransferNft, GetNfts, VoteOnProposal, SubmitProposal,
    GetProposals, GetChronicleEntries,
    SetTimer, Broadcast, Update,
    GetWalletAddress, IsWalletUnlocked, GetCachedBalances, GetCachedNfts,
    GetCachedProposals, PendingLambdas in *;
  cbn [Debit CountNft SetUnlocked SetCachedBalances SetCachedNfts
       SetCachedProposals SetPendingRewards
       Subsystem Timers Heard
       RpcUrl ChainId WalletAddress bIsUnlocked CachedBalances CachedNfts
       CachedProposals SoulvanCoinAddress CarSkinAddress ChronicleAddress
       GovernanceAddress PendingRewards
       SoulvanCoin Eth NftCount BadgeCount VotingPower
       Callback InRate negb] in *.

Ltac wallet_cbn :=
  cbn [Debit CountNft SetUnlocked SetCachedBalances SetCachedNfts
       SetCachedProposals SetPendingRewards
       Subsystem Timers Heard
       RpcUrl ChainId WalletAddress bIsUnlocked CachedBalances CachedNfts
       CachedProposals SoulvanCoinAddress CarSkinAddress ChronicleAddress
       GovernanceAddress PendingRewards
       SoulvanCoin Eth NftCount BadgeCount VotingPower
       Callback InRate negb] in *.

(** Case analysis on the guard of the operations. *)
Ltac by_guard G :=
  let HU := fresh "HU" in
  destruct (bIsUnlocked (Subsystem G)) eqn:HU; wallet_cbn; rewrite ?HU.

Lemma ToLowerChar_refl (c : TCHAR) :
  N.eqb (ToLowerChar c) (ToLowerChar c) = true.
Proof. apply N.eqb_refl. Qed.

Lemma Equals_refl (a : FString) : Equals a a = true.
Proof.
  induction a as [ | x a IH]; [reflexivity | ].
  cbn [Equals]. rewrite N.eqb_refl, IH. reflexivity.
Qed.

Lemma Remove_In (Item x : FString) (Array : list FString) :
  In x (Remove Item Array) -> In x Array /\ x <> Item.
Proof.
  unfold Remove. intros H. apply filter_In in H. destruct H as [H1 H2].
  split; [exact H1 | ]. intros ->. rewrite Equals_refl in H2.
  discriminate H2.
Qed.

Lemma Remove_Add (Item : FString) (Array : list FString) :
  Remove Item (Add Item Array) = Remove Item Array.
Proof.
  unfold Remove, Add. rewrite filter_app. cbn [filter].
  rewrite Equals_refl. cbn [negb]. apply app_nil_r.
Qed.

(** The timer that was set last is at the end of the list. *)
Lemma nth_error_last {A : Type} (l : list A) (x : A) :
  nth_error (l ++ [x]) (List.length l) = Some x.
Proof.
  rewrite nth_error_app2 by lia. rewrite Nat.sub_diag. reflexivity.
Qed.

Lemma remove_last {A : Type} (l : list A) (x : A) :
  firstn (List.length l) (l ++ [x]) ++ skipn (S (List.length l)) (l ++ [x])
  = l.
Proof.
  rewrite firstn_app, Nat.sub_diag, firstn_all. cbn [firstn].
  rewrite skipn_all2 by (rewrite length_app; cbn; lia).
  rewrite !app_nil_r. reflexivity.
Qed.

(** Firing the timer that was set last runs its lambda on the game as
    it was before the timer was set. *)
Lemma Fire_last (L : Lambda) (Rate : float) (Rand : Z) (G : Game) :
  Fire (List.length (Timers G)) Rand (SetTimer L Rate G) = Invoke L Rand G.
Proof.
  unfold Fire, SetTimer. cbn [Timers Subsystem Heard].
  rewrite nth_error_last, remove_last. cbn [Callback].
  destruct G; reflexivity.
Qed.


Lemma ToUpperChar_idempotent (c : TCHAR) :
  ToUpperChar (ToUpperChar c) = ToUpperChar c.
Proof.
  unfold ToUpperChar.
  destruct (N.leb_spec 97 c) as [H1 | H1];
    destruct (N.ltb_spec c 123) as [H2 | H2]; cbn [andb].
  - destruct (N.leb_spec 97 (c - 32)) as [H3 | H3]; [lia | reflexivity].
  - destruct (N.leb_spec 97 c) as [H3 | H3]; [ | lia].
    destruct (N.ltb_spec c 123) as [H4 | H4]; [lia | reflexivity].
  - destruct (N.leb_spec 97 c) as [H3 | H3]; [lia | reflexivity].
  - destruct (N.leb_spec 97 c) as [H3 | H3]; [lia | reflexivity].
Qed.

Lemma ToUpper_idempotent (s : FString) : ToUpper (ToUpper s) = ToUpper s.
Proof.
  unfold ToUpper. rewrite map_map. apply map_ext.
  intros c. apply ToUpperChar_idempotent.
Qed.

Lemma ToUpper_length (s : FString) : List.length (ToUpper s) = List.length s.
Proof. apply length_map. Qed.

Lemma Left_ToUpper (n : nat) (s : FString) :
  Left n (ToUpper s) = ToUpper (Left n s).
Proof. unfold Left, ToUpper. apply firstn_map. Qed.

Lemma Right_ToUpper (n : nat) (s : FString) :
  Right n (ToUpper s) = ToUpper (Right n s).
Proof. unfold Right, ToUpper. rewrite length_map. apply skipn_map. Qed.

Lemma Left_length (n : nat) (s : FString) :
  (List.length (Left n s) <= n)%nat.
Proof. unfold Left. apply firstn_le_length. Qed.

Lemma Right_length (n : nat) (s : FString) :
  (List.length (Right n s) <= n)%nat.
Proof. unfold Right. rewrite length_skipn. lia. Qed.

(** The first and the last four code units of a passphrase that has a
    four-unit head and a four-unit tail. *)
Lemma Left_head (a rest : FString) :
  List.length a = 4%nat -> Left 4 (a ++ rest) = a.
Proof.
  intros H. unfold Left. rewrite firstn_app, H, Nat.sub_diag, firstn_O.
  rewrite <- H, firstn_all. apply app_nil_r.
Qed.

Lemma Right_tail (rest b : FString) :
  List.length b = 4%nat -> Right 4 (rest ++ b) = b.
Proof.
  intros H. unfold Right. rewrite length_app, H.
  replace (List.length rest + 4 - 4)%nat with (List.length rest) by lia.
  rewrite skipn_app, Nat.sub_diag, skipn_all. reflexivity.
Qed.

Lemma AddressOf_length (P : FString) :
  (5 <= List.length (AddressOf P) <= 13)%nat.
Proof.
  unfold AddressOf, Printf_address. rewrite !length_app, !ToUpper_length.
  pose proof (Left_length 4 P). pose proof (Right_length 4 P).
  change (List.length (TEXT "0x")) with 2%nat.
  change (List.length (TEXT "...")) with 3%nat. lia.
Qed.


(** Taking the [i]-th element out of a list keeps every other
    element. *)
Lemma In_remove_nth {A : Type} (l : list A) (i : nat) (x y : A) :
  nth_error l i = Some y -> In x l -> x <> y ->
  In x (firstn i l ++ skipn (S i) l).
Proof.
  revert i. induction l as [ | z l IH]; intros i Hn Hin Hne.
  - destruct i; discriminate Hn.
  - destruct i as [ | i].
    + cbn in Hn. injection Hn as ->. cbn [firstn skipn app].
      destruct Hin as [-> | Hin]; [congruence | exact Hin].
    + cbn [nth_error] in Hn. cbn [firstn skipn app].
      destruct Hin as [-> | Hin]; [left; reflexivity | right].
      apply IH; assumption.
Qed.

Lemma In_remove_nth_inv {A : Type} (l : list A) (i : nat) (x : A) :
  In x (firstn i l ++ skipn (S i) l) -> In x l.
Proof.
  intros H. apply in_app_or in H. destruct H as [H | H].
  - rewrite <- (firstn_skipn i l). apply in_or_app. left. exact H.
  - rewrite <- (firstn_skipn (S i) l). apply in_or_app. right. exact H.
Qed.

Lemma Pending_nth (G : Game) (i : nat) (T : FTimerData) :
  nth_error (Timers G) i = Some T ->
  nth_error (PendingLambdas G) i = Some (Callback T).
Proof. intros H. unfold PendingLambdas. apply map_nth_error. exact H. Qed.

Lemma Pending_remove (l : list FTimerData) (i : nat) :
  map Callback (firstn i l ++ skipn (S i) l)
  = firstn i (map Callback l) ++ skipn (S i) (map Callback l).
Proof. rewrite map_app, firstn_map, skipn_map. reflexivity. Qed.

(** Firing the [k]-th of the timers set after the ones of [G]. *)
Lemma Fire_app (W : USoulvanWalletSubsystem) (T l : list FTimerData)
    (H : list Delegate) (k : nat) (Rand : Z) (t : FTimerData) :
  nth_error l k = Some t ->
  Fire (List.length T + k) Rand (MkGame W (T ++ l) H)
  = Invoke (Callback t) Rand
      (MkGame W (T ++ firstn k l ++ skipn (S k) l) H).
Proof.
  intros Hk. unfold Fire. cbn [Timers Subsystem Heard].
  rewrite nth_error_app2 by lia.
  replace (List.length T + k - List.length T)%nat with k by lia.
  rewrite Hk. f_equal. f_equal.
  rewrite firstn_app, skipn_app.
  replace (List.length T + k - List.length T)%nat with k by lia.
  replace (S (List.length T + k) - List.length T)%nat with (S k) by lia.
  rewrite firstn_all2 by lia. rewrite skipn_all2 by lia.
  cbn [app]. rewrite <- app_assoc. reflexivity.
Qed.


Lemma Fire_head (W : USoulvanWalletSubsystem) (T l : list FTimerData)
    (H : list Delegate) (Rand : Z) (t : FTimerData) :
  Fire (List.length T) Rand (MkGame W (T ++ t :: l) H)
  = Invoke (Callback t) Rand (MkGame W (T ++ l) H).
Proof.
  rewrite <- (Nat.add_0_r (List.length T)).
  rewrite (Fire_app W T (t :: l) H 0 Rand t eq_refl). reflexivity.
Qed.

End WalletFacts.

Module WalletTheorems.
Import F32 Wallet WalletSpec WalletFacts.

(** X11.  On a locked wallet every operation other than [UnlockWallet]
    and [LockWallet] is refused: the nine guarded operations change
    nothing (no member written, no timer set, nothing broadcast),
    [ExportSeed] and [ChangePassphrase] return false, and
    [Deinitialize] has nothing to lock. *)
Theorem X11_locked_wallet_refuses_every_operation (G : Game) :
  IsWalletUnlocked G = false ->
  (forall E, NeedsUnlock E = true -> Perform E G = G)
  /\ (forall OutputPath, ExportSeed OutputPath G = false)
  /\ (forall Old New, ChangePassphrase Old New G = false)
  /\ Deinitialize G = G.
Proof.
  intros HL. split; [ | split; [ | split]].
  - intros E HE. apply locked_refuses; assumption.
  - intros p. unfold ExportSeed. rewrite HL. reflexivity.
  - intros o n. unfold ChangePassphrase. rewrite HL. reflexivity.
  - unfold Deinitialize. rewrite HL. reflexivity.
Qed.

Lemma X11_locked_wallet_refuses_every_operation_witness :
  IsWalletUnlocked NewGame = false
  /\ Perform (CallMintNft (TEXT "ipfs://skin")) NewGame = NewGame.
Proof.
  split; [reflexivity | ].
  exact (proj1 (X11_locked_wallet_refuses_every_operation NewGame eq_refl)
           (CallMintNft (TEXT "ipfs://skin")) eq_refl).
Defined.


(** X12.  The choice of a vote never reaches the listeners: when the
    timer of [VoteOnProposal] fires, [OnVoteCast] is broadcast with the
    proposal id and the choice 0, whatever choice was passed, and the
    game ends up the same for any two choices. *)
Theorem X12_vote_choice_is_dropped
    (G : Game) (ProposalId : FString) (Choice Choice' Rand : Z) :
  IsWalletUnlocked G = true ->
  let n := List.length (Timers G) in
  let G' := Fire n Rand (VoteOnProposal ProposalId Choice G) in
  Heard G' = OnVoteCast ProposalId 0 :: Heard G
  /\ G' = Fire n Rand (VoteOnProposal ProposalId Choice' G)
  /\ Subsystem G' = Subsystem G
  /\ PendingLambdas G' = PendingLambdas G ++ [ProposalsLambda].
Proof.
  intros HU n G'. unfold G', n, VoteOnProposal. rewrite HU. cbn [negb].
  rewrite !Fire_last. wallet_unfold. rewrite HU.
  unfold PendingLambdas. wallet_unfold. rewrite map_app.
  repeat split.
Qed.

Lemma X12_vote_choice_is_dropped_witness :
  IsWalletUnlocked (Fire 0 0 (UnlockWallet (TEXT "correct horse") NewGame))
  = true
  /\ exists D,
       hd_error
         (Heard (Fire 3 7
                   (VoteOnProposal (TEXT "1") 2
                      (Fire 0 0 (UnlockWallet (TEXT "correct horse")
                                   NewGame)))))
       = Some D
       /\ D = OnVoteCast (TEXT "1") 0.
Proof.
  split; [reflexivity | ].
  pose proof (X12_vote_choice_is_dropped
                (Fire 0 0 (UnlockWallet (TEXT "correct horse") NewGame))
                (TEXT "1") 2 2 7 eq_refl) as H.
  cbv zeta in H. destruct H as [H _].
  change (List.length
            (Timers (Fire 0 0 (UnlockWallet (TEXT "correct horse") NewGame))))
    with 3%nat in H.
  rewrite H. eexists. split; reflexivity.
Defined.


(** X13.  [LockWallet] does not cancel the requests in flight: a
    response that arrives after the wallet was locked fills the cache
    that [LockWallet] had just cleared, while the wallet stays locked
    with an empty address; a later [Deinitialize] leaves it there.  A
    transfer in flight still completes: [OnTransactionComplete] is
    broadcast after [OnWalletLocked], and the amount is taken off the
    cleared balance. *)
Theorem X13_lock_does_not_cancel_requests_in_flight (G : Game) (Rand : Z) :
  IsWalletUnlocked G = true ->
  let n := List.length (Timers G) in
  (let G' := Fire n Rand (LockWallet (GetBalances G)) in
   IsWalletUnlocked G' = false /\ GetWalletAddress G' = []
   /\ GetCachedBalances G' = StubBalances /\ Deinitialize G' = G')
  /\ (let G' := Fire n Rand (LockWallet (GetNfts G)) in
      IsWalletUnlocked G' = false /\ GetCachedNfts G' = [ExampleNft])
  /\ (let G' := Fire n Rand (LockWallet (GetProposals G)) in
      IsWalletUnlocked G' = false
      /\ GetCachedProposals G' = [ExampleProposal])
  /\ (forall ToAddress Amount MaxFee,
      let G' :=
        Fire n Rand (LockWallet (SendTokens ToAddress Amount MaxFee G)) in
      IsWalletUnlocked G' = false
      /\ Heard G'
         = OnTransactionComplete (Printf_hash Rand) true
           :: OnWalletLocked :: Heard G
      /\ SoulvanCoin (GetCachedBalances G') = sub zero Amount).
Proof.
  intros HU n.
  assert (HF : forall L Rate,
             Fire n Rand (LockWallet (SetTimer L Rate G))
             = Invoke L Rand (LockWallet G)).
  { intros L Rate. unfold n.
    change (LockWallet (SetTimer L Rate G))
      with (SetTimer L Rate (LockWallet G)).
    apply (Fire_last L Rate Rand (LockWallet G)). }
  unfold GetBalances, GetNfts, GetProposals, SendTokens.
  rewrite HU. cbn [negb].
  repeat split; try (intros ToAddress Amount MaxFee); rewrite HF;
    try reflexivity.
Qed.

Lemma X13_lock_does_not_cancel_requests_in_flight_witness :
  IsWalletUnlocked (Fire 0 0 (UnlockWallet (TEXT "correct horse") NewGame))
  = true
  /\ NftCount
       (GetCachedBalances
          (Fire 3 0
             (LockWallet
                (GetBalances
                   (Fire 0 0 (UnlockWallet (TEXT "correct horse")
                                NewGame)))))) = 5.
Proof.
  split; [reflexivity | ].
  pose proof (X13_lock_does_not_cancel_requests_in_flight
                (Fire 0 0 (UnlockWallet (TEXT "correct horse") NewGame))
                0 eq_refl) as H.
  cbv zeta in H. destruct H as [(_ & _ & H & _) _].
  change (List.length
            (Timers (Fire 0 0 (UnlockWallet (TEXT "correct horse") NewGame))))
    with 3%nat in H.
  rewrite H. reflexivity.
Defined.


(** X14.  Any passphrase unlocks the wallet, and the address depends on
    its first four and last four characters only: when the timer of
    [UnlockWallet] fires the wallet is unlocked, the address is "0x",
    the first four characters in capitals, "..." and the last four in
    capitals (5 to 13 characters), [OnWalletUnlocked] is broadcast with
    it and three fetches (balances, NFTs, proposals) are set going.
    Two passphrases with the same four-character head and tail, or
    that differ in the case of their letters, open the same address. *)
Theorem X14_any_passphrase_unlocks (G : Game) (Passphrase : FString)
    (Rand : Z) :
  let n := List.length (Timers G) in
  let G' := Fire n Rand (UnlockWallet Passphrase G) in
  (IsWalletUnlocked G' = true
   /\ GetWalletAddress G' = AddressOf Passphrase
   /\ Heard G' = OnWalletUnlocked (AddressOf Passphrase) :: Heard G
   /\ PendingLambdas G'
      = PendingLambdas G ++ [BalancesLambda; NftsLambda; ProposalsLambda])
  /\ (5 <= List.length (AddressOf Passphrase) <= 13)%nat
  /\ AddressOf (ToUpper Passphrase) = AddressOf Passphrase
  /\ (forall a middle middle' b : FString,
        List.length a = 4%nat -> List.length b = 4%nat ->
        AddressOf (a ++ middle ++ b) = AddressOf (a ++ middle' ++ b)
        /\ AddressOf (a ++ middle ++ b)
           = TEXT "0x" ++ ToUpper a ++ TEXT "..." ++ ToUpper b).
Proof.
  intros n G'. split; [ | split; [ | split]].
  - unfold G', n, UnlockWallet. rewrite Fire_last.
    wallet_unfold. rewrite !map_app, <- !app_assoc.
    repeat split.
  - apply AddressOf_length.
  - unfold AddressOf. rewrite Left_ToUpper, Right_ToUpper.
    rewrite !ToUpper_idempotent. reflexivity.
  - intros a middle middle' b Ha Hb.
    assert (E : forall m, AddressOf (a ++ m ++ b)
                          = TEXT "0x" ++ ToUpper a ++ TEXT "..." ++ ToUpper b).
    { intros m. unfold AddressOf.
      rewrite (Left_head a (m ++ b) Ha).
      rewrite app_assoc, (Right_tail (a ++ m) b Hb). reflexivity. }
    rewrite !E. split; reflexivity.
Qed.

Lemma X14_any_passphrase_unlocks_witness :
  List.length (TEXT "corr") = 4%nat /\ List.length (TEXT "orse") = 4%nat
  /\ AddressOf (TEXT "corr" ++ TEXT "ect h" ++ TEXT "orse")
     = AddressOf (TEXT "corr" ++ TEXT "idor of a h" ++ TEXT "orse")
  /\ AddressOf (TEXT "corr" ++ TEXT "ect h" ++ TEXT "orse")
     = TEXT "0xCORR...ORSE".
Proof.
  refine (conj eq_refl (conj eq_refl _)).
  destruct (X14_any_passphrase_unlocks NewGame [] 0) as (_ & _ & _ & H).
  destruct (H (TEXT "corr") (TEXT "ect h") (TEXT "idor of a h")
              (TEXT "orse") eq_refl eq_refl) as [H1 H2].
  split; [exact H1 | ]. rewrite H2. reflexivity.
Defined.


(** X15.  A wallet that was never unlocked stays as it was made: after
    any history of calls and timer firings without [UnlockWallet], the
    subsystem is in its initial state (locked, no address, empty
    caches, no pending reward), no timer is pending, and nothing but
    [OnWalletLocked] has been broadcast. *)
Theorem X15_nothing_happens_before_unlock (l : list Event) :
  forallb (fun E => negb (IsUnlockCall E)) l = true ->
  Subsystem (Run l NewGame) = NewWallet
  /\ Timers (Run l NewGame) = []
  /\ Forall (fun D => D = OnWalletLocked) (Heard (Run l NewGame)).
Proof.
  assert (Step : forall E G,
             IsUnlockCall E = false ->
             Subsystem G = NewWallet /\ Timers G = []
             /\ Forall (fun D => D = OnWalletLocked) (Heard G) ->
             Subsystem (Perform E G) = NewWallet
             /\ Timers (Perform E G) = []
             /\ Forall (fun D => D = OnWalletLocked) (Heard (Perform E G))).
  { intros E G HE (HS & HT & HH).
    assert (HL : IsWalletUnlocked G = false)
      by (unfold IsWalletUnlocked; rewrite HS; reflexivity).
    destruct (NeedsUnlock E) eqn:HN.
    { rewrite (locked_refuses G E HL HN). auto. }
    destruct E; try discriminate HE; try discriminate HN; cbn [Perform].
    - unfold LockWallet, Broadcast, Update. cbn [Subsystem Timers Heard].
      rewrite HS. split; [reflexivity | split; [exact HT | ]].
      constructor; [reflexivity | exact HH].
    - unfold Deinitialize. rewrite HL. auto.
    - unfold Fire. rewrite HT. destruct i; cbn [nth_error]; auto. }
  unfold Run.
  assert (H0 : Subsystem NewGame = NewWallet /\ Timers NewGame = []
               /\ Forall (fun D => D = OnWalletLocked) (Heard NewGame)).
  { repeat split. constructor. }
  intros Hl. revert H0 Hl. generalize NewGame.
  induction l as [ | E l IH]; intros G HG Hl; cbn [fold_left].
  - exact HG.
  - cbn [forallb] in Hl. apply andb_prop in Hl. destruct Hl as [HE Hl].
    apply IH; [ | exact Hl]. apply Step; [ | exact HG].
    destruct (IsUnlockCall E); [discriminate HE | reflexivity].
Qed.


Lemma X15_nothing_happens_before_unlock_witness :
  forallb (fun E => negb (IsUnlockCall E))
    [CallMintNft (TEXT "ipfs://skin"); CallLockWallet; TimerFires 0 0;
     CallGetBalances] = true
  /\ Subsystem
       (Run [CallMintNft (TEXT "ipfs://skin"); CallLockWallet; TimerFires 0 0;
             CallGetBalances] NewGame) = NewWallet.
Proof.
  split; [reflexivity | ].
  apply (X15_nothing_happens_before_unlock
           [CallMintNft (TEXT "ipfs://skin"); CallLockWallet; TimerFires 0 0;
            CallGetBalances] eq_refl).
Defined.

(** What an event does to the lock and the address: nothing, or it
    locks and empties the address, or it unlocks with the address of
    a passphrase. *)
Lemma Perform_lock (E : Event) (G : Game) :
  let W := Subsystem G in
  let W' := Subsystem (Perform E G) in
  (bIsUnlocked W' = bIsUnlocked W /\ WalletAddress W' = WalletAddress W)
  \/ (bIsUnlocked W' = false /\ WalletAddress W' = [])
  \/ (bIsUnlocked W' = true
      /\ exists P, WalletAddress W' = AddressOf P).
Proof.
  cbv zeta.
  destruct E; cbn [Perform];
    try (left; wallet_unfold; by_guard G; split; reflexivity).
  - right; left. split; reflexivity.
  - wallet_unfold. by_guard G.
    + right; left. split; reflexivity.
    + left. split; reflexivity.
  - unfold Fire. destruct (nth_error (Timers G) i) as [T | ];
      [ | left; split; reflexivity].
    destruct (Callback T) as [P | To Amount | | uri | | Pid Choice | ];
      try (left; wallet_unfold; by_guard G; split; reflexivity).
    right; right. wallet_unfold. split; [reflexivity | ].
    exists P. reflexivity.
Qed.

(** X16.  In every reachable state the reported address goes with the
    lock: a locked wallet reports the empty address, and an unlocked
    one reports the address derived from some passphrase, "0x", up to
    four capitals, "...", up to four capitals. *)
Theorem X16_address_goes_with_the_lock (G : Game) :
  ReachableGame G ->
  (IsWalletUnlocked G = false -> GetWalletAddress G = [])
  /\ (IsWalletUnlocked G = true ->
      exists P, GetWalletAddress G = AddressOf P
                /\ (5 <= List.length (GetWalletAddress G) <= 13)%nat).
Proof.
  unfold IsWalletUnlocked, GetWalletAddress.
  induction 1 as [ | E G HR [IH1 IH2]].
  - split; [reflexivity | discriminate].
  - destruct (Perform_lock E G) as [[HU HA] | [[HU HA] | (HU & P & HA)]];
      cbv zeta in *; rewrite HU, HA.
    + split; assumption.
    + split; [reflexivity | discriminate].
    + split; [discriminate | ]. intros _. exists P.
      split; [reflexivity | apply AddressOf_length].
Qed.

Lemma X16_address_goes_with_the_lock_witness :
  ReachableGame
    (Perform (TimerFires 0 0)
       (Perform (CallUnlockWallet (TEXT "correct horse")) NewGame))
  /\ exists P,
       GetWalletAddress
         (Perform (TimerFires 0 0)
            (Perform (CallUnlockWallet (TEXT "correct horse")) NewGame))
       = AddressOf P.
Proof.
  assert (R : ReachableGame
                (Perform (TimerFires 0 0)
                   (Perform (CallUnlockWallet (TEXT "correct horse"))
                      NewGame))).
  { repeat constructor. }
  split; [exact R | ].
  destruct (proj2 (X16_address_goes_with_the_lock _ R) eq_refl)
    as (P & H & _).
  exists P. exact H.
Defined.


(** An event other than a timer firing keeps the pending timers and
    the pending rewards, except that [MintNft] adds one of each. *)
Lemma Perform_call_pending (E : Event) (G : Game) (uri : FString) :
  (forall i Rand, E <> TimerFires i Rand) ->
  (forall u, In u (PendingRewards (Subsystem G)) ->
             In (MintLambda u) (PendingLambdas G)) ->
  In uri (PendingRewards (Subsystem (Perform E G))) ->
  In (MintLambda uri) (PendingLambdas (Perform E G)).
Proof.
  intros HE Inv.
  destruct E; cbn [Perform]; try (specialize (HE i Rand); congruence);
    wallet_unfold; try by_guard G; wallet_cbn;
    rewrite ?map_app; intros H; try apply in_or_app; auto.
  apply in_app_or in H. destruct H as [H | [<- | []]].
  - left. auto.
  - right. left. reflexivity.
Qed.

(** A timer that fires leaves the list; its lambda keeps the other
    timers, and only the mint lambda touches the pending rewards. *)
Lemma Invoke_pending (L : Lambda) (Rand : Z) (G : Game) :
  (forall x, In x (PendingLambdas G) -> In x (PendingLambdas (Invoke L Rand G)))
  /\ PendingRewards (Subsystem (Invoke L Rand G))
     = match L with
       | MintLambda u => Remove u (PendingRewards (Subsystem G))
       | _ => PendingRewards (Subsystem G)
       end.
Proof.
  destruct L; wallet_unfold; try by_guard G; wallet_cbn;
    rewrite ?map_app; split; try reflexivity;
    intros x Hx; repeat (apply in_or_app; left); exact Hx.
Qed.

(** X17.  In every reachable state each pending reward has its mint in
    flight: for every URI in [PendingRewards] a timer with the mint
    lambda of that URI is pending; so when no timer is pending, no
    reward is. *)
Theorem X17_pending_rewards_have_a_mint_in_flight (G : Game) :
  ReachableGame G ->
  (forall uri, In uri (PendingRewards (Subsystem G)) ->
               In (MintLambda uri) (PendingLambdas G))
  /\ (Timers G = [] -> PendingRewards (Subsystem G) = []).
Proof.
  intros HR.
  assert (Inv : forall uri, In uri (PendingRewards (Subsystem G)) ->
                            In (MintLambda uri) (PendingLambdas G)).
  { induction HR as [ | E G HR IH]; [intros uri [] | ].
    intros uri Hin.
    destruct E; try (apply Perform_call_pending;
                     [intros; discriminate | exact IH | exact Hin]).
    cbn [Perform] in *. unfold Fire in *.
    destruct (nth_error (Timers G) i) as [T | ] eqn:HT; [ | auto].
    set (G1 := {| Subsystem := Subsystem G;
                  Timers := firstn i (Timers G) ++ skipn (S i) (Timers G);
                  Heard := Heard G |}) in *.
    destruct (Invoke_pending (Callback T) Rand G1) as [Hkeep HP].
    rewrite HP in Hin. apply Hkeep.
    unfold PendingLambdas, G1. cbn [Timers]. rewrite Pending_remove.
    assert (Hu : In uri (PendingRewards (Subsystem G))
                 /\ MintLambda uri <> Callback T).
    { unfold G1 in Hin. cbn [Subsystem] in Hin.
      destruct (Callback T) as [ | | | u | | | ];
        try (split; [exact Hin | discriminate]).
      apply Remove_In in Hin. destruct Hin as [H1 H2].
      split; [exact H1 | congruence]. }
    destruct Hu as [Hu Hne].
    apply (In_remove_nth _ i _ (Callback T)); [ | apply IH; exact Hu | exact Hne].
    apply (Pending_nth G i T HT). }
  split; [exact Inv | ].
  intros HT. destruct (PendingRewards (Subsystem G)) as [ | u l] eqn:E;
    [reflexivity | ].
  specialize (Inv u (or_introl eq_refl)). unfold PendingLambdas in Inv.
  rewrite HT in Inv. destruct Inv.
Qed.

Lemma X17_pending_rewards_have_a_mint_in_flight_witness :
  ReachableGame
    (Perform (CallMintNft (TEXT "ipfs://skin"))
       (Perform (TimerFires 0 0)
          (Perform (CallUnlockWallet (TEXT "correct horse")) NewGame)))
  /\ In (MintLambda (TEXT "ipfs://skin"))
        (PendingLambdas
           (Perform (CallMintNft (TEXT "ipfs://skin"))
              (Perform (TimerFires 0 0)
                 (Perform (CallUnlockWallet (TEXT "correct horse"))
                    NewGame)))).
Proof.
  assert (R : ReachableGame
                (Perform (CallMintNft (TEXT "ipfs://skin"))
                   (Perform (TimerFires 0 0)
                      (Perform (CallUnlockWallet (TEXT "correct horse"))
                         NewGame)))).
  { repeat constructor. }
  split; [exact R | ].
  apply (proj1 (X17_pending_rewards_have_a_mint_in_flight _ R)).
  left. reflexivity.
Defined.

(** X18.  A mint, from the call to the firing of its timer: the URI is
    put on the pending rewards and taken off again, together with every
    older entry equal to it (the comparison ignores case); the NFT count
    of the cached balances goes up by one; [OnNftMinted] is broadcast
    with the decimal of the number of cached NFTs plus one as token id
    and, in the place of the metadata URI, the transaction hash; a
    fetch of the NFTs is set going, and the cached NFTs are as
    before. *)
Theorem X18_mint_round_trip (G : Game) (MetadataUri : FString) (Rand : Z) :
  IsWalletUnlocked G = true ->
  let n := List.length (Timers G) in
  let G' := Fire n Rand (MintNft MetadataUri G) in
  PendingRewards (Subsystem (MintNft MetadataUri G))
  = PendingRewards (Subsystem G) ++ [MetadataUri]
  /\ PendingRewards (Subsystem G')
     = Remove MetadataUri (PendingRewards (Subsystem G))
  /\ ~ In MetadataUri (PendingRewards (Subsystem G'))
  /\ NftCount (GetCachedBalances G')
     = wrap32 (NftCount (GetCachedBalances G) + 1)
  /\ Heard G'
     = OnNftMinted (Printf_d (Num (GetCachedNfts G) + 1)) (Printf_hash Rand)
       :: Heard G
  /\ PendingLambdas G' = PendingLambdas G ++ [NftsLambda]
  /\ GetCachedNfts G' = GetCachedNfts G
  /\ IsWalletUnlocked G' = true.
Proof.
  intros HU n G'.
  assert (E : G' = Invoke (MintLambda MetadataUri) Rand
                     (Update (fun W => SetPendingRewards
                                         (Add MetadataUri (PendingRewards W))
                                         W) G)).
  { unfold G', n, MintNft. rewrite HU. cbn [negb].
    apply (Fire_last (MintLambda MetadataUri) (of_Z 2) Rand
             (Update (fun W => SetPendingRewards
                                 (Add MetadataUri (PendingRewards W)) W)
                     G)). }
  assert (EP : PendingRewards (Subsystem G')
               = Remove MetadataUri (PendingRewards (Subsystem G))).
  { rewrite E. wallet_unfold. rewrite HU. wallet_cbn.
    apply Remove_Add. }
  split; [unfold MintNft; rewrite HU; reflexivity | ].
  split; [exact EP | ].
  split.
  { rewrite EP. intros H. apply Remove_In in H. destruct H as [_ H].
    apply H. reflexivity. }
  rewrite E. wallet_unfold. rewrite HU. wallet_cbn. rewrite map_app.
  repeat split. exact HU.
Qed.

Lemma X18_mint_round_trip_witness :
  IsWalletUnlocked (Fire 0 0 (UnlockWallet (TEXT "correct horse") NewGame))
  = true
  /\ PendingRewards
       (Subsystem
          (Fire 3 7
             (MintNft (TEXT "ipfs://skin")
                (Fire 0 0 (UnlockWallet (TEXT "correct horse") NewGame)))))
     = [].
Proof.
  split; [reflexivity | ].
  pose proof (X18_mint_round_trip
                (Fire 0 0 (UnlockWallet (TEXT "correct horse") NewGame))
                (TEXT "ipfs://skin") 7 eq_refl) as H.
  cbv zeta in H. destruct H as (_ & H & _).
  change (List.length
            (Timers (Fire 0 0 (UnlockWallet (TEXT "correct horse") NewGame))))
    with 3%nat in H.
  rewrite H. reflexivity.
Defined.


(** X19.  [SendTokens] checks nothing but the lock: when its timer
    fires the transfer is reported as a success, with the hash "0x"
    and the decimal of the random number, and the amount is taken off
    the cached SVN balance with no check against it, so that sending
    any positive amount from a zero balance leaves a negative balance.
    The recipient and the fee limit have no effect at all. *)
Theorem X19_send_is_unchecked
    (G : Game) (ToAddress ToAddress' : FString)
    (Amount MaxFee MaxFee' : float) (Rand : Z) :
  IsWalletUnlocked G = true ->
  let n := List.length (Timers G) in
  let G' := Fire n Rand (SendTokens ToAddress Amount MaxFee G) in
  Heard G' = OnTransactionComplete (Printf_hash Rand) true :: Heard G
  /\ SoulvanCoin (GetCachedBalances G')
     = sub (SoulvanCoin (GetCachedBalances G)) Amount
  /\ G' = Fire n Rand (SendTokens ToAddress' Amount MaxFee' G)
  /\ Timers G' = Timers G
  /\ (SoulvanCoin (GetCachedBalances G) = zero ->
      OrderDefs.positive_finite Amount = true ->
      OrderDefs.negative (SoulvanCoin (GetCachedBalances G')) = true).
Proof.
  intros HU n G'. unfold G', n, SendTokens. rewrite HU. cbn [negb].
  rewrite !Fire_last. wallet_unfold.
  split; [reflexivity | split; [reflexivity | split; [reflexivity | ]]].
  split; [reflexivity | ].
  intros -> HA.
  destruct Amount as [ | | | s m e]; try discriminate HA.
  destruct s; [discriminate HA | reflexivity].
Qed.

Lemma X19_send_is_unchecked_witness :
  IsWalletUnlocked (Fire 0 0 (UnlockWallet (TEXT "correct horse") NewGame))
  = true
  /\ OrderDefs.positive_finite (of_Z 25) = true
  /\ OrderDefs.negative
       (SoulvanCoin
          (GetCachedBalances
             (Fire 3 7
                (SendTokens (TEXT "0xABCD") (of_Z 25) one
                   (Fire 0 0 (UnlockWallet (TEXT "correct horse")
                                NewGame)))))) = true.
Proof.
  refine (conj eq_refl (conj _ _)); [vm_compute; reflexivity | ].
  pose proof (X19_send_is_unchecked
                (Fire 0 0 (UnlockWallet (TEXT "correct horse") NewGame))
                (TEXT "0xABCD") [] (of_Z 25) one one 7 eq_refl) as H.
  cbv zeta in H. destruct H as (_ & _ & _ & _ & H).
  change (List.length
            (Timers (Fire 0 0 (UnlockWallet (TEXT "correct horse") NewGame))))
    with 3%nat in H.
  apply H; [reflexivity | vm_compute; reflexivity].
Defined.

(** X20.  The three fetches that an unlock sets going may complete in
    any order: whichever of the six orders their timers fire in, the
    wallet ends up unlocked with the stubbed balances (1000 SVN, 0.5
    ETH, 5 NFTs, 2 badges, voting power 100), the one example NFT and
    the one example proposal in its caches, the timers that were
    pending before the unlock still pending, and nothing broadcast but
    [OnWalletUnlocked]. *)
Theorem X20_fetches_complete_in_any_order
    (G : Game) (Passphrase : FString) (i j : nat) (R0 R1 R2 R3 : Z) :
  (i <= 2)%nat -> (j <= 1)%nat ->
  let n := List.length (Timers G) in
  let G1 := Fire n R0 (UnlockWallet Passphrase G) in
  let G' := Fire n R3 (Fire (n + j) R2 (Fire (n + i) R1 G1)) in
  IsWalletUnlocked G' = true
  /\ GetWalletAddress G' = AddressOf Passphrase
  /\ GetCachedBalances G' = StubBalances
  /\ GetCachedNfts G' = [ExampleNft]
  /\ GetCachedProposals G' = [ExampleProposal]
  /\ Timers G' = Timers G
  /\ Heard G' = OnWalletUnlocked (AddressOf Passphrase) :: Heard G.
Proof.
  intros Hi Hj n G1 G'.
  assert (E1 : G1
               = MkGame (SetUnlocked (AddressOf Passphrase) true (Subsystem G))
                   (Timers G ++ [MkTimer BalancesLambda (lit 5 10);
                                 MkTimer NftsLambda (lit 5 10);
                                 MkTimer ProposalsLambda (lit 5 10)])
                   (OnWalletUnlocked (AddressOf Passphrase) :: Heard G)).
  { unfold G1, n, UnlockWallet. rewrite Fire_last. wallet_unfold.
    rewrite <- !app_assoc. reflexivity. }
  unfold G'. rewrite E1. fold n.
  assert (Hi' : i = 0%nat \/ i = 1%nat \/ i = 2%nat) by lia.
  assert (Hj' : j = 0%nat \/ j = 1%nat) by lia.
  destruct Hi' as [-> | [-> | ->]]; destruct Hj' as [-> | ->];
    unfold n;
    erewrite Fire_app by reflexivity; cbn [firstn skipn app Callback Invoke];
    unfold ProcessBalancesResponse, ProcessNftsResponse,
      ProcessProposalsResponse, Update; cbn [Subsystem Timers Heard];
    erewrite Fire_app by reflexivity; cbn [firstn skipn app Callback Invoke];
    unfold ProcessBalancesResponse, ProcessNftsResponse,
      ProcessProposalsResponse, Update; cbn [Subsystem Timers Heard];
    rewrite Fire_head; cbn [Callback Invoke];
    unfold ProcessBalancesResponse, ProcessNftsResponse,
      ProcessProposalsResponse, Update; cbn [Subsystem Timers Heard];
    rewrite app_nil_r; repeat split.
Qed.

Lemma X20_fetches_complete_in_any_order_witness :
  (2 <= 2)%nat /\ (1 <= 1)%nat
  /\ GetCachedNfts
       (Fire 0 0
          (Fire 1 0
             (Fire 2 0
                (Fire 0 0 (UnlockWallet (TEXT "correct horse") NewGame)))))
     = [ExampleNft].
Proof.
  refine (conj _ (conj _ _)); [lia | lia | ].
  apply (X20_fetches_complete_in_any_order NewGame (TEXT "correct horse")
           2 1 0 0 0 0); lia.
Defined.

End WalletTheorems.

(** ** From the threat level to the motif intensity *)

Module IntensityTheorems.
Import F32 FMath ThreatService MotifComponent Spec MotifSpec RoundingDefs
       Rounding OrderDefs Order ThreatOrder PresentationSpec PresentationFacts.
Local Open Scope f32_scope.

(** A binary32 number in [0,1] is a finite non-negative one. *)
Lemma unit_interval_finite (T : float) :
  valid T = true -> between zero one T ->
  nonneg_finite T = true /\ ordv T <= 2 ^ 149.
Proof.
  intros V [H0 H1].
  destruct (leb_cases zero T eq_refl V H0) as [Hn | (_ & NV & _)];
    [discriminate Hn | ].
  rewrite (leb_ordv T one NV one_nonneg_valid), ordv_one in H1.
  apply Z.leb_le in H1. split; [ | exact H1].
  unfold nonneg_finite. rewrite NV. cbn [andb].
  apply nonneg_below_top_finite; [exact NV | ].
  pose proof (pow2_lt_mono 149 277 ltac:(lia) ltac:(lia)). lia.
Qed.

Lemma scale_finite : nonneg_finite (lit 6 10) = true.
Proof. vm_compute. reflexivity. Qed.

Lemma floor_valid : nonneg_valid (lit 4 10) = true.
Proof. vm_compute. reflexivity. Qed.

(** The threat level of a well-configured service is a binary32
    number. *)
Lemma threat_valid (S : UBTService_ThreatUpdate) (Rival : option AActor)
    (PolicePos : FVector) (Speed Damage : float) (SelfPos : FVector) :
  well_configured S = true -> valid Speed = true -> valid Damage = true ->
  valid (CalculateThreat S Rival PolicePos Speed Damage SelfPos) = true.
Proof.
  intros HS VS VD. unfold CalculateThreat, WeightedSum.
  assert (H : nn_or_nan
                (RivalWeight S * RivalProx Rival SelfPos
                 + PoliceWeight S * PoliceProx PolicePos SelfPos
                 + SpeedWeight S * SpeedRisk S Speed
                 + DamageWeight S * DamageRisk Damage)).
  { apply add_nn_or_nan; [ | apply (damage_term S HS); exact VD].
    apply add_nn_or_nan; [ | apply (speed_term S HS); exact VS].
    apply add_nn_or_nan; [apply (rival_term S HS) | apply (police_term S HS)]. }
  destruct H as [-> | H]; [reflexivity | ].
  apply nonneg_valid_valid. apply (Clamp_nonneg _ H).
Qed.

(** X21.  The motif intensity follows the threat level: of two binary32
    threat levels in [0,1] with [T1 <= T2], the second gives a motif
    intensity that is not lower; so, for a service whose weights are
    finite and non-negative and whose [MaxSpeedKmh] is finite and
    positive, a situation that scores a higher threat level than
    another never gets a lower motif intensity. *)
Theorem X21_motif_intensity_follows_threat :
  (forall T1 T2 : float,
      valid T1 = true -> valid T2 = true ->
      between zero one T1 -> between zero one T2 ->
      (T1 <=? T2) = true ->
      (MotifIntensityOf T1 <=? MotifIntensityOf T2) = true)
  /\ (forall (S : UBTService_ThreatUpdate) (R1 R2 : option AActor)
             (P1 P2 : FVector) (Speed1 Speed2 Damage1 Damage2 : float)
             (Self1 Self2 : FVector),
        well_configured S = true ->
        valid Speed1 = true -> valid Speed2 = true ->
        valid Damage1 = true -> valid Damage2 = true ->
        let Threat1 := CalculateThreat S R1 P1 Speed1 Damage1 Self1 in
        let Threat2 := CalculateThreat S R2 P2 Speed2 Damage2 Self2 in
        (Threat1 <=? Threat2) = true ->
        (MotifIntensityOf Threat1 <=? MotifIntensityOf Threat2) = true).
Proof.
  assert (Mono : forall T1 T2 : float,
             valid T1 = true -> valid T2 = true ->
             between zero one T1 -> between zero one T2 ->
             (T1 <=? T2) = true ->
             (MotifIntensityOf T1 <=? MotifIntensityOf T2) = true).
  { intros T1 T2 V1 V2 B1 B2 Hle.
    destruct (unit_interval_finite T1 V1 B1) as [F1 _].
    destruct (unit_interval_finite T2 V2 B2) as [F2 _].
    destruct (nonneg_finite_split _ F1) as [NV1 _].
    destruct (nonneg_finite_split _ F2) as [NV2 _].
    rewrite (leb_ordv T1 T2 NV1 NV2) in Hle. apply Z.leb_le in Hle.
    unfold MotifIntensityOf. apply Le_Clamp.
    apply Le_add_r; [ | right; exact floor_valid].
    apply Le_mul_l; [exact scale_finite | exact F1 | exact F2 | exact Hle]. }
  split; [exact Mono | ].
  intros S R1 R2 P1 P2 Speed1 Speed2 Damage1 Damage2 Self1 Self2
         HS VS1 VS2 VD1 VD2 Threat1 Threat2 Hle.
  apply Mono; try exact Hle.
  - apply threat_valid; assumption.
  - apply threat_valid; assumption.
  - apply ThreatFacts.CalculateThreat_range.
  - apply ThreatFacts.CalculateThreat_range.
Qed.

Lemma X21_motif_intensity_follows_threat_witness :
  valid (lit 2 10) = true /\ valid (lit 7 10) = true
  /\ between zero one (lit 2 10) /\ between zero one (lit 7 10)
  /\ (lit 2 10 <=? lit 7 10) = true
  /\ (MotifIntensityOf (lit 2 10) <=? MotifIntensityOf (lit 7 10)) = true.
Proof.
  assert (H1 : valid (lit 2 10) = true) by (vm_compute; reflexivity).
  assert (H2 : valid (lit 7 10) = true) by (vm_compute; reflexivity).
  assert (H3 : between zero one (lit 2 10))
    by (split; vm_compute; reflexivity).
  assert (H4 : between zero one (lit 7 10))
    by (split; vm_compute; reflexivity).
  assert (H5 : (lit 2 10 <=? lit 7 10) = true) by (vm_compute; reflexivity).
  refine (conj H1 (conj H2 (conj H3 (conj H4 (conj H5 _))))).
  exact (proj1 X21_motif_intensity_follows_threat (lit 2 10) (lit 7 10)
           H1 H2 H3 H4 H5).
Defined.
End IntensityTheorems.

(** ** The wallet: what the listeners hear *)

Module ListenerTheorems.
Import F32 Wallet WalletSpec WalletFacts ListenerSpec.

Lemma minted_token (Nfts : list FNftData) :
  Nfts = [] \/ Nfts = [ExampleNft] ->
  Printf_d (Num Nfts + 1) = TEXT "1" \/ Printf_d (Num Nfts + 1) = TEXT "2".
Proof. intros [-> | ->]; [left | right]; reflexivity. Qed.

Lemma Perform_listeners (E : Event) (G : Game) :
  StubCaches G -> Forall Expected (Heard G) ->
  StubCaches (Perform E G) /\ Forall Expected (Heard (Perform E G)).
Proof.
  intros [HN HP] HH. unfold StubCaches in *.
  pose proof (minted_token _ HN) as HT.
  destruct E; cbn [Perform];
    try (wallet_unfold; by_guard G; wallet_cbn; auto; fail).
  - wallet_unfold. split; [auto | ]. constructor; [exact I | exact HH].
  - wallet_unfold. by_guard G; wallet_cbn; [ | auto].
    split; [auto | ]. constructor; [exact I | exact HH].
  - unfold Fire. destruct (nth_error (Timers G) i) as [T | ];
      [ | unfold GetCachedNfts, GetCachedProposals in *; auto].
    destruct (Callback T) as [P | To Amount | | uri | | Pid Choice | ];
      wallet_unfold; try by_guard G; wallet_cbn;
      try (split; [auto | ]); auto;
      constructor; cbn [Expected]; eauto;
      exists P; reflexivity.
Qed.

(** X22.  In every reachable state the listeners have heard nothing
    but what the stubs can produce: every [OnTransactionComplete]
    reported success, every [OnVoteCast] carried the choice 0, every
    [OnNftMinted] carried the token id "1" or "2" (the number of cached
    NFTs, never more than one, plus one) and a transaction hash in the
    place of the metadata URI, and every [OnWalletUnlocked] the address
    of a passphrase; and the cached NFTs and proposals are empty or the
    one example of the stubbed query. *)
Theorem X22_listeners_hear_only_the_stubs (G : Game) :
  ReachableGame G ->
  Forall Expected (Heard G)
  /\ (GetCachedNfts G = [] \/ GetCachedNfts G = [ExampleNft])
  /\ (GetCachedProposals G = [] \/ GetCachedProposals G = [ExampleProposal]).
Proof.
  intros HR.
  assert (H : StubCaches G /\ Forall Expected (Heard G)).
  { induction HR as [ | E G HR [IH1 IH2]].
    - split; [split; left; reflexivity | constructor].
    - apply Perform_listeners; assumption. }
  destruct H as [[H1 H2] H3]. auto.
Qed.

Lemma X22_listeners_hear_only_the_stubs_witness :
  ReachableGame
    (Perform (TimerFires 3 7)
       (Perform (CallVoteOnProposal (TEXT "1") 2)
          (Perform (TimerFires 0 0)
             (Perform (CallUnlockWallet (TEXT "correct horse")) NewGame))))
  /\ Forall Expected
       [OnVoteCast (TEXT "1") 0; OnWalletUnlocked (TEXT "0xCORR...ORSE")].
Proof.
  assert (R : ReachableGame
                (Perform (TimerFires 3 7)
                   (Perform (CallVoteOnProposal (TEXT "1") 2)
                      (Perform (TimerFires 0 0)
                         (Perform (CallUnlockWallet (TEXT "correct horse"))
                            NewGame))))).
  { repeat constructor. }
  split; [exact R | ].
  exact (proj1 (X22_listeners_hear_only_the_stubs _ R)).
Defined.
End ListenerTheorems.
